(** * webhookproxy: the broker of [src/index.js], embedded and verified

    The development follows the class [ProxyServer] of [src/index.js]:
    - [Regex]: the regular expressions the validators are written with;
    - [Validator]: [validateSlug], [validateInput], [sanitizeHeaders];
    - [RateLimit]: [checkRateLimit];
    - [Broker]: the server object (bindings, pending table, statistics,
      reply sinks) and its event handlers, one event per callback of the
      JavaScript event loop.

    Strings are sequences of code units below 256: request targets and
    methods are ASCII, and Node decodes header bytes as Latin-1. *)

From Stdlib Require Import ZArith Lia Ascii.
From stdpp Require Import gmap strings list fin_maps.

(** ** Regular expressions

    A pattern is matched through its derivatives, so [test] computes.
    [lang] is the usual denotation; [matches_lang] relates the two. *)
Module Regex.

Inductive regex : Type :=
| Void
| Eps
| Sym (p : ascii -> bool)
| Cat (r1 r2 : regex)
| Alt (r1 r2 : regex)
| Star (r : regex).

Fixpoint nullable (r : regex) : bool :=
  match r with
  | Void => false
  | Eps => true
  | Sym _ => false
  | Cat r1 r2 => nullable r1 && nullable r2
  | Alt r1 r2 => nullable r1 || nullable r2
  | Star _ => true
  end.

Fixpoint deriv (c : ascii) (r : regex) : regex :=
  match r with
  | Void => Void
  | Eps => Void
  | Sym p => if p c then Eps else Void
  | Cat r1 r2 =>
      if nullable r1 then Alt (Cat (deriv c r1) r2) (deriv c r2)
      else Cat (deriv c r1) r2
  | Alt r1 r2 => Alt (deriv c r1) (deriv c r2)
  | Star r1 => Cat (deriv c r1) (Star r1)
  end.

Fixpoint matches (r : regex) (s : string) : bool :=
  match s with
  | EmptyString => nullable r
  | String c s' => matches (deriv c r) s'
  end.

Definition Plus (r : regex) : regex := Cat r (Star r).

Definition anything : regex := Star (Sym (fun _ => true)).

(** [/R/.test(s)]: some substring of [s] matches [R]. *)
Definition test (r : regex) (s : string) : bool :=
  matches (Cat anything (Cat r anything)) s.

(** [/^R$/.test(s)]: the whole of [s] matches [R]. *)
Definition test_anchored (r : regex) (s : string) : bool := matches r s.

(** Character classes. *)
Definition code (c : ascii) : nat := nat_of_ascii c.

Definition in_range (lo hi : nat) (c : ascii) : bool :=
  (lo <=? code c)%nat && (code c <=? hi)%nat.

Definition is_upper (c : ascii) : bool := in_range 65 90 c.
Definition is_lower (c : ascii) : bool := in_range 97 122 c.
Definition is_digit (c : ascii) : bool := in_range 48 57 c.

(** [\w] *)
Definition word_char (c : ascii) : bool :=
  is_upper c || is_lower c || is_digit c || (code c =? 95)%nat.

(** [\s], restricted to code units below 256. *)
Definition space_char (c : ascii) : bool :=
  in_range 9 13 c || (code c =? 32)%nat || (code c =? 160)%nat.

(** Case folding of the [i] flag: only ASCII letters fold onto ASCII. *)
Definition fold_case (c : ascii) : ascii :=
  if is_upper c then ascii_of_nat (code c + 32) else c.

Definition sym_i (c : ascii) : regex :=
  Sym (fun x => (code (fold_case x) =? code (fold_case c))%nat).

Definition sym (c : ascii) : regex :=
  Sym (fun x => (code x =? code c)%nat).

(** A literal under the [i] flag. *)
Fixpoint lit_i (s : string) : regex :=
  match s with
  | EmptyString => Eps
  | String c s' => Cat (sym_i c) (lit_i s')
  end.

(** Every code unit of [s] is in the class [p]. *)
Fixpoint all_chars (p : ascii -> bool) (s : string) : bool :=
  match s with
  | EmptyString => true
  | String c s' => p c && all_chars p s'
  end.

(** Denotation. *)
Inductive lang : regex -> string -> Prop :=
| lang_eps : lang Eps ""
| lang_sym p c : p c = true -> lang (Sym p) (String c "")
| lang_cat r1 r2 s1 s2 :
    lang r1 s1 -> lang r2 s2 -> lang (Cat r1 r2) (s1 +:+ s2)
| lang_alt_l r1 r2 s : lang r1 s -> lang (Alt r1 r2) s
| lang_alt_r r1 r2 s : lang r2 s -> lang (Alt r1 r2) s
| lang_star_nil r : lang (Star r) ""
| lang_star_app r s1 s2 :
    lang r s1 -> lang (Star r) s2 -> lang (Star r) (s1 +:+ s2).

End Regex.

(** ** JavaScript values and strings *)
Module Js.

(** The values a header or a validated input can take: Node gives every
    header as a string, except [set-cookie], which is an array. *)
Inductive jsval : Type :=
| JString (s : string)
| JArray (l : list string).

(** Truthiness of a string: only the empty string is falsy. *)
Definition truthy (s : string) : bool :=
  match s with EmptyString => false | String _ _ => true end.

(** [String.prototype.toLowerCase] on code units below 256. *)
Definition lower_char (c : ascii) : ascii :=
  let n := nat_of_ascii c in
  if ((65 <=? n) && (n <=? 90))%nat then ascii_of_nat (n + 32)
  else if ((192 <=? n) && (n <=? 222) && negb (n =? 215))%nat
       then ascii_of_nat (n + 32)
  else c.

Fixpoint toLowerCase (s : string) : string :=
  match s with
  | EmptyString => EmptyString
  | String c s' => String (lower_char c) (toLowerCase s')
  end.

(** [Array.prototype.includes] on an array of strings. *)
Definition includes (l : list string) (s : string) : bool :=
  existsb (String.eqb s) l.

(** [s.startsWith(p)] *)
Definition startsWith (p s : string) : bool := String.prefix p s.

(** [s.substring(1)] *)
Definition substring1 (s : string) : string :=
  match s with EmptyString => EmptyString | String _ s' => s' end.

(** [o[key] = value] on an ordinary object, for a string [value]: the key
    [__proto__] reaches the prototype setter, which ignores a primitive,
    so no own property is created. *)
Definition set_property {V} (key : string) (value : V)
    (o : gmap string V) : gmap string V :=
  if String.eqb key "__proto__" then o else <[key := value]> o.

(** [a.slice(-n)]: the last [n] elements. *)
Definition slice_last {A} (n : nat) (a : list A) : list A :=
  skipn (length a - n) a.

End Js.

(** ** The input validator *)
Module Validator.
Import Regex Js.

(** [validator.isLength(str, {min, max})]; below code unit 256 there are
    neither surrogate pairs nor variation selectors to discount. *)
Definition isLength (str : string) (min max : nat) : bool :=
  (min <=? String.length str)%nat && (String.length str <=? max)%nat.

(** The class [[a-zA-Z0-9_-]]. *)
Definition slug_class (c : ascii) : bool :=
  is_lower c || is_upper c || is_digit c
  || (code c =? 95)%nat || (code c =? 45)%nat.

(** [/^[a-zA-Z0-9_-]+$/] *)
Definition slug_pattern : regex := Plus (Sym slug_class).

(** [validator.matches(str, pattern)] for an anchored pattern. *)
Definition matches_anchored (str : string) (pattern : regex) : bool :=
  test_anchored pattern str.

Definition validateSlug (slug : string) : bool :=
  isLength slug 1 50 && matches_anchored slug slug_pattern.

Definition dangerousPatterns : list regex :=
  [ lit_i "<script";
    lit_i "javascript:";
    Cat (lit_i "on") (Cat (Plus (Sym word_char))
                          (Cat (Star (Sym space_char)) (lit_i "=")));
    Cat (lit_i "eval") (Cat (Star (Sym space_char)) (lit_i "("));
    Cat (lit_i "expression") (Cat (Star (Sym space_char)) (lit_i "("));
    lit_i "vbscript:";
    lit_i "data:text/html" ].

Definition validateInput (input : jsval) : bool :=
  match input with
  | JString s => negb (existsb (fun pattern => test pattern s) dangerousPatterns)
  | JArray _ => false
  end.

Definition dangerousHeaders : list string :=
  [ "host"; "content-length"; "transfer-encoding"; "connection";
    "upgrade"; "proxy-connection"; "proxy-authenticate";
    "proxy-authorization"; "te"; "trailers" ].

Definition sanitizeHeaders (headers : gmap string jsval) : gmap string jsval :=
  map_fold (fun key value sanitized =>
              let lowerKey := toLowerCase key in
              if negb (includes dangerousHeaders lowerKey) && validateInput value
              then set_property key value sanitized
              else sanitized)
           ∅ headers.

(** What the loop of [sanitizeHeaders] does to one entry, in one test: the
    two conditions of its [if], and the assignment that the key
    [__proto__] turns into nothing. *)
Definition kept (key : string) (value : jsval) : bool :=
  negb (includes dangerousHeaders (toLowerCase key)) && validateInput value
  && negb (String.eqb key "__proto__").

End Validator.

(** ** A [Map] in insertion order

    [clients] and [pendingRequests] are JavaScript [Map]s, and the loops
    over their [entries()] visit them in insertion order. *)
Module JsMap.
Section JsMap.
Context {K V : Type} `{EqDecision K}.

Definition t : Type := list (K * V).

Fixpoint get (k : K) (m : t) : option V :=
  match m with
  | [] => None
  | (k', v) :: m' => if decide (k = k') then Some v else get k m'
  end.

(** [m.set(k, v)]: an existing key keeps its place, a new one goes last. *)
Fixpoint set (k : K) (v : V) (m : t) : t :=
  match m with
  | [] => [(k, v)]
  | (k', v') :: m' =>
      if decide (k = k') then (k, v) :: m' else (k', v') :: set k v m'
  end.

Fixpoint delete (k : K) (m : t) : t :=
  match m with
  | [] => []
  | (k', v') :: m' =>
      if decide (k = k') then m' else (k', v') :: delete k m'
  end.

Definition keys (m : t) : list K := fst <$> m.

End JsMap.
Arguments t : clear implicits.
End JsMap.

(** ** HTTP requests, reply sinks and control-channel frames *)
Module Http.
Import Js.

(** An [http.IncomingMessage]. [pathname] is what [new URL(req.url, ...)]
    parses out of the target; [chunks] are the ['data'] events of the body,
    each after [chunk.toString()], and [ends] tells whether the stream
    finishes with ['end'] or breaks with ['error']. *)
Record request : Type := mkRequest {
  method : string;
  url : string;
  pathname : string;
  headers : gmap string jsval;
  remoteAddress : string;
  chunks : list string;
  ends : bool
}.

(** What [res.end] is given: a text, or [JSON.stringify({ error })]. *)
Inductive body : Type :=
| Text (s : string)
| ErrorJson (error : string).

(** An [http.ServerResponse]: the [setHeader] calls so far, oldest first,
    and the status and body once [writeHead] and [end] have run. *)
Record sink_state : Type := mkSink {
  sent_headers : list (string * string);
  reply : option (Z * body)
}.

Definition fresh_sink : sink_state := mkSink [] None.

Definition headersSent (k : sink_state) : bool :=
  match reply k with Some _ => true | None => false end.

(** What Node's [setHeader] and [writeHead] accept; either throws on the
    rest. The proofs hold for every such pair of checks. *)
Class NodeHttp : Type := {
  setHeader_ok : string -> string -> bool;
  writeHead_ok : Z -> bool
}.

Section sink.
Context `{NodeHttp}.

(** [None] stands for a thrown exception. *)
Definition setHeader (key value : string) (k : sink_state) : option sink_state :=
  if headersSent k then None
  else if setHeader_ok key value
       then Some (mkSink (sent_headers k ++ [(key, value)]) (reply k))
       else None.

(** [res.writeHead(statusCode); res.end(data)] *)
Definition writeHead_end (statusCode : Z) (data : string) (k : sink_state)
  : option sink_state :=
  if headersSent k then None
  else if writeHead_ok statusCode
       then Some (mkSink (sent_headers k) (Some (statusCode, Text data)))
       else None.

End sink.

(** [res.writeHead(status, {'Content-Type': 'application/json'});
    res.end(JSON.stringify({ error }))] with one of the broker's own
    statuses. *)
Definition writeError (status : Z) (error : string) (k : sink_state) : sink_state :=
  mkSink (sent_headers k ++ [("Content-Type", "application/json")])
         (Some (status, ErrorJson error)).

(** The same under the guard [if (!res.headersSent)]. *)
Definition writeError_unless_sent (status : Z) (error : string)
    (k : sink_state) : sink_state :=
  if headersSent k then k else writeError status error k.

(** [getClientIP]: a header that is absent or empty falls through. *)
Definition header_string (req : request) (name : string) : string :=
  match headers req !! name with
  | Some (JString s) => s
  | _ => ""
  end.

Definition getClientIP (req : request) : string :=
  if truthy (header_string req "x-forwarded-for")
  then header_string req "x-forwarded-for"
  else if truthy (header_string req "x-real-ip")
  then header_string req "x-real-ip"
  else if truthy (remoteAddress req) then remoteAddress req
  else "unknown".

(** [req.headers.upgrade === 'websocket'] *)
Definition is_upgrade (req : request) : bool :=
  match headers req !! "upgrade" with
  | Some (JString s) => String.eqb s "websocket"
  | _ => false
  end.

End Http.

(** ** What Node checks

    [setHeader] wants a token for the name and a value without control
    characters; [writeHead] wants a status code between 100 and 999. This
    instance serves the worked examples; the theorems do not depend on
    it. *)
Module Node.
Import Regex Http.

(** [[\^_`a-zA-Z\-0-9!#$%&'*+.|~]] *)
Definition token_char (c : ascii) : bool :=
  is_lower c || is_upper c || is_digit c
  || existsb (fun n => (code c =? n)%nat)
             [33; 35; 36; 37; 38; 39; 42; 43; 45; 46; 94; 95; 96; 124; 126].

(** [[\t\x20-\x7e\x80-\xff]] *)
Definition value_char (c : ascii) : bool :=
  (code c =? 9)%nat || in_range 32 126 c || in_range 128 255 c.

#[export] Instance checks : NodeHttp :=
  {| setHeader_ok name value :=
       test_anchored (Plus (Sym token_char)) name
       && test_anchored (Star (Sym value_char)) value;
     writeHead_ok statusCode :=
       (100 <=? statusCode)%Z && (statusCode <=? 999)%Z |}.

End Node.

(** ** Configuration *)
Module Config.

Record securityConfig : Type := mkSecurity {
  maxConnectionsPerIP : nat;
  maxRequestsPerMinute : nat;
  maxRequestSize : Z;
  allowedOrigins : list string;
  slugWhitelist : list string;
  enableRateLimit : bool;
  enableCORS : bool
}.

(** The values of the constructor when the environment sets nothing. *)
Definition defaults : securityConfig :=
  {| maxConnectionsPerIP := 10;
     maxRequestsPerMinute := 100;
     maxRequestSize := (10 * 1024 * 1024)%Z;
     allowedOrigins := ["*"];
     slugWhitelist := [];
     enableRateLimit := true;
     enableCORS := true |}.

(** [memoryConfig] *)
Definition maxLogs : nat := 1000.
Definition logRetentionDays : Z := 7.
Definition statsRetentionDays : Z := 30.

End Config.

(** ** The rate-limit gate *)
Module RateLimit.
Import Js Http Config.

Record tracker : Type := mkTracker {
  requests : list Z;
  connections : list Z
}.

(** [timestamps.filter(timestamp => timestamp > minuteAgo)] *)
Definition recent (minuteAgo : Z) (timestamps : list Z) : list Z :=
  List.filter (fun timestamp => (minuteAgo <? timestamp)%Z) timestamps.

(** [checkRateLimit(clientIP, req)] at [Date.now() = now]: the verdict and
    the tracker as the call leaves it. *)
Definition checkRateLimit (cfg : securityConfig) (now : Z)
    (clientIP : string) (req : request)
    (rateLimitTracker : gmap string tracker) : bool * gmap string tracker :=
  let minuteAgo := (now - 60000)%Z in
  let tracker :=
    match rateLimitTracker !! clientIP with
    | Some tr => tr
    | None => mkTracker [] []
    end in
  let requests1 := recent minuteAgo (requests tracker) in
  if (maxRequestsPerMinute cfg <=? length requests1)%nat
  then (false, <[clientIP := mkTracker requests1 (connections tracker)]> rateLimitTracker)
  else
    let requests2 := requests1 ++ [now] in
    if is_upgrade req then
      let connections1 := recent minuteAgo (connections tracker) in
      if (maxConnectionsPerIP cfg <=? length connections1)%nat
      then (false, <[clientIP := mkTracker requests2 connections1]> rateLimitTracker)
      else (true, <[clientIP := mkTracker requests2 (connections1 ++ [now])]> rateLimitTracker)
    else (true, <[clientIP := mkTracker requests2 (connections tracker)]> rateLimitTracker).

(** The gate over a run of requests of one address: the verdicts in order. *)
Fixpoint gate_run (cfg : securityConfig) (clientIP : string)
    (arrivals : list (Z * request)) (rateLimitTracker : gmap string tracker)
  : list bool :=
  match arrivals with
  | [] => []
  | (now, req) :: rest =>
      let '(ok, rl) := checkRateLimit cfg now clientIP req rateLimitTracker in
      ok :: gate_run cfg clientIP rest rl
  end.

(** The timestamps the tracker holds for an address. *)
Definition requests_of (clientIP : string)
    (rateLimitTracker : gmap string tracker) : list Z :=
  match rateLimitTracker !! clientIP with
  | Some tr => requests tr
  | None => []
  end.

(** A request at [now] lies in the 60 s window that opens after [w]. *)
Definition in_window (w : Z) (now : Z) : Prop := (w < now <= w + 60000)%Z.

End RateLimit.

(** ** The broker *)
Module Broker.
Import Js Http Config Validator RateLimit.

(** A control-channel session is a [ws] object, a reply sink an
    [http.ServerResponse]; both are known by identity. The [n]-th call of
    [uuidv4()] is the identifier [n]: distinct calls, distinct ids. *)
Definition session : Type := nat.
Definition sink : Type := nat.
Definition reqid : Type := nat.

(** [readyState] of a socket *)
Definition CONNECTING : nat := 0.
Definition OPEN : nat := 1.
Definition CLOSING : nat := 2.
Definition CLOSED : nat := 3.

(** Which [setTimeout] a pending record holds: the 30 s wait for a handler
    of [handleRequestWithoutClient], or the 150 s wait for the response of
    [handleRequestWithClient]. *)
Inductive timer : Type :=
| QueueWait
| ForwardDeadline.

(** An entry of [pendingRequests]. A queued record keeps [req] and has no
    [startTime]; a forwarded one has [startTime] and no [req]. *)
Record pending : Type := mkPending {
  p_res : sink;
  p_timeout : timer;
  p_slug : string;
  p_req : option request;
  p_timestamp : Z;
  p_startTime : option Z
}.

(** What [collectRequestData] resolves to. *)
Record captured : Type := mkCaptured {
  c_method : string;
  c_url : string;
  c_headers : gmap string jsval;
  c_body : string
}.

Inductive capture_error : Type :=
| BodyTooLarge           (* 'Request body too large' *)
| InvalidMethodOrUrl     (* 'Invalid request method or URL' *)
| StreamError            (* the 'error' event of the request *)
| NotARequest.           (* TypeError: [req] is undefined *)

(** The [response] field of a response frame; a missing field is [None]. *)
Record response : Type := mkResponse {
  statusCode : option Z;
  r_headers : option (list (string * string));
  r_body : option string
}.

(** A parsed ingress frame. *)
Record message : Type := mkMessage {
  m_type : option string;
  m_slug : option string;
  m_requestId : option reqid;
  m_response : option response
}.

(** Egress frames to handler sessions. *)
Inductive frame : Type :=
| Registered (slug : string)
| Forwarded (slug : string) (requestId : reqid) (request : captured)
| ErrorHint (error : string).

Inductive level : Type := LHttp | LWs | LSecurity | LServer | LError.

(** The messages [addLog] is called with. *)
Inductive log_message : Type :=
| RateLimitExceeded (ip : string)
| InvalidSlugAttempt (slug ip : string)
| UnauthorizedSlugAttempt (slug ip : string)
| HandlingRequest (requestId : reqid) (slug : string)
| SentRequest (requestId : reqid) (slug : string)
| SendError (requestId : reqid)
| RequestTimedOut (requestId : reqid)
| HandlingError (requestId : reqid) (slug : string) (e : capture_error)
| NoPendingRequest (requestId : reqid)
| ProcessingResponse (requestId : reqid) (slug : string)
| ResponseSent (requestId : reqid) (statusCode : Z)
| ResponseError (requestId : reqid)
| MemoryCleanup (cleaned : nat).

Record log_entry : Type := mkLog {
  log_time : Z;
  log_level : level;
  log_text : log_message
}.

(** A call of [handleRequestWithClient] suspended at
    [await this.collectRequestData(req)], with the variables it closes
    over. *)
Record task : Type := mkTask {
  t_startTime : Z;
  t_req : option request;
  t_res : sink;
  t_slug : string;
  t_client : session
}.

Record statistics : Type := mkStats {
  totalRequests : nat;
  successfulResponses : nat;
  failedResponses : nat;
  responseTimes : list (option Z);
  hourlyStats : list Z;
  dailyStats : list Z
}.

(** The server object, and with it the part of its surroundings the
    handlers read and write: the suspended calls in the order they were
    suspended, reply sinks, sockets and the frames sent. *)
Record state : Type := mkState {
  clients : JsMap.t string session;
  pendingRequests : JsMap.t reqid pending;
  stats : statistics;
  logs : list log_entry;
  statusClients : gset session;
  rateLimitTracker : gmap string tracker;
  capturing : list (reqid * task);
  sinks : gmap sink sink_state;
  sockets : gmap session nat;
  outbox : list (session * frame);
  next_requestId : reqid;
  next_sink : sink
}.

Definition init : state :=
  {| clients := []; pendingRequests := [];
     stats := mkStats 0 0 0 [] [] [];
     logs := []; statusClients := ∅; rateLimitTracker := ∅;
     capturing := []; sinks := ∅; sockets := ∅; outbox := [];
     next_requestId := 0; next_sink := 0 |}.

(** Field updates. *)
Definition with_clients (v : JsMap.t string session) (s : state) : state :=
  mkState v (pendingRequests s) (stats s) (logs s) (statusClients s) (rateLimitTracker s) (capturing s) (sinks s) (sockets s) (outbox s) (next_requestId s) (next_sink s).
Definition with_pendingRequests (v : JsMap.t reqid pending) (s : state) : state :=
  mkState (clients s) v (stats s) (logs s) (statusClients s) (rateLimitTracker s) (capturing s) (sinks s) (sockets s) (outbox s) (next_requestId s) (next_sink s).
Definition with_stats (v : statistics) (s : state) : state :=
  mkState (clients s) (pendingRequests s) v (logs s) (statusClients s) (rateLimitTracker s) (capturing s) (sinks s) (sockets s) (outbox s) (next_requestId s) (next_sink s).
Definition with_logs (v : list log_entry) (s : state) : state :=
  mkState (clients s) (pendingRequests s) (stats s) v (statusClients s) (rateLimitTracker s) (capturing s) (sinks s) (sockets s) (outbox s) (next_requestId s) (next_sink s).
Definition with_statusClients (v : gset session) (s : state) : state :=
  mkState (clients s) (pendingRequests s) (stats s) (logs s) v (rateLimitTracker s) (capturing s) (sinks s) (sockets s) (outbox s) (next_requestId s) (next_sink s).
Definition with_rateLimitTracker (v : gmap string tracker) (s : state) : state :=
  mkState (clients s) (pendingRequests s) (stats s) (logs s) (statusClients s) v (capturing s) (sinks s) (sockets s) (outbox s) (next_requestId s) (next_sink s).
Definition with_capturing (v : list (reqid * task)) (s : state) : state :=
  mkState (clients s) (pendingRequests s) (stats s) (logs s) (statusClients s) (rateLimitTracker s) v (sinks s) (sockets s) (outbox s) (next_requestId s) (next_sink s).
Definition with_sinks (v : gmap sink sink_state) (s : state) : state :=
  mkState (clients s) (pendingRequests s) (stats s) (logs s) (statusClients s) (rateLimitTracker s) (capturing s) v (sockets s) (outbox s) (next_requestId s) (next_sink s).
Definition with_sockets (v : gmap session nat) (s : state) : state :=
  mkState (clients s) (pendingRequests s) (stats s) (logs s) (statusClients s) (rateLimitTracker s) (capturing s) (sinks s) v (outbox s) (next_requestId s) (next_sink s).
Definition with_outbox (v : list (session * frame)) (s : state) : state :=
  mkState (clients s) (pendingRequests s) (stats s) (logs s) (statusClients s) (rateLimitTracker s) (capturing s) (sinks s) (sockets s) v (next_requestId s) (next_sink s).
Definition with_next_requestId (v : reqid) (s : state) : state :=
  mkState (clients s) (pendingRequests s) (stats s) (logs s) (statusClients s) (rateLimitTracker s) (capturing s) (sinks s) (sockets s) (outbox s) v (next_sink s).
Definition with_next_sink (v : sink) (s : state) : state :=
  mkState (clients s) (pendingRequests s) (stats s) (logs s) (statusClients s) (rateLimitTracker s) (capturing s) (sinks s) (sockets s) (outbox s) (next_requestId s) v.

Definition incTotal (st : statistics) : statistics :=
  mkStats (S (totalRequests st)) (successfulResponses st) (failedResponses st)
          (responseTimes st) (hourlyStats st) (dailyStats st).

Definition incSucceeded (st : statistics) : statistics :=
  mkStats (totalRequests st) (S (successfulResponses st)) (failedResponses st)
          (responseTimes st) (hourlyStats st) (dailyStats st).

Definition incFailed (st : statistics) : statistics :=
  mkStats (totalRequests st) (successfulResponses st) (S (failedResponses st))
          (responseTimes st) (hourlyStats st) (dailyStats st).

(** [responseTimes.push(t)], then only the last 100 are kept. *)
Definition pushResponseTime (t : option Z) (st : statistics) : statistics :=
  let times := responseTimes st ++ [t] in
  mkStats (totalRequests st) (successfulResponses st) (failedResponses st)
          (if (100 <? length times)%nat then slice_last 100 times else times)
          (hourlyStats st) (dailyStats st).

Definition readyState (s : state) (ws : session) : nat :=
  default CLOSED (sockets s !! ws).

Definition sink_of (s : state) (res : sink) : sink_state :=
  default fresh_sink (sinks s !! res).

Definition put_sink (res : sink) (k : sink_state) (s : state) : state :=
  with_sinks (<[res := k]> (sinks s)) s.

Definition replyError (status : Z) (error : string) (res : sink) (s : state) : state :=
  put_sink res (writeError status error (sink_of s res)) s.

Definition replyError_unless_sent (status : Z) (error : string) (res : sink)
    (s : state) : state :=
  put_sink res (writeError_unless_sent status error (sink_of s res)) s.

(** [ws.send(JSON.stringify(frame))] *)
Definition send (ws : session) (f : frame) (s : state) : state :=
  with_outbox (outbox s ++ [(ws, f)]) s.

(** [ws.close(...)]: the socket leaves the OPEN state at once; its
    ['close'] event comes later. *)
Definition close (ws : session) (s : state) : state :=
  with_sockets (<[ws := CLOSING]> (sockets s)) s.

(** [broadcastToStatusClients]: a dashboard session that is not OPEN is
    dropped from the set (the frames themselves are not recorded). *)
Definition broadcastToStatusClients (s : state) : state :=
  with_statusClients (filter (fun ws => readyState s ws = OPEN) (statusClients s)) s.

Definition addLog (now : Z) (text : log_message) (lv : level) (s : state) : state :=
  let logs1 := logs s ++ [mkLog now lv text] in
  let logs2 := if (maxLogs <? length logs1)%nat
               then slice_last maxLogs logs1 else logs1 in
  broadcastToStatusClients (with_logs logs2 s).

Definition dquote : string := String (ascii_of_nat 34) EmptyString.

(** 'The slug "status" is reserved for the server status page' *)
Definition reserved_error : string :=
  "The slug " +:+ dquote +:+ "status" +:+ dquote
  +:+ " is reserved for the server status page".

(** [applySecurityHeaders(res)] *)
Definition applySecurityHeaders (cfg : securityConfig) (k : sink_state) : sink_state :=
  let fixed :=
    [ ("X-Content-Type-Options", "nosniff");
      ("X-Frame-Options", "DENY");
      ("X-XSS-Protection", "1; mode=block");
      ("Referrer-Policy", "strict-origin-when-cross-origin");
      ("Permissions-Policy", "geolocation=(), microphone=(), camera=()") ] in
  let cors :=
    if enableCORS cfg then
      [ ("Access-Control-Allow-Origin",
         if includes (allowedOrigins cfg) "*" then "*"
         else String.concat ", " (allowedOrigins cfg));
        ("Access-Control-Allow-Methods", "GET, POST, PUT, DELETE, OPTIONS");
        ("Access-Control-Allow-Headers", "Content-Type, Authorization") ]
    else [] in
  mkSink (sent_headers k ++ fixed ++ cors) (reply k).

(** Where the request handler of [setupHttpServer] sends a path. *)
Inductive route : Type :=
| ToLogin
| ToStatusPage
| ToApi
| NoSlug
| InvalidSlug (slug : string)
| ReservedSlug
| NotWhitelisted (slug : string)
| ToSlug (slug : string).

Definition routeOf (cfg : securityConfig) (pathname : string) : route :=
  if String.eqb pathname "/auth/login" then ToLogin
  else if String.eqb pathname "/status" then ToStatusPage
  else if startsWith "/api/" pathname then ToApi
  else
    let slug := substring1 pathname in
    if negb (truthy slug) then NoSlug
    else if negb (validateSlug slug) then InvalidSlug slug
    else if String.eqb slug "status" then ReservedSlug
    else if (0 <? length (slugWhitelist cfg))%nat
            && negb (includes (slugWhitelist cfg) slug)
    then NotWhitelisted slug
    else ToSlug slug.

(** The ['data'] handler of [collectRequestData]: [body += chunk], and the
    promise is rejected at the first chunk that takes the body over the
    limit. [None] is that rejection. *)
Fixpoint accumulate (max : Z) (body : string) (chunks : list string)
  : option string :=
  match chunks with
  | [] => Some body
  | chunk :: rest =>
      let body' := body +:+ chunk in
      if (max <? Z.of_nat (String.length body'))%Z then None
      else accumulate max body' rest
  end.

(** The size of a body that arrives in [chunks]. *)
Definition body_size (chunks : list string) : nat :=
  foldr (fun chunk n => (String.length chunk + n)%nat) 0%nat chunks.

Definition collectRequestData (cfg : securityConfig) (req : option request)
  : captured + capture_error :=
  match req with
  | None => inr NotARequest
  | Some req =>
      match accumulate (maxRequestSize cfg) "" (chunks req) with
      | None => inr BodyTooLarge
      | Some body =>
          if ends req then
            if negb (validateInput (JString (method req)))
               || negb (validateInput (JString (url req)))
            then inr InvalidMethodOrUrl
            else inl (mkCaptured (method req) (url req)
                                 (sanitizeHeaders (headers req)) body)
          else inr StreamError
      end
  end.

(** [handleRequestWithClient] up to its [await]: the capture is started
    and the call is suspended. *)
Definition handleRequestWithClient (now : Z) (req : option request)
    (res : sink) (slug : string) (client : session) (s : state) : state :=
  let requestId := next_requestId s in
  let s := with_next_requestId (S requestId) s in
  let s := addLog now (HandlingRequest requestId slug) LHttp s in
  let s := with_stats (incTotal (stats s)) s in
  with_capturing (capturing s ++ [(requestId, mkTask now req res slug client)]) s.

(** [handleRequestWithClient] from its [await] on, once the capture of
    call [requestId] has settled; [send_ok] tells whether [client.send]
    returns or throws. *)
Definition handleRequestWithClient_resume (cfg : securityConfig) (now : Z)
    (requestId : reqid) (send_ok : bool) (s : state) : state :=
  match JsMap.get requestId (capturing s) with
  | None => s
  | Some t =>
      let s := with_capturing (JsMap.delete requestId (capturing s)) s in
      match collectRequestData cfg (t_req t) with
      | inr e =>
          let s := addLog now (HandlingError requestId (t_slug t) e) LError s in
          let s := with_stats (incFailed (stats s)) s in
          replyError_unless_sent 500 "Internal server error" (t_res t) s
      | inl requestData =>
          if send_ok then
            let s := send (t_client t) (Forwarded (t_slug t) requestId requestData) s in
            let s := addLog now (SentRequest requestId (t_slug t)) LWs s in
            with_pendingRequests
              (JsMap.set requestId
                 (mkPending (t_res t) ForwardDeadline (t_slug t) None now
                            (Some (t_startTime t)))
                 (pendingRequests s)) s
          else
            let s := addLog now (SendError requestId) LError s in
            let s := with_stats (incFailed (stats s)) s in
            replyError_unless_sent 500 "Failed to send request to WebSocket client"
                                   (t_res t) s
      end
  end.

Definition handleRequestWithoutClient (now : Z) (req : request) (res : sink)
    (slug : string) (s : state) : state :=
  let requestId := next_requestId s in
  let s := with_next_requestId (S requestId) s in
  with_pendingRequests
    (JsMap.set requestId (mkPending res QueueWait slug (Some req) now None)
               (pendingRequests s)) s.

(** The callback of the record's [setTimeout]; a cleared timer never
    fires, and every path that deletes a record clears its timer. *)
Definition onTimeout (now : Z) (requestId : reqid) (s : state) : state :=
  match JsMap.get requestId (pendingRequests s) with
  | None => s
  | Some requestData =>
      match p_timeout requestData with
      | ForwardDeadline =>
          let s := addLog now (RequestTimedOut requestId) LError s in
          let s := with_stats (incFailed (stats s)) s in
          let s := replyError_unless_sent 504 "Request timeout" (p_res requestData) s in
          with_pendingRequests (JsMap.delete requestId (pendingRequests s)) s
      | QueueWait =>
          let s := replyError_unless_sent
                     504 "No WebSocket client connected within timeout"
                     (p_res requestData) s in
          with_pendingRequests (JsMap.delete requestId (pendingRequests s)) s
      end
  end.

(** The loop of [rejectPendingRequestsForSlug] over the entries. *)
Definition rejectPendingRequestsForSlug (slug : string) (s : state) : state :=
  fold_left
    (fun s '(requestId, requestData) =>
       if String.eqb (p_slug requestData) slug then
         let s := replyError_unless_sent
                    503 "No active WebSocket client for this slug"
                    (p_res requestData) s in
         with_pendingRequests (JsMap.delete requestId (pendingRequests s)) s
       else s)
    (pendingRequests s) s.

(** The loop of [processPendingRequestsForSlug]. A call of the [async]
    [handleRequestWithClient] never throws into the loop, so its [catch]
    is not reached. *)
Definition processPendingRequestsForSlug (now : Z) (slug : string)
    (client : session) (s : state) : state :=
  fold_left
    (fun s '(requestId, requestData) =>
       if String.eqb (p_slug requestData) slug then
         let s := handleRequestWithClient now (p_req requestData)
                    (p_res requestData) slug client s in
         with_pendingRequests (JsMap.delete requestId (pendingRequests s)) s
       else s)
    (pendingRequests s) s.

Definition registerClient (now : Z) (ws : session) (slug : string)
    (s : state) : state :=
  let s :=
    match JsMap.get slug (clients s) with
    | Some existingClient =>
        if (readyState s existingClient =? OPEN)%nat
        then close existingClient s else s
    | None => s
    end in
  let s := with_clients (JsMap.set slug ws (clients s)) s in
  let s := processPendingRequestsForSlug now slug ws s in
  send ws (Registered slug) s.

Definition removeClient (ws : session) (s : state) : state :=
  if decide (ws ∈ statusClients s)
  then with_statusClients (statusClients s ∖ {[ws]}) s
  else
    match List.find (fun '(_, client) => (client =? ws)%nat) (clients s) with
    | Some (slug, _) =>
        let s := with_clients (JsMap.delete slug (clients s)) s in
        rejectPendingRequestsForSlug slug s
    | None => s
    end.

Section with_node.
Context `{NodeHttp}.

(** [Object.entries(response.headers).forEach(...)]: the sink after the
    calls that returned, and whether all of them did. *)
Fixpoint setHeaders (entries : list (string * string)) (k : sink_state)
  : sink_state * bool :=
  match entries with
  | [] => (k, true)
  | (key, value) :: rest =>
      match setHeader key value k with
      | Some k' => setHeaders rest k'
      | None => (k, false)
      end
  end.

(** [response.statusCode || 200] *)
Definition statusCode_or_200 (response : response) : Z :=
  match statusCode response with
  | Some c => if (c =? 0)%Z then 200%Z else c
  | None => 200%Z
  end.

(** [response.body || ''] *)
Definition body_or_empty (response : response) : string :=
  default "" (r_body response).

Definition handleClientResponse (now : Z) (slug : string) (requestId : reqid)
    (response : response) (s : state) : state :=
  match JsMap.get requestId (pendingRequests s) with
  | None => addLog now (NoPendingRequest requestId) LError s
  | Some pendingRequest =>
      let s := addLog now (ProcessingResponse requestId slug) LWs s in
      let responseTime := (fun t => now - t)%Z <$> p_startTime pendingRequest in
      let s := with_stats (pushResponseTime responseTime (stats s)) s in
      let s := with_pendingRequests (JsMap.delete requestId (pendingRequests s)) s in
      let res := p_res pendingRequest in
      let failed (k : sink_state) (s : state) :=
        let s := put_sink res k s in
        let s := addLog now (ResponseError requestId) LError s in
        let s := with_stats (incFailed (stats s)) s in
        replyError_unless_sent 500 "Failed to send response" res s in
      let statusCode := statusCode_or_200 response in
      match setHeaders (default [] (r_headers response)) (sink_of s res) with
      | (k1, true) =>
          match writeHead_end statusCode (body_or_empty response) k1 with
          | Some k2 =>
              let s := put_sink res k2 s in
              let s := addLog now (ResponseSent requestId statusCode) LHttp s in
              with_stats (incSucceeded (stats s)) s
          | None => failed k1 s
          end
      | (k1, false) => failed k1 s
      end
  end.

Definition handleWebSocketMessage (now : Z) (ws : session) (m : message)
    (s : state) : state :=
  if bool_decide (m_type m = Some "status-client")
  then with_statusClients ({[ws]} ∪ statusClients s) s
  else
    match m_slug m, m_requestId m, m_response m with
    | Some slug, None, _ =>
        if truthy slug then
          if String.eqb slug "status"
          then send ws (ErrorHint reserved_error) s
          else registerClient now ws slug s
        else send ws (ErrorHint "Invalid message format") s
    | Some slug, Some requestId, Some response =>
        if truthy slug
        then handleClientResponse now slug requestId response s
        else send ws (ErrorHint "Invalid message format") s
    | _, _, _ => send ws (ErrorHint "Invalid message format") s
    end.

End with_node.

(** [performMemoryCleanup] at [Date.now() = now]. The keys of the hourly
    and daily maps are kept as the instants they denote. *)
Definition performMemoryCleanup (now : Z) (s : state) : state :=
  let logCutoff := (now - logRetentionDays * 24 * 60 * 60 * 1000)%Z in
  let originalLogCount := length (logs s) in
  let logs1 := List.filter (fun log => (logCutoff <? log_time log)%Z) (logs s) in
  let cleaned := (originalLogCount - length logs1)%nat in
  let hourlyCutoff := (now - statsRetentionDays * 24 * 60 * 60 * 1000)%Z in
  let hourly1 := List.filter (fun hour => negb (hour <? hourlyCutoff)%Z)
                             (hourlyStats (stats s)) in
  let cleaned := (cleaned + (length (hourlyStats (stats s)) - length hourly1))%nat in
  let daily1 := List.filter (fun date => negb (date <? hourlyCutoff)%Z)
                            (dailyStats (stats s)) in
  let cleaned := (cleaned + (length (dailyStats (stats s)) - length daily1))%nat in
  let originalStatusClients := size (statusClients s) in
  let status1 := filter (fun ws => readyState s ws = OPEN) (statusClients s) in
  let cleaned := (cleaned + (originalStatusClients - size status1))%nat in
  let staleCutoff := (now - 300000)%Z in
  let stale := List.filter (fun '(_, requestData) =>
                              (p_timestamp requestData <? staleCutoff)%Z)
                           (pendingRequests s) in
  let pending1 := List.filter (fun '(_, requestData) =>
                                 negb (p_timestamp requestData <? staleCutoff)%Z)
                              (pendingRequests s) in
  let cleaned := (cleaned + length stale)%nat in
  let st := stats s in
  let s := with_logs logs1 s in
  let s := with_stats (mkStats (totalRequests st) (successfulResponses st)
                               (failedResponses st) (responseTimes st)
                               hourly1 daily1) s in
  let s := with_statusClients status1 s in
  let s := with_pendingRequests pending1 s in
  if (0 <? cleaned)%nat then addLog now (MemoryCleanup cleaned) LServer s else s.

Section with_node.
Context `{NodeHttp} (cfg : securityConfig).

(** The request listener of [setupHttpServer]. The login, dashboard and
    API endpoints are collaborators of the broker; their replies are left
    out. *)
Definition onRequest (now : Z) (req : request) (s : state) : state :=
  let res := next_sink s in
  let s := with_next_sink (S res) s in
  let clientIP := getClientIP req in
  let s := put_sink res (applySecurityHeaders cfg fresh_sink) s in
  let '(limited, s) :=
    if enableRateLimit cfg then
      let '(ok, rl) := checkRateLimit cfg now clientIP req (rateLimitTracker s) in
      (negb ok, with_rateLimitTracker rl s)
    else (false, s) in
  if limited then
    let s := addLog now (RateLimitExceeded clientIP) LSecurity s in
    replyError 429 "Rate limit exceeded" res s
  else
    match routeOf cfg (pathname req) with
    | ToLogin | ToStatusPage | ToApi => s
    | NoSlug => replyError 400 "Slug required" res s
    | InvalidSlug slug =>
        let s := addLog now (InvalidSlugAttempt slug clientIP) LSecurity s in
        replyError 400 "Invalid slug format" res s
    | ReservedSlug => replyError 400 reserved_error res s
    | NotWhitelisted slug =>
        let s := addLog now (UnauthorizedSlugAttempt slug clientIP) LSecurity s in
        replyError 403 "Slug not authorized" res s
    | ToSlug slug =>
        match JsMap.get slug (clients s) with
        | Some client =>
            if (readyState s client =? OPEN)%nat
            then handleRequestWithClient now (Some req) res slug client s
            else handleRequestWithoutClient now req res slug s
        | None => handleRequestWithoutClient now req res slug s
        end
    end.

(** The state in which [onRequest] routes a request: the reply sink
    exists with the security headers set, and the gate has counted the
    request. *)
Definition after_gate (now : Z) (req : request) (s : state) : state :=
  let res := next_sink s in
  let s := with_next_sink (S res) s in
  let s := put_sink res (applySecurityHeaders cfg fresh_sink) s in
  if enableRateLimit cfg then
    with_rateLimitTracker
      (snd (checkRateLimit cfg now (getClientIP req) req (rateLimitTracker s))) s
  else s.

(** The verdict of the gate at the head of [onRequest]. *)
Definition gate_admits (now : Z) (req : request) (s : state) : bool :=
  if enableRateLimit cfg
  then fst (checkRateLimit cfg now (getClientIP req) req (rateLimitTracker s))
  else true.

(** One callback of the event loop. *)
Inductive event : Type :=
| Request (now : Z) (req : request)
    (* an HTTP request reaches the listener *)
| Captured (now : Z) (requestId : reqid) (send_ok : bool)
    (* the capture of a suspended call settles *)
| Connected (ws : session)
    (* ['connection'] on the WebSocket server *)
| ReadyState (ws : session) (st : nat)
    (* the peer or the network changes a socket's state *)
| Message (now : Z) (ws : session) (m : message)
    (* ['message'] with a frame that parses *)
| BadJson (ws : session)
    (* ['message'] with a frame that does not parse *)
| Closed (ws : session)
    (* ['close'] or ['error'] on a socket *)
| Timeout (now : Z) (requestId : reqid)
    (* the timer of a pending record fires *)
| Cleanup (now : Z).
    (* the 60 s interval of [setupMemoryManagement] *)

Definition step (s : state) (e : event) : state :=
  match e with
  | Request now req => onRequest now req s
  | Captured now requestId send_ok =>
      handleRequestWithClient_resume cfg now requestId send_ok s
  | Connected ws => with_sockets (<[ws := OPEN]> (sockets s)) s
  | ReadyState ws st => with_sockets (<[ws := st]> (sockets s)) s
  | Message now ws m => handleWebSocketMessage now ws m s
  | BadJson ws => send ws (ErrorHint "Invalid JSON") s
  | Closed ws => removeClient ws (with_sockets (<[ws := CLOSED]> (sockets s)) s)
  | Timeout now requestId => onTimeout now requestId s
  | Cleanup now => performMemoryCleanup now s
  end.

Definition run (s : state) (trace : list event) : state :=
  fold_left step trace s.

(** Every state the server can be in: [init] after any run of events. *)
Definition reachable (s : state) : Prop :=
  exists trace : list event, s = run init trace.

End with_node.

(** *** Bookkeeping for the proofs *)

(** The test [requestData.slug === slug] of the two loops. *)
Definition has_slug (slug : string) (e : reqid * pending) : bool :=
  String.eqb (p_slug e.2) slug.

(** The calls that a drain suspends for the entries [l]: one per entry, in
    order, under the ids that [uuidv4] hands out from [first] on. *)
Definition suspended (now : Z) (slug : string) (client : session)
    (first : reqid) (l : list (reqid * pending)) : list (reqid * task) :=
  imap (fun i e => ((first + i)%nat,
                    mkTask now (p_req e.2) (p_res e.2) slug client)) l.

Definition is_forwarded (requestData : pending) : bool :=
  match p_timeout requestData with
  | ForwardDeadline => true
  | QueueWait => false
  end.

(** The request ids and the reply sinks held by the pending records and by
    the suspended calls. *)
Definition ids (s : state) : list reqid :=
  JsMap.keys (pendingRequests s) ++ JsMap.keys (capturing s).

Definition refs (s : state) : list sink :=
  ((fun e => p_res e.2) <$> pendingRequests s)
  ++ ((fun e => t_res e.2) <$> capturing s).

(** Ids and sinks are handed out once, from the two counters, and a sink
    that is still held has not been written. *)
Record wf (s : state) : Prop := mkWf {
  wf_ids : NoDup (ids s);
  wf_ids_bound : Forall (fun k => (k < next_requestId s)%nat) (ids s);
  wf_refs : NoDup (refs s);
  wf_refs_bound : Forall (fun r => (r < next_sink s)%nat) (refs s);
  wf_unsent : Forall (fun r => headersSent (sink_of s r) = false) (refs s)
}.

(** *** Bookkeeping for the counters *)

(** The pending records that have been forwarded to a handler. *)
Definition forwarded_in (l : list (reqid * pending)) : nat :=
  length (List.filter (fun e => is_forwarded e.2) l).

Definition forwardedCount (s : state) : nat := forwarded_in (pendingRequests s).

(** Those among them that [sel] selects. *)
Definition forwarded_among (sel : reqid * pending -> bool) (s : state) : nat :=
  forwarded_in (List.filter sel (pendingRequests s)).

(** The ingress frames, as [handleWebSocketMessage] tells them apart. *)
Inductive ingress : Type :=
| AttachDashboard
| Register (slug : string)
| RegisterReserved
| Respond (slug : string) (requestId : reqid) (response : response)
| Malformed.

Definition classify (m : message) : ingress :=
  if bool_decide (m_type m = Some "status-client") then AttachDashboard
  else
    match m_slug m, m_requestId m, m_response m with
    | Some slug, None, _ =>
        if truthy slug
        then if String.eqb slug "status" then RegisterReserved else Register slug
        else Malformed
    | Some slug, Some requestId, Some response =>
        if truthy slug then Respond slug requestId response else Malformed
    | _, _, _ => Malformed
    end.

(** The forwarded records that a callback removes without moving a
    counter: those of the slug on a session loss and on a registration,
    the stale ones on a cleanup. *)
Definition dropped (s : state) (e : event) : nat :=
  match e with
  | Message _ _ m =>
      match classify m with
      | Register slug => forwarded_among (has_slug slug) s
      | _ => 0%nat
      end
  | Closed ws =>
      if decide (ws ∈ statusClients s) then 0%nat
      else
        match List.find (fun '(_, client) => (client =? ws)%nat) (clients s) with
        | Some (slug, _) => forwarded_among (has_slug slug) s
        | None => 0%nat
        end
  | Cleanup now =>
      forwarded_among (fun e => (p_timestamp e.2 <? now - 300000)%Z) s
  | _ => 0%nat
  end.

(** A response that is taken for a record which was never forwarded. *)
Definition answered_unforwarded (s : state) (e : event) : nat :=
  match e with
  | Message _ _ m =>
      match classify m with
      | Respond _ requestId _ =>
          match JsMap.get requestId (pendingRequests s) with
          | Some requestData => if is_forwarded requestData then 0%nat else 1%nat
          | None => 0%nat
          end
      | _ => 0%nat
      end
  | _ => 0%nat
  end.

(** The requests that have been taken up and are either settled in a
    counter or still on their way: in capture, or forwarded and waiting. *)
Definition accounted (s : state) : nat :=
  (successfulResponses (stats s) + failedResponses (stats s)
   + forwardedCount s + length (capturing s))%nat.

(** The sum of [f] over the callbacks of a run, each in the state it
    runs in. *)
Fixpoint tally `{NodeHttp} (cfg : securityConfig) (f : state -> event -> nat)
    (s : state) (trace : list event) : nat :=
  match trace with
  | [] => 0%nat
  | e :: rest => (f s e + tally cfg f (step cfg s e) rest)%nat
  end.

(** What one callback may do to the ids and the sinks held: drop some, and
    add ids and sinks taken from the two counters; of the sinks handed out
    so far it writes only those it drops ([gone]), and a sink it adds is
    unwritten. *)
Inductive evolves (s s' : state) : Prop :=
| Evolves (newi : list reqid) (news gone : list sink) :
    ids s' ⊆+ newi ++ ids s ->
    NoDup newi ->
    Forall (fun k => (next_requestId s <= k < next_requestId s')%nat) newi ->
    (next_requestId s <= next_requestId s')%nat ->
    refs s' ++ gone ⊆+ news ++ refs s ->
    NoDup news ->
    Forall (fun r => (next_sink s <= r < next_sink s')%nat) news ->
    (next_sink s <= next_sink s')%nat ->
    (forall r, (r < next_sink s)%nat -> r ∉ gone -> sink_of s' r = sink_of s r) ->
    (forall r, r ∈ news -> r ∈ refs s' -> headersSent (sink_of s' r) = false) ->
    evolves s s'.

(** A sink that was handed out and is held by no record and no call. *)
Definition orphan (r : sink) (s : state) : Prop :=
  (r < next_sink s)%nat /\ r ∉ refs s.

End Broker.

(** ** The login endpoint *)
Module Login.
Import Js Http Config Broker.

(** What [handleLogin] passes to [addLog], at level [security]. *)
Inductive login_note : Type :=
| LoginSuccessful (ip : string)   (* 'Admin login successful from IP: ...' *)
| LoginFailed (ip : string).      (* 'Failed admin login attempt from IP: ...' *)

(** How the handling of one login request ends: with the reply as its
    handlers leave it and the note logged, if any; or with an exception
    that leaves a handler of the request stream, which the process
    answers with [process.exit(1)]. *)
Inductive outcome : Type :=
| Settled (k : sink_state) (note : option login_note)
| Uncaught.

(** The ['data'] handler between two chunks: the body so far and the
    reply, or the exception that has left it. *)
Inductive progress : Type :=
| Reading (body : string) (k : sink_state)
| Thrown.

(** The ['data'] handler: [res.writeHead] throws once the reply has been
    written. *)
Definition on_data (max : Z) (p : progress) (chunk : string) : progress :=
  match p with
  | Thrown => Thrown
  | Reading body k =>
      let body := body +:+ chunk in
      if (max <? Z.of_nat (String.length body))%Z then
        if headersSent k then Thrown
        else Reading body (writeError 413 "Request too large" k)
      else Reading body k
  end.

Section login.

(** [JSON.parse(body)] with the destructuring [const { password } = ...]:
    [None] when one of them throws, else the field [password] when it is
    a string. *)
Variable parse_password : string -> option (option string).

(** [JSON.stringify({ token, expiresIn })] for the token that [jwt.sign]
    makes at [Date.now() = now]. *)
Variable token_reply : Z -> string.

Variable adminPassword : string.

(** The ['end'] handler, with its [try] and [catch]: once the reply has
    been written, the [writeHead] of the [try] throws, or [JSON.parse]
    does, and then the [writeHead] of the [catch] throws. *)
Definition on_end (now : Z) (ip : string) (p : progress) : outcome :=
  match p with
  | Thrown => Uncaught
  | Reading body k =>
      if headersSent k then Uncaught
      else
        match parse_password body with
        | None => Settled (writeError 400 "Invalid request format" k) None
        | Some password =>
            if bool_decide (password = Some adminPassword)
            then Settled
                   (mkSink (sent_headers k ++ [("Content-Type", "application/json")])
                           (Some (200%Z, Text (token_reply now))))
                   (Some (LoginSuccessful ip))
            else Settled (writeError 401 "Invalid credentials" k)
                         (Some (LoginFailed ip))
        end
  end.

(** [handleLogin(req, res)] on the reply that the listener has just made. *)
Definition handleLogin (cfg : securityConfig) (now : Z) (req : request) : outcome :=
  let k := applySecurityHeaders cfg fresh_sink in
  if negb (String.eqb (method req) "POST")
  then Settled (writeError 405 "Method not allowed" k) None
  else
    let p := fold_left (on_data (maxRequestSize cfg)) (chunks req) (Reading "" k) in
    if ends req then on_end now (getClientIP req) p
    else match p with
         | Reading _ k => Settled k None
         | Thrown => Uncaught
         end.

End login.

(** Between two chunks the reply has been written exactly when the body
    is over the limit. *)
Definition coherent (max : Z) (p : progress) : Prop :=
  match p with
  | Reading body k => headersSent k = (max <? Z.of_nat (String.length body))%Z
  | Thrown => True
  end.

End Login.

(** ** The end of the server *)
Module Lifecycle.
Import Js Http Config Broker.

(** [client.close(1001, 'Server shutting down')] on a socket in any
    state: a closed socket stays closed, any other is closing from then
    on. *)
Definition close_session (ws : session) (s : state) : state :=
  if (readyState s ws =? CLOSED)%nat then s else close ws s.

(** [shutdown()] up to [httpServer.close]: the handler sessions and the
    dashboard sessions are closed, and every pending request that has no
    reply yet is answered 503. The records stay in the table; their
    timers and the intervals of the server are cleared, so no callback of
    those follows. *)
Definition shutdown (s : state) : state :=
  let s := fold_left (fun s '(_, client) => close_session client s)
                     (clients s) s in
  let s := set_fold close_session s (statusClients s) in
  fold_left
    (fun s '(_, requestData) =>
       replyError_unless_sent 503 "Server shutting down" (p_res requestData) s)
    (pendingRequests s) s.

End Lifecycle.

(** ** Bookkeeping for the runs *)
Module Probes.
Import Js Http Config Validator RateLimit Broker.

(** What every callback but the gate leaves alone or only moves one way:
    the rate-limit tracker stays, no counter goes down, and the log and
    the response-time samples stay within their caps. *)
Record tame (s s' : state) : Prop := mkTame {
  tame_tracker : rateLimitTracker s' = rateLimitTracker s;
  tame_total : (totalRequests (stats s) <= totalRequests (stats s'))%nat;
  tame_succeeded :
    (successfulResponses (stats s) <= successfulResponses (stats s'))%nat;
  tame_failed : (failedResponses (stats s) <= failedResponses (stats s'))%nat;
  tame_logs :
    (length (logs s) <= maxLogs)%nat -> (length (logs s') <= maxLogs)%nat;
  tame_times :
    (length (responseTimes (stats s)) <= 100)%nat ->
    (length (responseTimes (stats s')) <= 100)%nat
}.

(** The addresses that the HTTP requests of a run are counted under. *)
Fixpoint addresses (trace : list event) : list string :=
  match trace with
  | [] => []
  | Request _ req :: rest => getClientIP req :: addresses rest
  | _ :: rest => addresses rest
  end.

(** The verdicts of the gate on the HTTP requests of a run, in order. *)
Fixpoint verdicts `{NodeHttp} (cfg : securityConfig) (s : state)
    (trace : list event) : list bool :=
  match trace with
  | [] => []
  | e :: rest =>
      match e with
      | Request now req => [gate_admits cfg now req s]
      | _ => []
      end ++ verdicts cfg (step cfg s e) rest
  end.

(** The instants at which the gate admits, over the requests of one
    address in the order they arrive. *)
Fixpoint admitted_at (cfg : securityConfig) (clientIP : string)
    (arrivals : list (Z * request)) (rateLimitTracker : gmap string tracker)
  : list Z :=
  match arrivals with
  | [] => []
  | (now, req) :: rest =>
      let '(ok, rl) := checkRateLimit cfg now clientIP req rateLimitTracker in
      (if ok then [now] else []) ++ admitted_at cfg clientIP rest rl
  end.

(** The clock does not run backwards: the instants [l] come in order,
    none before [last]. *)
Fixpoint ascending (last : Z) (l : list Z) : Prop :=
  match l with
  | [] => True
  | t :: rest => (last <= t)%Z /\ ascending t rest
  end.

(** How many of the instants [l] fall in the 60 s after [a]. *)
Definition in_span (a : Z) (l : list Z) : nat :=
  length (List.filter (fun t => (a <? t)%Z && (t <=? a + 60000)%Z) l).

(** What the listener asks of a slug before it dispatches. *)
Definition admissible (cfg : securityConfig) (slug : string) : Prop :=
  validateSlug slug = true /\ slug <> "status"
  /\ (slugWhitelist cfg = [] \/ includes (slugWhitelist cfg) slug = true).

(** A record is either queued, and then it keeps the request and has no
    start time, or forwarded, and then it has a start time and no
    request. *)
Definition well_kept (rd : pending) : Prop :=
  match p_timeout rd with
  | QueueWait => is_Some (p_req rd) /\ p_startTime rd = None
  | ForwardDeadline => p_req rd = None /\ is_Some (p_startTime rd)
  end.

(** The records and the suspended calls are for slugs the listener
    dispatches, and every record is of one of the two kinds. *)
Record sound (cfg : securityConfig) (s : state) : Prop := mkSound {
  sound_pending :
    Forall (fun e => admissible cfg (p_slug e.2) /\ well_kept e.2)
           (pendingRequests s);
  sound_capturing :
    Forall (fun e => admissible cfg (t_slug e.2)) (capturing s)
}.

(** The replies are only added to: no callback hands out a sink, and the
    headers set on a reply stay, in order, at the head of its headers. *)
Definition grows (s s' : state) : Prop :=
  next_sink s' = next_sink s
  /\ forall r, sent_headers (sink_of s r) `prefix_of` sent_headers (sink_of s' r).

(** The error replies of the listener and of the broker: status and
    message. *)
Definition broker_errors : list (Z * string) :=
  [ (429, "Rate limit exceeded");
    (400, "Slug required");
    (400, "Invalid slug format");
    (400, reserved_error);
    (403, "Slug not authorized");
    (500, "Internal server error");
    (500, "Failed to send request to WebSocket client");
    (504, "Request timeout");
    (504, "No WebSocket client connected within timeout");
    (503, "No active WebSocket client for this slug");
    (500, "Failed to send response") ]%Z.

(** A reply that is unwritten, or carries a text under some status, or
    one of the error replies. *)
Definition plain_reply (k : sink_state) : Prop :=
  match reply k with
  | None => True
  | Some (_, Text _) => True
  | Some (status, ErrorJson error) => (status, error) ∈ broker_errors
  end.

(** Every reply is left as it was or is a plain one. *)
Definition reports (s s' : state) : Prop :=
  forall r, reply (sink_of s' r) = reply (sink_of s r) \/ plain_reply (sink_of s' r).

(** What a round of [close] calls leaves alone, and that it opens no
    socket. *)
Record closed_from (s s' : state) : Prop := mkClosedFrom {
  cf_clients : clients s' = clients s;
  cf_pending : pendingRequests s' = pendingRequests s;
  cf_capturing : capturing s' = capturing s;
  cf_stats : stats s' = stats s;
  cf_sinks : sinks s' = sinks s;
  cf_statusClients : statusClients s' = statusClients s;
  cf_next_sink : next_sink s' = next_sink s;
  cf_next_requestId : next_requestId s' = next_requestId s;
  cf_sockets : forall ws, readyState s ws <> OPEN -> readyState s' ws <> OPEN
}.

End Probes.

(** ** Bookkeeping for the validators *)
Module Markup.
Import Regex.

(** The four characters of which every pattern of [validateInput] needs
    at least one: [<], [:], [=] and [(]. *)
Definition markup_char (c : ascii) : bool :=
  (code c =? 60)%nat || (code c =? 58)%nat
  || (code c =? 61)%nat || (code c =? 40)%nat.

Definition markup_free (s : string) : bool :=
  all_chars (fun c => negb (markup_char c)) s.

(** Read off a pattern: every string it matches has a character outside
    the class [p]. *)
Fixpoint avoids (p : ascii -> bool) (r : regex) : Prop :=
  match r with
  | Void => True
  | Eps => False
  | Sym q => forall c, q c = true -> p c = false
  | Cat r1 r2 => avoids p r1 \/ avoids p r2
  | Alt r1 r2 => avoids p r1 /\ avoids p r2
  | Star _ => False
  end.

End Markup.

(** ** Worked inputs *)
Module Examples.
Import Js Http Config Broker.

Definition plain_get (path : string) : request :=
  mkRequest "GET" path path ∅ "10.0.0.1" [] true.

Definition post (path : string) (chunks : list string) : request :=
  mkRequest "POST" path path ∅ "10.0.0.1" chunks true.

(** [{"slug": slug}] *)
Definition registration (slug : string) : message :=
  mkMessage None (Some slug) None None.

(** [{"slug": slug, "requestId": id, "response": r}] *)
Definition response_to (slug : string) (requestId : reqid) (r : response) : message :=
  mkMessage None (Some slug) (Some requestId) (Some r).

Definition ok_response (text : string) : response :=
  mkResponse (Some 200%Z) None (Some text).

(** The defaults, with limits small enough to reach by hand. *)
Definition small : securityConfig :=
  {| maxConnectionsPerIP := 10;
     maxRequestsPerMinute := 2;
     maxRequestSize := 4;
     allowedOrigins := ["*"];
     slugWhitelist := [];
     enableRateLimit := true;
     enableCORS := true |}.

Definition slug50 : string :=
  "aaaaaaaaaaAAAAAAAAAA0123456789__________----------".

Definition slug51 : string := slug50 +:+ "a".

End Examples.

(** * Properties *)

(** ** The matcher against the denotation *)
Module RegexFacts.
Import Regex.

Lemma append_nil_l (s : string) : "" +:+ s = s.
Proof. reflexivity. Qed.

Lemma append_cons (c : ascii) (s1 s2 : string) :
  String c s1 +:+ s2 = String c (s1 +:+ s2).
Proof. reflexivity. Qed.

Lemma append_empty_inv (s1 s2 : string) :
  s1 +:+ s2 = "" -> s1 = "" /\ s2 = "".
Proof. destruct s1; simpl; [auto | discriminate]. Qed.

Lemma nullable_lang (r : regex) : nullable r = true <-> lang r "".
Proof.
  split.
  - induction r; simpl; intros Hn; try discriminate.
    + constructor.
    + apply andb_true_iff in Hn as [H1 H2].
      change "" with ("" +:+ ""). constructor; auto.
    + apply orb_true_iff in Hn as [H1 | H2].
      * apply lang_alt_l; auto.
      * apply lang_alt_r; auto.
    + constructor.
  - intros Hl. remember "" as w eqn:Hw.
    induction Hl; simpl; subst; try discriminate; auto.
    + apply append_empty_inv in Hw as [-> ->].
      rewrite IHHl1, IHHl2; auto.
    + rewrite IHHl; auto.
    + rewrite IHHl; auto using orb_true_r.
Qed.

Lemma lang_deriv_sound (c : ascii) (r : regex) :
  forall s, lang (deriv c r) s -> lang r (String c s).
Proof.
  induction r as [| |p|r1 IH1 r2 IH2|r1 IH1 r2 IH2|r1 IH1]; simpl; intros s Hl.
  - inversion Hl.
  - inversion Hl.
  - destruct (p c) eqn:Hp; inversion Hl; subst. constructor; auto.
  - assert (Hcat : forall w, lang (Cat (deriv c r1) r2) w ->
                             lang (Cat r1 r2) (String c w)).
    { intros w Hw. inversion Hw; subst.
      change (String c (s1 +:+ s2)) with (String c s1 +:+ s2).
      constructor; auto. }
    destruct (nullable r1) eqn:Hn; [|auto].
    inversion Hl; subst; [auto|].
    change (String c s) with ("" +:+ String c s).
    constructor; [apply nullable_lang; auto | auto].
  - inversion Hl; subst; [apply lang_alt_l | apply lang_alt_r]; auto.
  - inversion Hl; subst.
    change (String c (s1 +:+ s2)) with (String c s1 +:+ s2).
    apply lang_star_app; auto.
Qed.

Lemma lang_deriv_complete (c : ascii) (r : regex) (s : string) :
  lang r (String c s) -> lang (deriv c r) s.
Proof.
  intros Hl. remember (String c s) as w eqn:Hw. revert s Hw.
  induction Hl as [|p c0 Hp|r1 r2 s1 s2 H1 IH1 H2 IH2|r1 r2 w H1 IH1
                  |r1 r2 w H2 IH2|r|r s1 s2 H1 IH1 H2 IH2];
    intros s Hw; simpl.
  - discriminate.
  - injection Hw as -> <-. rewrite Hp. constructor.
  - destruct s1 as [|c1 s1']; [rewrite append_nil_l in Hw | rewrite append_cons in Hw].
    + subst s2. apply nullable_lang in H1. rewrite H1.
      apply lang_alt_r. auto.
    + injection Hw as -> <-.
      assert (Hc : lang (Cat (deriv c r1) r2) (s1' +:+ s2))
        by (constructor; auto).
      destruct (nullable r1); [apply lang_alt_l|]; exact Hc.
  - apply lang_alt_l; auto.
  - apply lang_alt_r; auto.
  - discriminate.
  - destruct s1 as [|c1 s1']; [rewrite append_nil_l in Hw | rewrite append_cons in Hw].
    + subst s2. apply (IH2 s eq_refl).
    + injection Hw as -> <-. constructor; auto.
Qed.

Lemma matches_lang (r : regex) (s : string) : matches r s = true <-> lang r s.
Proof.
  revert r. induction s as [|c s IH]; intros r; simpl.
  - apply nullable_lang.
  - rewrite IH. split; [apply lang_deriv_sound | apply lang_deriv_complete].
Qed.

Lemma lang_sym_inv (p : ascii -> bool) (s : string) :
  lang (Sym p) s -> exists c, s = String c "" /\ p c = true.
Proof. intros Hl. inversion Hl; subst. eauto. Qed.

Lemma lang_star_sym (p : ascii -> bool) (s : string) :
  lang (Star (Sym p)) s <-> all_chars p s = true.
Proof.
  split.
  - intros Hl. remember (Star (Sym p)) as r eqn:Hr.
    induction Hl; try discriminate; [reflexivity|].
    injection Hr as ->.
    apply lang_sym_inv in Hl1 as (c & -> & Hc).
    rewrite append_cons, append_nil_l. simpl.
    rewrite Hc, IHHl2; auto.
  - induction s as [|c s IH]; simpl; intros Ha.
    + constructor.
    + apply andb_true_iff in Ha as [Hc Hs].
      change (String c s) with (String c "" +:+ s).
      apply lang_star_app; [constructor|]; auto.
Qed.

Lemma lang_plus_sym (p : ascii -> bool) (s : string) :
  lang (Plus (Sym p)) s <-> s <> "" /\ all_chars p s = true.
Proof.
  unfold Plus. split.
  - intros Hl. inversion Hl; subst.
    apply lang_sym_inv in H1 as (c & -> & Hc).
    apply lang_star_sym in H3. rewrite append_cons, append_nil_l. simpl.
    rewrite Hc, H3. split; [discriminate|auto].
  - intros [Hne Ha]. destruct s as [|c s]; [congruence|].
    simpl in Ha. apply andb_true_iff in Ha as [Hc Hs].
    change (String c s) with (String c "" +:+ s).
    constructor; [constructor; auto | apply lang_star_sym; auto].
Qed.

End RegexFacts.

(** ** The validators *)
Module ValidatorFacts.
Import Regex Js Validator RegexFacts.

Lemma validateSlug_iff (slug : string) :
  validateSlug slug = true <->
  (1 <= String.length slug <= 50)%nat /\ all_chars slug_class slug = true.
Proof.
  unfold validateSlug, isLength, matches_anchored, test_anchored, slug_pattern.
  rewrite !andb_true_iff, matches_lang, lang_plus_sym.
  rewrite !Nat.leb_le. split.
  - intros [[Hlo Hhi] [_ Ha]]. auto.
  - intros [[Hlo Hhi] Ha]. repeat split; auto.
    intros ->. simpl in Hlo. lia.
Qed.

Lemma lookup_sanitizeHeaders (headers : gmap string jsval) (key : string) :
  sanitizeHeaders headers !! key =
  match headers !! key with
  | Some value => if kept key value then Some value else None
  | None => None
  end.
Proof.
  unfold sanitizeHeaders.
  match goal with |- context [map_fold ?g _ _] => set (f := g) end.
  assert (Hf : forall k v acc,
             f k v acc = if kept k v then <[k := v]> acc else acc).
  { intros k v acc. unfold f, kept, set_property.
    destruct (negb (includes dangerousHeaders (toLowerCase k)) && validateInput v);
      simpl; [|reflexivity].
    destruct (String.eqb k "__proto__"); reflexivity. }
  clearbody f.
  induction headers as [|i x m Hi Hfirst IH] using map_first_key_ind.
  - rewrite map_fold_empty, !lookup_empty. reflexivity.
  - rewrite map_fold_insert_first_key by assumption. rewrite Hf.
    destruct (decide (key = i)) as [->|Hne].
    + rewrite (lookup_insert_eq m).
      destruct (kept i x).
      * rewrite lookup_insert_eq. reflexivity.
      * rewrite IH, Hi. reflexivity.
    + rewrite (lookup_insert_ne m) by congruence.
      destruct (kept i x); [|apply IH].
      rewrite lookup_insert_ne by congruence. apply IH.
Qed.

(** C9. The header sanitiser is idempotent: sanitising the result of
    [sanitizeHeaders] gives that result back, for every header mapping. *)
Theorem sanitizeHeaders_idempotent (headers : gmap string jsval) :
  sanitizeHeaders (sanitizeHeaders headers) = sanitizeHeaders headers.
Proof.
  apply map_eq. intros key.
  rewrite (lookup_sanitizeHeaders (sanitizeHeaders headers)).
  rewrite lookup_sanitizeHeaders.
  destruct (headers !! key) as [value|]; [|reflexivity].
  destruct (kept key value) eqn:Hk; [|reflexivity].
  rewrite Hk. reflexivity.
Qed.

End ValidatorFacts.

(** ** The rate-limit gate *)
Module RateLimitFacts.
Import Js Http Config RateLimit.

Lemma recent_window (w now : Z) (timestamps : list Z) :
  in_window w now ->
  Forall (fun t => (t <= w - 60000 \/ w < t)%Z) timestamps ->
  recent (now - 60000) timestamps = recent w timestamps.
Proof.
  unfold in_window, recent. intros Hnow Hts.
  induction Hts as [|t ts Ht Hts IH]; simpl; [reflexivity|].
  rewrite IH.
  destruct (Z.ltb_spec (now - 60000) t), (Z.ltb_spec w t); auto; lia.
Qed.

Lemma recent_all (w : Z) (timestamps : list Z) :
  Forall (fun t => (w < t)%Z) timestamps -> recent w timestamps = timestamps.
Proof.
  unfold recent. induction 1 as [|t ts Ht Hts IH]; simpl; [reflexivity|].
  rewrite IH. destruct (Z.ltb_spec w t); [reflexivity|lia].
Qed.

Lemma recent_none (w : Z) (timestamps : list Z) :
  Forall (fun t => (t <= w - 60000)%Z) timestamps -> recent w timestamps = [].
Proof.
  unfold recent. induction 1 as [|t ts Ht Hts IH]; simpl; [reflexivity|].
  rewrite IH. destruct (Z.ltb_spec w t); [lia|reflexivity].
Qed.

Lemma recent_newer (w : Z) (timestamps : list Z) :
  Forall (fun t => (w < t)%Z) (recent w timestamps).
Proof.
  unfold recent. induction timestamps as [|t ts IH]; simpl; [constructor|].
  destruct (Z.ltb_spec w t); [constructor|]; auto.
Qed.

(** One call inside the window, for a plain HTTP request: it is admitted
    exactly when fewer than the maximum are already counted, and then it
    is counted too. *)
Lemma checkRateLimit_window (cfg : securityConfig) (w now : Z)
    (clientIP : string) (req : request) (rl : gmap string tracker) :
  in_window w now ->
  is_upgrade req = false ->
  Forall (fun t => (t <= w - 60000 \/ w < t)%Z) (requests_of clientIP rl) ->
  let already := length (recent w (requests_of clientIP rl)) in
  let '(ok, rl') := checkRateLimit cfg now clientIP req rl in
  ok = negb (maxRequestsPerMinute cfg <=? already)%nat
  /\ Forall (fun t => (t <= w - 60000 \/ w < t)%Z) (requests_of clientIP rl')
  /\ length (recent w (requests_of clientIP rl')) =
     if ok then S already else already.
Proof.
  intros Hnow Hup Hts already. unfold checkRateLimit. rewrite Hup.
  assert (Hreq : (match rl !! clientIP with
                  | Some tr => tr | None => mkTracker [] [] end).(requests)
                 = requests_of clientIP rl).
  { unfold requests_of. destruct (rl !! clientIP); reflexivity. }
  rewrite Hreq, (recent_window w now) by assumption.
  fold already.
  assert (Hnew : Forall (fun t => (w < t)%Z) (recent w (requests_of clientIP rl)))
    by apply recent_newer.
  destruct (maxRequestsPerMinute cfg <=? already)%nat eqn:Hmax; simpl;
    unfold requests_of; rewrite lookup_insert_eq; simpl.
  - split; [reflexivity|]. split.
    + eapply Forall_impl; [exact Hnew|]. simpl. intros; lia.
    + rewrite (recent_all w) by assumption. reflexivity.
  - split; [reflexivity|].
    assert (Hall : Forall (fun t => (w < t)%Z)
                          (recent w (requests_of clientIP rl) ++ [now])).
    { apply Forall_app. split; [assumption|].
      constructor; [|constructor]. unfold in_window in Hnow. lia. }
    split.
    + eapply Forall_impl; [exact Hall|]. simpl. intros; lia.
    + rewrite (recent_all w) by assumption.
      rewrite length_app. simpl. unfold already, requests_of. lia.
Qed.

(** A run of plain requests inside one window: the first ones are let
    through until the count reaches the maximum, the others are not. *)
Lemma gate_run_window (cfg : securityConfig) (w : Z) (clientIP : string)
    (arrivals : list (Z * request)) :
  forall rl : gmap string tracker,
  Forall (fun '(now, req) => in_window w now /\ is_upgrade req = false) arrivals ->
  Forall (fun t => (t <= w - 60000 \/ w < t)%Z) (requests_of clientIP rl) ->
  let room := (maxRequestsPerMinute cfg
               - length (recent w (requests_of clientIP rl)))%nat in
  gate_run cfg clientIP arrivals rl =
  repeat true (Nat.min (length arrivals) room)
  ++ repeat false (length arrivals - room).
Proof.
  induction arrivals as [|[now req] rest IH]; intros rl Harr Hts room.
  - reflexivity.
  - apply Forall_cons in Harr as [[Hnow Hup] Hrest]. simpl.
    pose proof (checkRateLimit_window cfg w now clientIP req rl Hnow Hup Hts) as Hc.
    simpl in Hc.
    destruct (checkRateLimit cfg now clientIP req rl) as [ok rl'].
    destruct Hc as (Hok & Hts' & Hlen).
    rewrite (IH rl' Hrest Hts'). rewrite Hlen. subst ok.
    destruct (Nat.leb_spec (maxRequestsPerMinute cfg)
                (length (recent w (requests_of clientIP rl)))) as [Hfull|Hroom];
      simpl.
    + replace room with 0%nat by (unfold room; lia).
      replace (maxRequestsPerMinute cfg
               - length (recent w (requests_of clientIP rl)))%nat with 0%nat by lia.
      rewrite !Nat.min_0_r, !Nat.sub_0_r. reflexivity.
    + replace room with
        (S (maxRequestsPerMinute cfg
            - S (length (recent w (requests_of clientIP rl)))))%nat
        by (unfold room; lia).
      simpl. reflexivity.
Qed.

End RateLimitFacts.

(** ** Reply sinks and the pieces of the handlers *)
Module BrokerFacts.
Import Js Http Config Validator RateLimit Broker.

Lemma sink_of_put_eq (res : sink) (k : sink_state) (s : state) :
  sink_of (put_sink res k s) res = k.
Proof. unfold sink_of, put_sink. simpl. rewrite lookup_insert_eq. reflexivity. Qed.

Lemma sink_of_put_ne (res res' : sink) (k : sink_state) (s : state) :
  res <> res' -> sink_of (put_sink res k s) res' = sink_of s res'.
Proof.
  intros Hne. unfold sink_of, put_sink. simpl.
  rewrite lookup_insert_ne by assumption. reflexivity.
Qed.

Lemma sink_of_addLog (now : Z) (text : log_message) (lv : level) (s : state)
    (res : sink) :
  sink_of (addLog now text lv s) res = sink_of s res.
Proof. reflexivity. Qed.

Lemma reply_writeError (status : Z) (error : string) (k : sink_state) :
  reply (writeError status error k) = Some (status, ErrorJson error).
Proof. reflexivity. Qed.

Lemma headersSent_writeError_unless_sent (status : Z) (error : string)
    (k : sink_state) :
  headersSent (writeError_unless_sent status error k) = true.
Proof.
  unfold writeError_unless_sent. destruct (headersSent k) eqn:Hk; [exact Hk|].
  reflexivity.
Qed.

Lemma writeError_unless_sent_fresh (status : Z) (error : string) (k : sink_state) :
  headersSent k = false ->
  writeError_unless_sent status error k = writeError status error k.
Proof. unfold writeError_unless_sent. intros ->. reflexivity. Qed.

Lemma writeError_unless_sent_sent (status : Z) (error : string) (k : sink_state) :
  headersSent k = true -> writeError_unless_sent status error k = k.
Proof. unfold writeError_unless_sent. intros ->. reflexivity. Qed.

(** [Map] operations on an insertion-ordered list. *)
Section JsMapFacts.
Context {K V : Type} `{EqDecision K}.
Implicit Types (m : JsMap.t K V) (k : K) (v : V).

Lemma keys_app m1 m2 : JsMap.keys (m1 ++ m2) = JsMap.keys m1 ++ JsMap.keys m2.
Proof. apply fmap_app. Qed.

Lemma get_split m k v :
  JsMap.get k m = Some v ->
  exists m1 m2, m = m1 ++ (k, v) :: m2 /\ (k ∉ JsMap.keys m1)
                /\ JsMap.delete k m = m1 ++ m2.
Proof.
  induction m as [|[k' v'] m IH]; simpl; [discriminate|].
  destruct (decide (k = k')) as [<-|Hne].
  - intros [= <-]. exists [], m. repeat split. apply not_elem_of_nil.
  - intros Hget. destruct (IH Hget) as (m1 & m2 & -> & Hnot & Hdel).
    exists ((k', v') :: m1), m2. repeat split.
    + simpl. apply not_elem_of_cons. auto.
    + simpl. rewrite Hdel. reflexivity.
Qed.

Lemma get_None m k : JsMap.get k m = None <-> k ∉ JsMap.keys m.
Proof.
  induction m as [|[k' v'] m IH]; simpl.
  - split; [intros _; apply not_elem_of_nil | reflexivity].
  - rewrite not_elem_of_cons. destruct (decide (k = k')) as [<-|Hne].
    + split; [discriminate | intros [Hk _]; congruence].
    + rewrite IH. tauto.
Qed.

Lemma get_elem_of m k v : JsMap.get k m = Some v -> (k, v) ∈ m.
Proof.
  intros Hget. destruct (get_split m k v Hget) as (m1 & m2 & -> & _).
  apply elem_of_app. right. apply elem_of_cons. auto.
Qed.

Lemma get_app_notin m1 m2 k :
  k ∉ JsMap.keys m1 -> JsMap.get k (m1 ++ m2) = JsMap.get k m2.
Proof.
  induction m1 as [|[k' v'] m1 IH]; simpl; [reflexivity|].
  rewrite not_elem_of_cons. intros [Hne Hnot].
  destruct (decide (k = k')); [congruence|]. auto.
Qed.

Lemma delete_app_notin m1 m2 k :
  k ∉ JsMap.keys m1 -> JsMap.delete k (m1 ++ m2) = m1 ++ JsMap.delete k m2.
Proof.
  induction m1 as [|[k' v'] m1 IH]; simpl; [reflexivity|].
  rewrite not_elem_of_cons. intros [Hne Hnot].
  destruct (decide (k = k')); [congruence|]. rewrite IH; auto.
Qed.

Lemma delete_head m k v : JsMap.delete k ((k, v) :: m) = m.
Proof. simpl. destruct (decide (k = k)); congruence. Qed.

Lemma delete_notin m k : k ∉ JsMap.keys m -> JsMap.delete k m = m.
Proof.
  induction m as [|[k' v'] m IH]; simpl; [reflexivity|].
  rewrite not_elem_of_cons. intros [Hne Hnot].
  destruct (decide (k = k')); [congruence|]. rewrite IH; auto.
Qed.

Lemma set_notin m k v : k ∉ JsMap.keys m -> JsMap.set k v m = m ++ [(k, v)].
Proof.
  induction m as [|[k' v'] m IH]; simpl; [reflexivity|].
  rewrite not_elem_of_cons. intros [Hne Hnot].
  destruct (decide (k = k')); [congruence|]. rewrite IH; auto.
Qed.

Lemma get_NoDup m k v :
  NoDup (JsMap.keys m) -> (k, v) ∈ m -> JsMap.get k m = Some v.
Proof.
  induction m as [|[k' v'] m IH]; simpl; intros Hnd Hin.
  - apply elem_of_nil in Hin. contradiction.
  - apply NoDup_cons in Hnd as [Hk Hnd].
    apply elem_of_cons in Hin as [[= -> ->]|Hin].
    + destruct (decide (k' = k')); congruence.
    + destruct (decide (k = k')) as [->|Hne]; [|auto].
      exfalso. apply Hk. change k' with ((k', v).1).
      apply list_elem_of_fmap_2. exact Hin.
Qed.

End JsMapFacts.

(** The last entry of the log after [addLog]. *)
Lemma last_slice_last {A} (n : nat) (l : list A) (x : A) :
  (0 < n)%nat -> last (slice_last n (l ++ [x])) = Some x.
Proof.
  intros Hn. unfold slice_last. rewrite length_app. simpl.
  replace (length l + 1 - n)%nat with (length l - (n - 1))%nat by lia.
  rewrite skipn_app.
  replace (length l - (n - 1) - length l)%nat with 0%nat by lia.
  simpl. apply last_snoc.
Qed.

Lemma last_logs_addLog (now : Z) (text : log_message) (lv : level) (s : state) :
  last (logs (addLog now text lv s)) = Some (mkLog now lv text).
Proof.
  unfold addLog. simpl.
  destruct (maxLogs <? length (logs s ++ [mkLog now lv text]))%nat.
  - apply last_slice_last. unfold maxLogs. lia.
  - apply last_snoc.
Qed.

(** [accumulate] gives up exactly when the whole body is over the limit. *)
Lemma length_append (s1 s2 : string) :
  String.length (s1 +:+ s2) = (String.length s1 + String.length s2)%nat.
Proof. induction s1 as [|c s1 IH]; simpl; [reflexivity|]. f_equal. exact IH. Qed.

Lemma accumulate_None (max : Z) (chunks : list string) :
  forall body,
  (Z.of_nat (String.length body) <= max)%Z ->
  accumulate max body chunks = None <->
  (max < Z.of_nat (String.length body + body_size chunks))%Z.
Proof.
  induction chunks as [|chunk rest IH]; intros body Hbody;
    unfold body_size; simpl.
  - split; [discriminate | lia].
  - fold (body_size rest).
    destruct (Z.ltb_spec max (Z.of_nat (String.length (body +:+ chunk)))) as [Hover|Hok].
    + split; [|reflexivity]. intros _. rewrite length_append in Hover. lia.
    + rewrite (IH _ Hok), length_append. split; intros; lia.
Qed.

(** What [accumulate] returns is the chunks joined after [body]. *)
Lemma accumulate_Some (max : Z) (chunks : list string) :
  forall body body',
  accumulate max body chunks = Some body' ->
  body' = foldl String.append body chunks
  /\ (Z.of_nat (String.length body) <= max ->
      Z.of_nat (String.length body') <= max)%Z.
Proof.
  induction chunks as [|chunk rest IH]; intros body body'; simpl.
  - intros [= <-]. auto.
  - destruct (Z.ltb_spec max (Z.of_nat (String.length (body +:+ chunk))));
      [discriminate|].
    intros Hacc. apply IH in Hacc as [-> Hlen]. split; [reflexivity|].
    intros _. apply Hlen. assumption.
Qed.

(** *** The shape of the state after a handler that completes one record *)

Lemma headersSent_writeHead_end `{NodeHttp} (statusCode : Z) (data : string)
    (k k' : sink_state) :
  writeHead_end statusCode data k = Some k' ->
  k' = mkSink (sent_headers k) (Some (statusCode, Text data))
  /\ headersSent k = false /\ writeHead_ok statusCode = true.
Proof.
  unfold writeHead_end. destruct (headersSent k); [discriminate|].
  destruct (writeHead_ok statusCode); [|discriminate].
  intros [= <-]. auto.
Qed.

Lemma handleClientResponse_found `{NodeHttp} (now : Z) (slug : string)
    (requestId : reqid) (response : response) (s : state) (rd : pending) :
  JsMap.get requestId (pendingRequests s) = Some rd ->
  exists (k : sink_state) (st : statistics) lg sc,
    handleClientResponse now slug requestId response s =
    mkState (clients s) (JsMap.delete requestId (pendingRequests s)) st lg sc
            (rateLimitTracker s) (capturing s) (<[p_res rd := k]> (sinks s))
            (sockets s) (outbox s) (next_requestId s) (next_sink s)
    /\ totalRequests st = totalRequests (stats s)
    /\ (successfulResponses st + failedResponses st
        = S (successfulResponses (stats s) + failedResponses (stats s)))%nat
    /\ headersSent k = true.
Proof.
  intros Hget. unfold handleClientResponse. rewrite Hget.
  destruct (setHeaders _ _) as [k1 ok].
  assert (Hfail : forall s0 : state,
    exists k st lg sc,
      (let s1 := put_sink (p_res rd) k1 s0 in
       let s2 := addLog now (ResponseError requestId) LError s1 in
       let s3 := with_stats (incFailed (stats s2)) s2 in
       replyError_unless_sent 500 "Failed to send response" (p_res rd) s3) =
      mkState (clients s0) (pendingRequests s0) st lg sc (rateLimitTracker s0)
              (capturing s0) (<[p_res rd := k]> (sinks s0)) (sockets s0)
              (outbox s0) (next_requestId s0) (next_sink s0)
      /\ st = incFailed (stats s0) /\ headersSent k = true).
  { intros s0. eexists _, _, _, _. split; [|split; [reflexivity|]].
    - unfold replyError_unless_sent, put_sink. simpl.
      rewrite insert_insert_eq. reflexivity.
    - apply headersSent_writeError_unless_sent. }
  destruct ok.
  - destruct (writeHead_end _ _ k1) as [k2|] eqn:Hw.
    + apply headersSent_writeHead_end in Hw as (-> & _ & _).
      eexists _, _, _, _. split; [reflexivity|]. simpl. repeat split; lia.
    + match goal with |- context [put_sink _ _ ?s0] =>
        destruct (Hfail s0) as (k & st & lg & sc & Heq & -> & Hk) end.
      exists k. eexists _, lg, sc. split; [exact Heq|]. simpl. repeat split; auto; lia.
  - match goal with |- context [put_sink _ _ ?s0] =>
      destruct (Hfail s0) as (k & st & lg & sc & Heq & -> & Hk) end.
    exists k. eexists _, lg, sc. split; [exact Heq|]. simpl. repeat split; auto; lia.
Qed.

Lemma onTimeout_found (now : Z) (requestId : reqid) (s : state) (rd : pending) :
  JsMap.get requestId (pendingRequests s) = Some rd ->
  exists (error : string) lg sc,
    onTimeout now requestId s =
    mkState (clients s) (JsMap.delete requestId (pendingRequests s))
            (if is_forwarded rd then incFailed (stats s) else stats s) lg sc
            (rateLimitTracker s) (capturing s)
            (<[p_res rd := writeError_unless_sent 504 error (sink_of s (p_res rd))]>
               (sinks s))
            (sockets s) (outbox s) (next_requestId s) (next_sink s).
Proof.
  intros Hget. unfold onTimeout, is_forwarded. rewrite Hget.
  destruct (p_timeout rd); eexists _, _, _; reflexivity.
Qed.

Lemma resume_failed (cfg : securityConfig) (now : Z) (requestId : reqid)
    (send_ok : bool) (s : state) (t : task) :
  JsMap.get requestId (capturing s) = Some t ->
  (exists e, collectRequestData cfg (t_req t) = inr e) \/ send_ok = false ->
  exists (error : string) lg sc,
    handleRequestWithClient_resume cfg now requestId send_ok s =
    mkState (clients s) (pendingRequests s) (incFailed (stats s)) lg sc
            (rateLimitTracker s) (JsMap.delete requestId (capturing s))
            (<[t_res t := writeError_unless_sent 500 error (sink_of s (t_res t))]>
               (sinks s))
            (sockets s) (outbox s) (next_requestId s) (next_sink s).
Proof.
  intros Hget Hfail. unfold handleRequestWithClient_resume. rewrite Hget.
  destruct (collectRequestData cfg (t_req t)) as [data|e].
  - destruct Hfail as [[e He]| ->]; [discriminate|].
    eexists _, _, _. reflexivity.
  - eexists _, _, _. reflexivity.
Qed.

Lemma resume_forwarded (cfg : securityConfig) (now : Z) (requestId : reqid)
    (s : state) (t : task) (data : captured) :
  JsMap.get requestId (capturing s) = Some t ->
  collectRequestData cfg (t_req t) = inl data ->
  exists lg sc,
    handleRequestWithClient_resume cfg now requestId true s =
    mkState (clients s)
            (JsMap.set requestId
               (mkPending (t_res t) ForwardDeadline (t_slug t) None now
                          (Some (t_startTime t)))
               (pendingRequests s))
            (stats s) lg sc (rateLimitTracker s)
            (JsMap.delete requestId (capturing s)) (sinks s) (sockets s)
            (outbox s ++ [(t_client t, Forwarded (t_slug t) requestId data)])
            (next_requestId s) (next_sink s).
Proof.
  intros Hget Hdata. unfold handleRequestWithClient_resume. rewrite Hget, Hdata.
  eexists _, _. reflexivity.
Qed.

(** *** The two loops over [pendingRequests] *)

Lemma with_pendingRequests_id (s : state) :
  with_pendingRequests (pendingRequests s) s = s.
Proof. destruct s. reflexivity. Qed.

(** A loop that visits the entries, and for each one selected by [sel]
    runs [g] and deletes the entry: the selected entries are gone, the
    others stay in order, and [g] has run on the selected ones in order. *)
Lemma delete_loop (sel : reqid * pending -> bool)
    (g : reqid * pending -> state -> state) :
  (forall e p s, g e (with_pendingRequests p s) = with_pendingRequests p (g e s)) ->
  forall rest kept s,
  pendingRequests s = kept ++ rest ->
  NoDup (JsMap.keys (kept ++ rest)) ->
  fold_left
    (fun s e =>
       if sel e
       then with_pendingRequests (JsMap.delete e.1 (pendingRequests (g e s))) (g e s)
       else s)
    rest s
  = with_pendingRequests (kept ++ List.filter (fun e => negb (sel e)) rest)
      (fold_left (fun s e => g e s) (List.filter sel rest) s).
Proof.
  intros Hg.
  assert (Hpend : forall e s, pendingRequests (g e s) = pendingRequests s).
  { intros e s. rewrite <- (with_pendingRequests_id s) at 1. rewrite Hg. reflexivity. }
  assert (Hfold : forall l p s,
             fold_left (fun s e => g e s) l (with_pendingRequests p s)
             = with_pendingRequests p (fold_left (fun s e => g e s) l s)).
  { induction l as [|e l IHl]; intros p s; simpl; [reflexivity|].
    rewrite Hg. apply IHl. }
  induction rest as [|[k rd] rest IH]; intros kept s Hs Hnd; simpl.
  - rewrite app_nil_r in *. rewrite <- Hs. symmetry. apply with_pendingRequests_id.
  - destruct (sel (k, rd)) eqn:Hsel; simpl.
    + rewrite Hpend, Hs.
      assert (Hk : k ∉ JsMap.keys kept).
      { rewrite keys_app in Hnd. apply NoDup_app in Hnd as (_ & Hdisj & _).
        intros Hin. apply (Hdisj k Hin). simpl. apply elem_of_cons. auto. }
      rewrite delete_app_notin, delete_head by assumption.
      rewrite (IH kept).
      * rewrite Hfold. reflexivity.
      * reflexivity.
      * rewrite keys_app in *. simpl in Hnd.
        apply NoDup_app in Hnd as (Hn1 & Hdisj & Hn2).
        apply NoDup_cons in Hn2 as [_ Hn2].
        apply NoDup_app. repeat split; auto.
        intros x Hx Hx'. apply (Hdisj x Hx). apply elem_of_cons. auto.
    + rewrite (IH (kept ++ [(k, rd)])).
      * rewrite <- app_assoc. reflexivity.
      * rewrite Hs, <- app_assoc. reflexivity.
      * rewrite <- app_assoc. exact Hnd.
Qed.

Lemma fold_left_pointwise {A B} (f g : A -> B -> A) (l : list B) :
  (forall a b, f a b = g a b) -> forall a, fold_left f l a = fold_left g l a.
Proof.
  intros Hfg. induction l as [|b l IH]; intros a; simpl; [reflexivity|].
  rewrite Hfg. apply IH.
Qed.

Lemma rejectPendingRequestsForSlug_closed (slug : string) (s : state) :
  NoDup (JsMap.keys (pendingRequests s)) ->
  rejectPendingRequestsForSlug slug s =
  with_pendingRequests
    (List.filter (fun e => negb (has_slug slug e)) (pendingRequests s))
    (fold_left
       (fun s e =>
          replyError_unless_sent 503 "No active WebSocket client for this slug"
                                 (p_res e.2) s)
       (List.filter (has_slug slug) (pendingRequests s)) s).
Proof.
  intros Hnd. unfold rejectPendingRequestsForSlug.
  erewrite fold_left_pointwise.
  - apply (delete_loop (has_slug slug)
             (fun e s => replyError_unless_sent
                           503 "No active WebSocket client for this slug"
                           (p_res e.2) s)
             (fun _ _ _ => eq_refl) (pendingRequests s) [] s eq_refl Hnd).
  - intros a [k rd]. reflexivity.
Qed.

Lemma processPendingRequestsForSlug_closed (now : Z) (slug : string)
    (client : session) (s : state) :
  NoDup (JsMap.keys (pendingRequests s)) ->
  processPendingRequestsForSlug now slug client s =
  with_pendingRequests
    (List.filter (fun e => negb (has_slug slug e)) (pendingRequests s))
    (fold_left
       (fun s e => handleRequestWithClient now (p_req e.2) (p_res e.2) slug client s)
       (List.filter (has_slug slug) (pendingRequests s)) s).
Proof.
  intros Hnd. unfold processPendingRequestsForSlug.
  erewrite fold_left_pointwise.
  - apply (delete_loop (has_slug slug)
             (fun e s => handleRequestWithClient now (p_req e.2) (p_res e.2)
                                                 slug client s)
             (fun _ _ _ => eq_refl) (pendingRequests s) [] s eq_refl Hnd).
  - intros a [k rd]. reflexivity.
Qed.

(** *** The request listener *)

Lemma onRequest_limited `{NodeHttp} (cfg : securityConfig) (now : Z)
    (req : request) (s : state) :
  gate_admits cfg now req s = false ->
  onRequest cfg now req s =
  replyError 429 "Rate limit exceeded" (next_sink s)
    (addLog now (RateLimitExceeded (getClientIP req)) LSecurity
            (after_gate cfg now req s)).
Proof.
  unfold gate_admits, onRequest, after_gate. intros Hgate.
  destruct (enableRateLimit cfg); [|discriminate]. simpl in *.
  destruct (checkRateLimit cfg now (getClientIP req) req _) as [ok rl].
  simpl in Hgate. subst ok. reflexivity.
Qed.

Lemma onRequest_admitted `{NodeHttp} (cfg : securityConfig) (now : Z)
    (req : request) (s : state) :
  gate_admits cfg now req s = true ->
  onRequest cfg now req s =
  let s1 := after_gate cfg now req s in
  match routeOf cfg (pathname req) with
  | ToLogin | ToStatusPage | ToApi => s1
  | NoSlug => replyError 400 "Slug required" (next_sink s) s1
  | InvalidSlug slug =>
      replyError 400 "Invalid slug format" (next_sink s)
        (addLog now (InvalidSlugAttempt slug (getClientIP req)) LSecurity s1)
  | ReservedSlug => replyError 400 reserved_error (next_sink s) s1
  | NotWhitelisted slug =>
      replyError 403 "Slug not authorized" (next_sink s)
        (addLog now (UnauthorizedSlugAttempt slug (getClientIP req)) LSecurity s1)
  | ToSlug slug =>
      match JsMap.get slug (clients s1) with
      | Some client =>
          if (readyState s1 client =? OPEN)%nat
          then handleRequestWithClient now (Some req) (next_sink s) slug client s1
          else handleRequestWithoutClient now req (next_sink s) slug s1
      | None => handleRequestWithoutClient now req (next_sink s) slug s1
      end
  end.
Proof.
  unfold gate_admits, onRequest, after_gate. intros Hgate.
  destruct (enableRateLimit cfg); [|reflexivity]. simpl in *.
  destruct (checkRateLimit cfg now (getClientIP req) req _) as [ok rl].
  simpl in Hgate. subst ok. reflexivity.
Qed.

Lemma after_gate_fields (cfg : securityConfig) (now : Z) (req : request)
    (s : state) :
  let s1 := after_gate cfg now req s in
  clients s1 = clients s /\ pendingRequests s1 = pendingRequests s
  /\ stats s1 = stats s /\ capturing s1 = capturing s
  /\ sockets s1 = sockets s /\ logs s1 = logs s
  /\ next_requestId s1 = next_requestId s /\ next_sink s1 = S (next_sink s)
  /\ sinks s1 = <[next_sink s := applySecurityHeaders cfg fresh_sink]> (sinks s).
Proof.
  unfold after_gate. destruct (enableRateLimit cfg); simpl; repeat split.
Qed.

End BrokerFacts.

(** ** Admission: slug syntax, rate limit, body size *)
Module Admission.
Import Regex Js Http Node Config Validator RateLimit Broker.
Import RegexFacts ValidatorFacts RateLimitFacts BrokerFacts Examples.

Lemma prefix_append (p s : string) :
  String.prefix p s = true -> exists rest, s = p +:+ rest.
Proof.
  revert s. induction p as [|a p IH]; intros s.
  - intros _. exists s. reflexivity.
  - destruct s as [|b s]; simpl; [discriminate|].
    destruct (ascii_dec a b) as [->|]; [|discriminate].
    intros Hp. apply IH in Hp as [rest ->]. exists rest. reflexivity.
Qed.

Lemma all_chars_append (p : ascii -> bool) (s1 s2 : string) :
  all_chars p (s1 +:+ s2) = all_chars p s1 && all_chars p s2.
Proof.
  induction s1 as [|c s1 IH]; [reflexivity|].
  rewrite append_cons. simpl. rewrite IH, andb_assoc. reflexivity.
Qed.

Lemma routeOf_ToSlug (cfg : securityConfig) (pathname slug : string) :
  routeOf cfg pathname = ToSlug slug ->
  slug = substring1 pathname /\ validateSlug slug = true.
Proof.
  unfold routeOf.
  destruct (String.eqb pathname "/auth/login"); [discriminate|].
  destruct (String.eqb pathname "/status"); [discriminate|].
  destruct (startsWith "/api/" pathname); [discriminate|].
  destruct (truthy (substring1 pathname)); [|discriminate]. simpl.
  destruct (validateSlug (substring1 pathname)) eqn:Hv; [|discriminate]. simpl.
  destruct (String.eqb (substring1 pathname) "status"); [discriminate|].
  destruct ((0 <? length (slugWhitelist cfg))%nat
            && negb (includes (slugWhitelist cfg) (substring1 pathname)));
    [discriminate|].
  intros [= <-]. auto.
Qed.

(** The routing of [/slug] once the three fixed paths are out of the way. *)
Lemma routeOf_slash (cfg : securityConfig) (slug : string) :
  slug <> "auth/login" -> slug <> "status" ->
  startsWith "api/" slug = false ->
  routeOf cfg ("/" +:+ slug) =
    if negb (truthy slug) then NoSlug
    else if negb (validateSlug slug) then InvalidSlug slug
    else if (0 <? length (slugWhitelist cfg))%nat
            && negb (includes (slugWhitelist cfg) slug)
    then NotWhitelisted slug
    else ToSlug slug.
Proof.
  intros Hlogin Hstatus Hapi. unfold routeOf.
  rewrite append_cons, append_nil_l.
  destruct (String.eqb_spec (String "/"%char slug) "/auth/login") as [[= E]|_];
    [congruence|].
  destruct (String.eqb_spec (String "/"%char slug) "/status") as [[= E]|_];
    [congruence|].
  change (startsWith "/api/" (String "/"%char slug)) with (startsWith "api/" slug).
  rewrite Hapi. cbv [substring1].
  destruct (String.eqb_spec slug "status") as [E|_]; [congruence|].
  reflexivity.
Qed.

(** C8. A slug passes [validateSlug] exactly when it has between 1 and 50
    characters, all of them in [[A-Za-z0-9_-]]; the listener hands a path on
    to dispatch only with such a slug; an empty slug, and a slug of 51
    characters, are answered 400 and nothing is queued; a slug of 50
    characters of the class is dispatched (the whitelist permitting). *)
Theorem slug_validation :
  (forall slug : string,
      validateSlug slug = true <->
      (1 <= String.length slug <= 50)%nat /\ all_chars slug_class slug = true)
  /\ (forall (cfg : securityConfig) (pathname slug : string),
        routeOf cfg pathname = ToSlug slug ->
        slug = substring1 pathname /\ validateSlug slug = true)
  /\ (forall (N : NodeHttp) (cfg : securityConfig) (now : Z) (req : request)
             (s : state) (slug : string),
        pathname req = "/" +:+ slug ->
        gate_admits cfg now req s = true ->
        slug = "" \/
          (String.length slug = 51%nat /\ startsWith "api/" slug = false) ->
        let s' := onRequest cfg now req s in
        (exists error : string,
            reply (sink_of s' (next_sink s)) = Some (400%Z, ErrorJson error))
        /\ pendingRequests s' = pendingRequests s
        /\ capturing s' = capturing s)
  /\ (forall (cfg : securityConfig) (slug : string),
        String.length slug = 50%nat ->
        all_chars slug_class slug = true ->
        slugWhitelist cfg = [] \/ includes (slugWhitelist cfg) slug = true ->
        routeOf cfg ("/" +:+ slug) = ToSlug slug).
Proof.
  split; [exact validateSlug_iff|].
  split; [exact routeOf_ToSlug|].
  split.
  - intros N cfg now req s slug Hpath Hgate Hslug s'.
    destruct (after_gate_fields cfg now req s)
      as (_ & Hpend & _ & Hcap & _).
    subst s'. rewrite (onRequest_admitted cfg now req s Hgate), Hpath.
    cbv zeta. destruct Hslug as [->|[Hlen Hapi]].
    + rewrite routeOf_slash by (discriminate || reflexivity). simpl.
      unfold replyError. rewrite sink_of_put_eq.
      split; [eexists; reflexivity|]. split; assumption.
    + assert (Hlogin : slug <> "auth/login") by (intros ->; discriminate).
      assert (Hstatus : slug <> "status") by (intros ->; discriminate).
      rewrite routeOf_slash by assumption.
      assert (Ht : truthy slug = true) by (destruct slug; [discriminate|reflexivity]).
      assert (Hv : validateSlug slug = false).
      { destruct (validateSlug slug) eqn:Hv; [|reflexivity].
        apply validateSlug_iff in Hv. lia. }
      rewrite Ht, Hv. simpl.
      unfold replyError. rewrite sink_of_put_eq.
      split; [eexists; reflexivity|]. split; assumption.
  - intros cfg slug Hlen Hall Hwl.
    assert (Hlogin : slug <> "auth/login") by (intros ->; discriminate).
    assert (Hstatus : slug <> "status") by (intros ->; discriminate).
    assert (Hapi : startsWith "api/" slug = false).
    { destruct (startsWith "api/" slug) eqn:Hp; [|reflexivity].
      apply prefix_append in Hp as [rest ->].
      rewrite all_chars_append in Hall. discriminate. }
    rewrite routeOf_slash by assumption.
    assert (Ht : truthy slug = true) by (destruct slug; [discriminate|reflexivity]).
    assert (Hv : validateSlug slug = true) by (apply validateSlug_iff; split; [lia|auto]).
    rewrite Ht, Hv. simpl.
    destruct Hwl as [-> | ->]; [reflexivity|].
    rewrite andb_false_r. reflexivity.
Qed.

Lemma slug_validation_witness :
  (exists error : string,
      reply (sink_of (onRequest defaults 0 (plain_get "/") init) 0)
      = Some (400%Z, ErrorJson error))
  /\ (exists error : string,
        reply (sink_of (onRequest defaults 0 (plain_get ("/" +:+ slug51)) init) 0)
        = Some (400%Z, ErrorJson error))
  /\ routeOf defaults ("/" +:+ slug50) = ToSlug slug50
  /\ validateSlug slug50 = true.
Proof.
  destruct slug_validation as (_ & Honly & Hreject & Haccept).
  assert (H50 : routeOf defaults ("/" +:+ slug50) = ToSlug slug50).
  { apply Haccept; [reflexivity | reflexivity | left; reflexivity]. }
  split; [|split; [|split]].
  - apply (Hreject Node.checks defaults 0%Z (plain_get "/") init "");
      [reflexivity | reflexivity | left; reflexivity].
  - apply (Hreject Node.checks defaults 0%Z (plain_get ("/" +:+ slug51)) init slug51);
      [reflexivity | reflexivity | right; split; reflexivity].
  - exact H50.
  - apply (Honly defaults _ _ H50).
Defined.



Lemma collectRequestData_oversize (cfg : securityConfig) (req : request) :
  (0 <= maxRequestSize cfg)%Z ->
  collectRequestData cfg (Some req) = inr BodyTooLarge <->
  (maxRequestSize cfg < Z.of_nat (body_size (chunks req)))%Z.
Proof.
  intros Hmax. unfold collectRequestData.
  pose proof (accumulate_None (maxRequestSize cfg) (chunks req) "" Hmax) as Hacc.
  simpl in Hacc. rewrite <- Hacc.
  destruct (accumulate _ _ _) as [body|].
  - split; [|discriminate].
    destruct (ends req); [|discriminate].
    destruct (negb _ || negb _); discriminate.
  - split; reflexivity.
Qed.

(** C3. What the code does with a body over the limit. The capture gives up
    at the first chunk that takes the body over [maxRequestSize], whatever
    follows it and however the stream ends, and a body of at most the limit
    is never refused for its size; but the refusal reaches the caller as
    500 [Internal server error], counted in [failedResponses], not as
    413. *)
Theorem oversize_body_is_answered_500 :
  (forall (cfg : securityConfig) (req : request),
      (0 <= maxRequestSize cfg)%Z ->
      collectRequestData cfg (Some req) = inr BodyTooLarge <->
      (maxRequestSize cfg < Z.of_nat (body_size (chunks req)))%Z)
  /\ (forall (cfg : securityConfig) (now : Z) (requestId : reqid)
             (send_ok : bool) (s : state) (t : task) (req : request),
        JsMap.get requestId (capturing s) = Some t ->
        t_req t = Some req ->
        (0 <= maxRequestSize cfg)%Z ->
        (maxRequestSize cfg < Z.of_nat (body_size (chunks req)))%Z ->
        headersSent (sink_of s (t_res t)) = false ->
        let s' := handleRequestWithClient_resume cfg now requestId send_ok s in
        reply (sink_of s' (t_res t))
        = Some (500%Z, ErrorJson "Internal server error")
        /\ failedResponses (stats s') = S (failedResponses (stats s))
        /\ pendingRequests s' = pendingRequests s).
Proof.
  split; [exact collectRequestData_oversize|].
  intros cfg now requestId send_ok s t req Hget Hreq Hmax Hsize Hunsent s'.
  subst s'. unfold handleRequestWithClient_resume.
  apply collectRequestData_oversize in Hsize; [|exact Hmax].
  rewrite Hget, Hreq, Hsize. unfold replyError_unless_sent.
  rewrite sink_of_put_eq. simpl.
  change (sink_of _ (t_res t)) with (sink_of s (t_res t)).
  rewrite writeError_unless_sent_fresh by exact Hunsent.
  repeat split.
Qed.

Lemma oversize_body_is_answered_500_witness :
  let s := run small init
             [Connected 7; Message 10 7 (registration "svc-a");
              Request 20 (post "/svc-a" ["hel"; "lo"; "!"])] in
  reply (sink_of (step small s (Captured 21 0 true)) 0)
  = Some (500%Z, ErrorJson "Internal server error").
Proof.
  destruct oversize_body_is_answered_500 as [_ Hreply].
  refine (proj1 (Hreply small 21%Z 0%nat true
                   (run small init
                      [Connected 7; Message 10 7 (registration "svc-a");
                       Request 20 (post "/svc-a" ["hel"; "lo"; "!"])])
                   (mkTask 20 (Some (post "/svc-a" ["hel"; "lo"; "!"])) 0 "svc-a" 7)
                   (post "/svc-a" ["hel"; "lo"; "!"]) _ _ _ _ _)).
  - reflexivity.
  - reflexivity.
  - simpl. lia.
  - simpl. lia.
  - reflexivity.
Defined.

End Admission.

(** ** Ids and sinks are never shared *)
Module Invariant.
Import Js Http Config Validator RateLimit Broker BrokerFacts.

Lemma filter_sublist {A} (f : A -> bool) (l : list A) :
  List.filter f l `sublist_of` l.
Proof.
  induction l as [|x l IH]; simpl; [constructor|].
  destruct (f x); [apply sublist_skip | apply sublist_cons]; exact IH.
Qed.

Lemma filter_split {A} (f : A -> bool) (l : list A) :
  l ≡ₚ List.filter f l ++ List.filter (fun x => negb (f x)) l.
Proof.
  induction l as [|x l IH]; simpl; [reflexivity|].
  destruct (f x); simpl.
  - rewrite <- IH. reflexivity.
  - rewrite <- Permutation_middle, <- IH. reflexivity.
Qed.

Lemma NoDup_sub {A} (l k : list A) : l ⊆+ k -> NoDup k -> NoDup l.
Proof.
  intros Hsub Hnd. apply submseteq_Permutation in Hsub as [k' Hk].
  rewrite Hk in Hnd. apply NoDup_app in Hnd. tauto.
Qed.

Lemma Forall_sub {A} (P : A -> Prop) (l k : list A) :
  l ⊆+ k -> Forall P k -> Forall P l.
Proof.
  intros Hsub Hk. apply Forall_forall. intros x Hx.
  rewrite Forall_forall in Hk. apply Hk. eapply elem_of_submseteq; eauto.
Qed.

Lemma wf_evolves (s s' : state) : wf s -> evolves s s' -> wf s'.
Proof.
  intros [Hi Hib Hr Hrb Hu]
         [newi news gone Hids Hni Hnib Hle Hrefs Hnr Hnrb Hle' Hframe Hfresh].
  rewrite Forall_forall in Hib, Hrb, Hu, Hnib, Hnrb.
  assert (Hnd : NoDup (refs s' ++ gone)).
  { eapply NoDup_sub; [exact Hrefs|]. apply NoDup_app. repeat split; auto.
    intros x Hx Hx'. specialize (Hnrb x Hx). specialize (Hrb x Hx'). lia. }
  apply NoDup_app in Hnd as (Hnd & Hdisj & _).
  assert (Hin : forall r, r ∈ refs s' -> r ∈ news \/ r ∈ refs s).
  { intros r Hr'. apply elem_of_app.
    eapply elem_of_submseteq; [|exact Hrefs]. apply elem_of_app. auto. }
  constructor.
  - eapply NoDup_sub; [exact Hids|]. apply NoDup_app. repeat split; auto.
    intros x Hx Hx'. specialize (Hnib x Hx). specialize (Hib x Hx'). lia.
  - apply Forall_forall. intros k Hk.
    eapply elem_of_submseteq in Hk; [|exact Hids].
    apply elem_of_app in Hk as [Hk|Hk].
    + specialize (Hnib k Hk). lia.
    + specialize (Hib k Hk). lia.
  - exact Hnd.
  - apply Forall_forall. intros r Hr'. destruct (Hin r Hr') as [Hn|Ho].
    + specialize (Hnrb r Hn). lia.
    + specialize (Hrb r Ho). lia.
  - apply Forall_forall. intros r Hr'. destruct (Hin r Hr') as [Hn|Ho].
    + auto.
    + rewrite Hframe; auto.
Qed.

(** An orphan sink stays an orphan, and nobody writes it. *)
Lemma orphan_evolves (s s' : state) (r : sink) :
  evolves s s' -> orphan r s ->
  orphan r s' /\ sink_of s' r = sink_of s r.
Proof.
  intros [newi news gone _ _ _ _ Hrefs _ Hnrb Hle' Hframe _] [Hlt Hnot].
  rewrite Forall_forall in Hnrb.
  assert (Hold : forall x, x ∈ refs s' ++ gone -> (x < next_sink s)%nat ->
                           x ∈ refs s).
  { intros x Hx Hxlt. eapply elem_of_submseteq in Hx; [|exact Hrefs].
    apply elem_of_app in Hx as [Hx|Hx]; [|exact Hx].
    specialize (Hnrb x Hx). lia. }
  split; [split|].
  - lia.
  - intros Hin. apply Hnot, Hold; [apply elem_of_app; auto | exact Hlt].
  - apply Hframe; [exact Hlt|].
    intros Hin. apply Hnot, Hold; [apply elem_of_app; auto | exact Hlt].
Qed.

(** A callback that only drops. *)
Lemma evolves_shrink (s s' : state) (gone : list sink) :
  ids s' ⊆+ ids s ->
  next_requestId s' = next_requestId s ->
  refs s' ++ gone ⊆+ refs s ->
  next_sink s' = next_sink s ->
  (forall r, (r < next_sink s)%nat -> r ∉ gone -> sink_of s' r = sink_of s r) ->
  evolves s s'.
Proof.
  intros Hids Hni Hrefs Hns Hframe.
  apply (Evolves s s' [] [] gone); simpl; auto; try lia;
    try (apply NoDup_nil_2).
  intros r Hr. apply elem_of_nil in Hr. contradiction.
Qed.

(** [evolves] looks at five fields only. *)
Lemma evolves_same (s s' : state) :
  pendingRequests s' = pendingRequests s ->
  capturing s' = capturing s ->
  sinks s' = sinks s ->
  next_requestId s' = next_requestId s ->
  next_sink s' = next_sink s ->
  evolves s s'.
Proof.
  intros Hp Hc Hk Hi Hr.
  apply (evolves_shrink s s' []); unfold ids, refs, sink_of;
    rewrite ?Hp, ?Hc, ?Hk, ?app_nil_r; auto.
Qed.

Lemma evolves_proper (s0 s s' s1 : state) :
  pendingRequests s0 = pendingRequests s ->
  capturing s0 = capturing s ->
  sinks s0 = sinks s ->
  next_requestId s0 = next_requestId s ->
  next_sink s0 = next_sink s ->
  pendingRequests s1 = pendingRequests s' ->
  capturing s1 = capturing s' ->
  sinks s1 = sinks s' ->
  next_requestId s1 = next_requestId s' ->
  next_sink s1 = next_sink s' ->
  evolves s0 s' -> evolves s s1.
Proof.
  intros Hp Hc Hk Hi Hr Hp' Hc' Hk' Hi' Hr'
         [newi news gone H1 H2 H3 H4 H5 H6 H7 H8 H9 H10].
  apply (Evolves s s1 newi news gone); unfold ids, refs, sink_of in *;
    rewrite ?Hp', ?Hc', ?Hk', ?Hi', ?Hr'; rewrite <- ?Hp, <- ?Hc, <- ?Hk, <- ?Hi, <- ?Hr;
    assumption.
Qed.

(** The calls that [processPendingRequestsForSlug] suspends. *)
Lemma suspend_all (now : Z) (slug : string) (client : session)
    (l : list (reqid * pending)) :
  forall s,
  let s' := fold_left
              (fun s e => handleRequestWithClient now (p_req e.2) (p_res e.2)
                                                  slug client s) l s in
  clients s' = clients s /\ pendingRequests s' = pendingRequests s
  /\ sinks s' = sinks s /\ sockets s' = sockets s /\ outbox s' = outbox s
  /\ next_sink s' = next_sink s
  /\ next_requestId s' = (next_requestId s + length l)%nat
  /\ capturing s' = capturing s ++ suspended now slug client (next_requestId s) l
  /\ totalRequests (stats s') = (totalRequests (stats s) + length l)%nat
  /\ successfulResponses (stats s') = successfulResponses (stats s)
  /\ failedResponses (stats s') = failedResponses (stats s).
Proof.
  induction l as [|e l IH]; intros s; simpl.
  - rewrite app_nil_r, !Nat.add_0_r. repeat split.
  - specialize (IH (handleRequestWithClient now (p_req e.2) (p_res e.2)
                                            slug client s)).
    simpl in IH.
    destruct IH as (Hc & Hp & Hk & Hso & Ho & Hns & Hni & Hcap & Ht & Hsu & Hf).
    rewrite Hc, Hp, Hk, Hso, Ho, Hns, Hni, Hcap, Ht, Hsu, Hf.
    repeat split; try lia.
    rewrite <- app_assoc. unfold suspended. simpl. rewrite Nat.add_0_r.
    do 2 f_equal.
    apply imap_ext. intros i x _. simpl. f_equal. lia.
Qed.

Lemma keys_suspended (now : Z) (slug : string) (client : session)
    (l : list (reqid * pending)) :
  forall first,
  JsMap.keys (suspended now slug client first l) = seq first (length l).
Proof.
  unfold JsMap.keys, suspended.
  induction l as [|e l IH]; intros first; [reflexivity|].
  rewrite imap_cons, fmap_cons. simpl. rewrite Nat.add_0_r. f_equal.
  rewrite <- (IH (S first)). f_equal.
  apply imap_ext. intros i x _. simpl. f_equal. lia.
Qed.

Lemma refs_suspended (now : Z) (slug : string) (client : session)
    (l : list (reqid * pending)) :
  forall first,
  (fun e => t_res e.2) <$> suspended now slug client first l
  = (fun e => p_res e.2) <$> l.
Proof.
  unfold suspended.
  induction l as [|e l IH]; intros first; [reflexivity|].
  rewrite imap_cons, !fmap_cons. simpl. f_equal.
  rewrite <- (IH (S first)). f_equal.
  apply imap_ext. intros i x _. simpl. f_equal. lia.
Qed.

(** The replies that [rejectPendingRequestsForSlug] writes. *)
Lemma cancel_all (status : Z) (error : string) (l : list (reqid * pending)) :
  forall s,
  let s' := fold_left
              (fun s e => replyError_unless_sent status error (p_res e.2) s) l s in
  s' = with_sinks (sinks s') s
  /\ forall r,
       sink_of s' r =
       if decide (r ∈ (fun e => p_res e.2) <$> l)
       then writeError_unless_sent status error (sink_of s r)
       else sink_of s r.
Proof.
  induction l as [|e l IH]; intros s; simpl.
  - split; [destruct s; reflexivity|]. intros r.
    destruct (decide (r ∈ [])) as [Hin|_]; [|reflexivity].
    apply elem_of_nil in Hin. contradiction.
  - specialize (IH (replyError_unless_sent status error (p_res e.2) s)).
    simpl in IH. destruct IH as [Heq Hsink]. split.
    + rewrite Heq. reflexivity.
    + intros r. rewrite Hsink. unfold replyError_unless_sent.
      destruct (decide (r = p_res e.2)) as [->|Hne].
      * rewrite sink_of_put_eq.
        rewrite (decide_True (P := _ ∈ _ :: _)) by (apply elem_of_cons; auto).
        destruct (decide _); [|reflexivity].
        apply writeError_unless_sent_sent, headersSent_writeError_unless_sent.
      * rewrite sink_of_put_ne by congruence.
        destruct (decide (r ∈ _ <$> l)) as [Hin|Hnin].
        -- rewrite decide_True by (apply elem_of_cons; auto). reflexivity.
        -- rewrite decide_False; [reflexivity|].
           intros [?|?]%elem_of_cons; contradiction.
Qed.

Lemma wf_ext (s s' : state) :
  pendingRequests s' = pendingRequests s ->
  capturing s' = capturing s ->
  sinks s' = sinks s ->
  next_requestId s' = next_requestId s ->
  next_sink s' = next_sink s ->
  wf s -> wf s'.
Proof.
  intros Hp Hc Hk Hi Hr [H1 H2 H3 H4 H5].
  constructor; unfold ids, refs, sink_of in *; rewrite ?Hp, ?Hc, ?Hk, ?Hi, ?Hr;
    assumption.
Qed.

Lemma refs_split (m1 m2 : JsMap.t reqid pending) (k : reqid) (rd : pending)
    (c : list (reqid * task)) :
  (((fun e => p_res e.2) <$> (m1 ++ m2)) ++ ((fun e => t_res e.2) <$> c))
  ++ [p_res rd]
  ≡ₚ ((fun e => p_res e.2) <$> (m1 ++ (k, rd) :: m2))
     ++ ((fun e => t_res e.2) <$> c).
Proof.
  rewrite !fmap_app, fmap_cons. simpl.
  rewrite <- Permutation_cons_append, <- !app_assoc. simpl.
  symmetry. rewrite <- Permutation_middle. reflexivity.
Qed.

(** A record leaves the pending table and its sink is written. *)
Lemma evolves_complete (s : state) (requestId : reqid) (rd : pending)
    (k : sink_state) (st : statistics) lg sc cl rl so ob :
  JsMap.get requestId (pendingRequests s) = Some rd ->
  evolves s (mkState cl (JsMap.delete requestId (pendingRequests s)) st lg sc rl
              (capturing s) (<[p_res rd := k]> (sinks s)) so ob
              (next_requestId s) (next_sink s)).
Proof.
  intros Hget.
  destruct (get_split _ _ _ Hget) as (m1 & m2 & Hm & Hk & Hdel).
  apply (evolves_shrink s _ [p_res rd]); simpl; auto.
  - unfold ids. simpl. rewrite Hdel, Hm. apply submseteq_skips_r.
    apply sublist_submseteq. unfold JsMap.keys.
    rewrite !fmap_app, fmap_cons. apply sublist_app; [reflexivity|].
    apply sublist_cons. reflexivity.
  - unfold refs. simpl. rewrite Hdel, Hm.
    apply Permutation_submseteq, refs_split.
  - intros r _ Hr. unfold sink_of. simpl.
    rewrite lookup_insert_ne; [reflexivity|].
    intros <-. apply Hr. apply list_elem_of_singleton. reflexivity.
Qed.

Lemma evolves_onTimeout (now : Z) (requestId : reqid) (s : state) :
  evolves s (onTimeout now requestId s).
Proof.
  destruct (JsMap.get requestId (pendingRequests s)) as [rd|] eqn:Hget.
  - destruct (onTimeout_found now requestId s rd Hget) as (e & lg & sc & ->).
    apply evolves_complete; assumption.
  - unfold onTimeout. rewrite Hget. apply evolves_same; reflexivity.
Qed.

Lemma evolves_handleClientResponse `{NodeHttp} (now : Z) (slug : string)
    (requestId : reqid) (response : response) (s : state) :
  evolves s (handleClientResponse now slug requestId response s).
Proof.
  destruct (JsMap.get requestId (pendingRequests s)) as [rd|] eqn:Hget.
  - destruct (handleClientResponse_found now slug requestId response s rd Hget)
      as (k & st & lg & sc & -> & _).
    apply evolves_complete; assumption.
  - unfold handleClientResponse. rewrite Hget.
    apply evolves_same; reflexivity.
Qed.

Lemma wf_NoDup_pending (s : state) :
  wf s -> NoDup (JsMap.keys (pendingRequests s)).
Proof. intros [Hi _ _ _ _]. apply NoDup_app in Hi. tauto. Qed.

Lemma refs_filter_split (sel : reqid * pending -> bool)
    (m : JsMap.t reqid pending) (c : list sink) :
  (((fun e => p_res e.2) <$> List.filter (fun e => negb (sel e)) m) ++ c)
  ++ ((fun e => p_res e.2) <$> List.filter sel m)
  ≡ₚ ((fun e => p_res e.2) <$> m) ++ c.
Proof.
  rewrite (filter_split sel m) at 3. rewrite fmap_app.
  rewrite <- !app_assoc. rewrite (Permutation_app_comm c).
  rewrite !app_assoc. apply Permutation_app_tail, Permutation_app_comm.
Qed.

Lemma evolves_rejectPendingRequestsForSlug (slug : string) (s : state) :
  wf s -> evolves s (rejectPendingRequestsForSlug slug s).
Proof.
  intros Hwf.
  rewrite rejectPendingRequestsForSlug_closed by (apply wf_NoDup_pending, Hwf).
  match goal with |- context [fold_left ?f ?l s] =>
    destruct (cancel_all 503 "No active WebSocket client for this slug" l s)
      as [Heq Hsink]; simpl in Heq, Hsink; rewrite Heq end.
  apply (evolves_shrink s _
           ((fun e => p_res e.2) <$> List.filter (has_slug slug) (pendingRequests s)));
    simpl; auto.
  - unfold ids. simpl. apply submseteq_skips_r, sublist_submseteq.
    unfold JsMap.keys. apply fmap_sublist, filter_sublist.
  - unfold refs. simpl. apply Permutation_submseteq, refs_filter_split.
  - intros r _ Hr. specialize (Hsink r). rewrite decide_False in Hsink by exact Hr.
    unfold sink_of in *. simpl. rewrite Heq in Hsink. exact Hsink.
Qed.

Lemma evolves_removeClient (ws : session) (s : state) :
  wf s -> evolves s (removeClient ws s).
Proof.
  intros Hwf. unfold removeClient. destruct (decide (ws ∈ statusClients s)).
  - apply evolves_same; reflexivity.
  - match goal with |- context [List.find ?f ?l] =>
      destruct (List.find f l) as [[slug client]|] end;
      [|apply evolves_same; reflexivity].
    apply (evolves_proper (with_clients (JsMap.delete slug (clients s)) s) s
             (rejectPendingRequestsForSlug slug
                (with_clients (JsMap.delete slug (clients s)) s)));
      try reflexivity.
    apply evolves_rejectPendingRequestsForSlug.
    apply (wf_ext s); [reflexivity..|exact Hwf].
Qed.

Lemma evolves_performMemoryCleanup (now : Z) (s : state) :
  evolves s (performMemoryCleanup now s).
Proof.
  unfold performMemoryCleanup. cbv zeta.
  match goal with |- evolves s (if ?c then addLog _ _ _ ?s1 else _) =>
    assert (H1 : evolves s s1);
      [|destruct c; [apply (evolves_proper s s s1); try reflexivity; exact H1
                    |exact H1]] end.
  apply (evolves_shrink s _ []); simpl; auto.
  - unfold ids. simpl. apply submseteq_skips_r, sublist_submseteq.
    unfold JsMap.keys. apply fmap_sublist, filter_sublist.
  - unfold refs. simpl. rewrite app_nil_r.
    apply submseteq_skips_r, sublist_submseteq, fmap_sublist, filter_sublist.
Qed.

Lemma evolves_resume (cfg : securityConfig) (now : Z) (requestId : reqid)
    (send_ok : bool) (s : state) :
  wf s -> evolves s (handleRequestWithClient_resume cfg now requestId send_ok s).
Proof.
  intros Hwf.
  destruct (JsMap.get requestId (capturing s)) as [t|] eqn:Hget;
    [|unfold handleRequestWithClient_resume; rewrite Hget;
      apply evolves_same; reflexivity].
  destruct (get_split _ _ _ Hget) as (c1 & c2 & Hc & Hk & Hdel).
  assert (Hfailed : (exists e, collectRequestData cfg (t_req t) = inr e)
                    \/ send_ok = false ->
                    evolves s (handleRequestWithClient_resume cfg now requestId
                                                              send_ok s)).
  { intros Hf.
    destruct (resume_failed cfg now requestId send_ok s t Hget Hf)
      as (error & lg & sc & ->).
    apply (evolves_shrink s _ [t_res t]); simpl; auto.
    - unfold ids. simpl. rewrite Hdel, Hc. apply submseteq_skips_l.
      apply sublist_submseteq. unfold JsMap.keys.
      rewrite !fmap_app, fmap_cons. apply sublist_app; [reflexivity|].
      apply sublist_cons. reflexivity.
    - unfold refs. simpl. rewrite Hdel, Hc. rewrite !fmap_app, fmap_cons. simpl.
      rewrite <- !app_assoc. apply Permutation_submseteq.
      do 2 apply Permutation_app_head. symmetry. apply Permutation_cons_append.
    - intros r _ Hr. unfold sink_of. simpl.
      rewrite lookup_insert_ne; [reflexivity|].
      intros <-. apply Hr. apply list_elem_of_singleton. reflexivity. }
  destruct (collectRequestData cfg (t_req t)) as [data|e] eqn:Hdata;
    [|apply Hfailed; eauto].
  destruct send_ok; [|apply Hfailed; auto].
  destruct (resume_forwarded cfg now requestId s t data Hget Hdata)
    as (lg & sc & ->).
  assert (Hfresh : requestId ∉ JsMap.keys (pendingRequests s)).
  { destruct Hwf as [Hi _ _ _ _]. unfold ids in Hi.
    apply NoDup_app in Hi as (_ & Hdisj & _). intros Hin.
    apply (Hdisj _ Hin). rewrite Hc. unfold JsMap.keys.
    rewrite fmap_app, fmap_cons. apply elem_of_app. right.
    apply elem_of_cons. auto. }
  rewrite set_notin by assumption.
  apply (evolves_shrink s _ []); simpl; auto.
  - unfold ids. simpl. rewrite Hdel, Hc. unfold JsMap.keys.
    rewrite !fmap_app, fmap_cons. simpl. rewrite <- !app_assoc. simpl.
    apply Permutation_submseteq, Permutation_app_head.
    apply (Permutation_middle (fst <$> c1) (fst <$> c2) requestId).
  - unfold refs. simpl. rewrite Hdel, Hc, app_nil_r.
    rewrite !fmap_app, fmap_cons. simpl. rewrite <- !app_assoc. simpl.
    apply Permutation_submseteq, Permutation_app_head.
    apply (Permutation_middle ((fun e => t_res e.2) <$> c1)
                              ((fun e => t_res e.2) <$> c2) (t_res t)).
Qed.

Lemma evolves_processPendingRequestsForSlug (now : Z) (slug : string)
    (client : session) (s : state) :
  wf s -> evolves s (processPendingRequestsForSlug now slug client s).
Proof.
  intros Hwf.
  rewrite processPendingRequestsForSlug_closed by (apply wf_NoDup_pending, Hwf).
  match goal with |- context [fold_left ?f ?l s] =>
    pose proof (suspend_all now slug client l s) as Hs; simpl in Hs;
    set (l0 := l) in *; set (s1 := fold_left f l0 s) in * end.
  destruct Hs as (_ & _ & Hsinks & _ & _ & Hns & Hni & Hcap & _).
  apply (Evolves s _ (seq (next_requestId s) (length l0)) [] []); simpl;
    rewrite ?Hni, ?Hns; auto; try lia.
  - unfold ids. simpl. rewrite Hcap, keys_app, keys_suspended.
    rewrite (Permutation_app_comm (seq _ _)). rewrite app_assoc.
    apply submseteq_skips_r, submseteq_skips_r, sublist_submseteq.
    apply fmap_sublist, filter_sublist.
  - apply NoDup_seq.
  - apply Forall_forall. intros k Hk. apply elem_of_seq in Hk. lia.
  - unfold refs. simpl. rewrite Hcap, app_nil_r, fmap_app, refs_suspended.
    rewrite app_assoc.
    apply Permutation_submseteq. apply refs_filter_split.
  - constructor.
  - intros r _ _. unfold sink_of. simpl. rewrite Hsinks. reflexivity.
  - intros r Hr. apply elem_of_nil in Hr. contradiction.
Qed.

Lemma evolves_registerClient (now : Z) (ws : session) (slug : string) (s : state) :
  wf s -> evolves s (registerClient now ws slug s).
Proof.
  intros Hwf. unfold registerClient. cbv zeta.
  match goal with |- context [with_clients _ ?s1] => set (s0 := s1) end.
  assert (H0 : wf s0).
  { subst s0. destruct (JsMap.get slug (clients s)) as [existing|]; [|exact Hwf].
    destruct (readyState s existing =? OPEN)%nat; [|exact Hwf].
    eapply wf_ext; [..|exact Hwf]; reflexivity. }
  assert (Hsame : pendingRequests s0 = pendingRequests s
                  /\ capturing s0 = capturing s /\ sinks s0 = sinks s
                  /\ next_requestId s0 = next_requestId s
                  /\ next_sink s0 = next_sink s).
  { subst s0. destruct (JsMap.get slug (clients s)) as [existing|];
      [destruct (readyState s existing =? OPEN)%nat|]; repeat split. }
  destruct Hsame as (E1 & E2 & E3 & E4 & E5).
  apply (evolves_proper (with_clients (JsMap.set slug ws (clients s0)) s0) s
           (processPendingRequestsForSlug now slug ws
              (with_clients (JsMap.set slug ws (clients s0)) s0)));
    simpl; auto.
  apply evolves_processPendingRequestsForSlug.
  apply (wf_ext s0); [reflexivity..|exact H0].
Qed.

Lemma evolves_handleWebSocketMessage `{NodeHttp} (now : Z) (ws : session)
    (m : message) (s : state) :
  wf s -> evolves s (handleWebSocketMessage now ws m s).
Proof.
  intros Hwf. unfold handleWebSocketMessage.
  assert (Hsend : forall f, evolves s (send ws f s))
    by (intros f; apply evolves_same; reflexivity).
  destruct (bool_decide _); [apply evolves_same; reflexivity|].
  destruct (m_slug m) as [slug|]; [|apply Hsend].
  destruct (m_requestId m) as [requestId|].
  - destruct (m_response m) as [response|]; [|apply Hsend].
    destruct (truthy slug); [|apply Hsend].
    apply evolves_handleClientResponse.
  - destruct (truthy slug); [|apply Hsend].
    destruct (String.eqb slug "status"); [apply Hsend|].
    apply evolves_registerClient, Hwf.
Qed.

Lemma evolves_onRequest `{NodeHttp} (cfg : securityConfig) (now : Z)
    (req : request) (s : state) :
  wf s -> evolves s (onRequest cfg now req s).
Proof.
  intros Hwf.
  destruct (after_gate_fields cfg now req s)
    as (Hcl & Hp & _ & Hc & Hso & _ & Hi & Hr & Hk).
  simpl in *.
  set (s1 := after_gate cfg now req s) in *.
  assert (Hfresh : next_requestId s ∉ JsMap.keys (pendingRequests s)).
  { destruct Hwf as [_ Hib _ _ _]. rewrite Forall_forall in Hib.
    intros Hin. assert (Hx : next_requestId s ∈ ids s)
      by (apply elem_of_app; auto).
    specialize (Hib _ Hx). lia. }
  (* a reply on the new sink, and nothing else *)
  assert (Hwrite : forall s2,
            pendingRequests s2 = pendingRequests s ->
            capturing s2 = capturing s ->
            next_requestId s2 = next_requestId s ->
            next_sink s2 = S (next_sink s) ->
            (forall r, r <> next_sink s -> sinks s2 !! r = sinks s !! r) ->
            evolves s s2).
  { intros s2 H1 H2 H3 H4 H5.
    apply (Evolves s s2 [] [] []); unfold ids, refs, sink_of;
      rewrite ?H1, ?H2, ?H3, ?H4, ?app_nil_r; simpl; auto; try lia;
      try apply NoDup_nil_2.
    - intros r Hlt _. rewrite H5 by lia. reflexivity.
    - intros r Hin. apply elem_of_nil in Hin. contradiction. }
  assert (Hother : forall r, r <> next_sink s -> sinks s1 !! r = sinks s !! r).
  { intros r Hne. rewrite Hk, lookup_insert_ne by congruence. reflexivity. }
  assert (Hreply : forall status error s2,
            pendingRequests s2 = pendingRequests s ->
            capturing s2 = capturing s ->
            next_requestId s2 = next_requestId s ->
            next_sink s2 = S (next_sink s) ->
            (forall r, r <> next_sink s -> sinks s2 !! r = sinks s !! r) ->
            evolves s (replyError status error (next_sink s) s2)).
  { intros status error s2 H1 H2 H3 H4 H5. apply Hwrite; simpl; auto.
    intros r Hne. rewrite lookup_insert_ne by congruence. auto. }
  (* the request is queued: a new record on the new sink *)
  assert (Hqueue : forall slug,
            evolves s (handleRequestWithoutClient now req (next_sink s) slug s1)).
  { intros slug. unfold handleRequestWithoutClient. cbv zeta. simpl.
    rewrite Hi, Hp, set_notin by exact Hfresh.
    apply (Evolves s _ [next_requestId s] [next_sink s] []);
      unfold ids, refs, sink_of; simpl; rewrite ?Hi, ?Hr, ?Hc, ?app_nil_r;
      try lia.
    - rewrite keys_app. simpl. rewrite <- app_assoc. simpl.
      apply Permutation_submseteq. symmetry. apply Permutation_middle.
    - apply NoDup_singleton.
    - repeat constructor; lia.
    - rewrite fmap_app. simpl. rewrite <- app_assoc. simpl.
      apply Permutation_submseteq. symmetry. apply Permutation_middle.
    - apply NoDup_singleton.
    - repeat constructor; lia.
    - intros r Hlt _. rewrite Hother by lia. reflexivity.
    - intros r Hin _. apply list_elem_of_singleton in Hin. subst r.
      rewrite Hk, lookup_insert_eq. reflexivity. }
  destruct (gate_admits cfg now req s) eqn:Hgate.
  - rewrite (onRequest_admitted cfg now req s Hgate). cbv zeta. fold s1.
    destruct (routeOf cfg (pathname req)); auto.
    destruct (JsMap.get slug _) as [client|]; [|apply Hqueue].
    destruct (readyState _ client =? OPEN)%nat; [|apply Hqueue].
    (* the request is handed to the client: a new call on the new sink *)
    apply (Evolves s _ [next_requestId s] [next_sink s] []);
      unfold ids, refs, sink_of; simpl; rewrite ?Hi, ?Hr, ?Hc, ?Hp, ?app_nil_r;
      try lia.
    + rewrite keys_app. simpl. apply Permutation_submseteq.
      rewrite app_assoc. symmetry. apply Permutation_cons_append.
    + apply NoDup_singleton.
    + repeat constructor; lia.
    + rewrite fmap_app. simpl. apply Permutation_submseteq.
      rewrite app_assoc. symmetry. apply Permutation_cons_append.
    + apply NoDup_singleton.
    + repeat constructor; lia.
    + intros r Hlt _. rewrite Hother by lia. reflexivity.
    + intros r Hin _. apply list_elem_of_singleton in Hin. subst r.
      rewrite Hk, lookup_insert_eq. reflexivity.
  - rewrite (onRequest_limited cfg now req s Hgate). fold s1. auto.
Qed.

Lemma evolves_step `{NodeHttp} (cfg : securityConfig) (s : state) (e : event) :
  wf s -> evolves s (step cfg s e).
Proof.
  intros Hwf. destruct e; simpl.
  - apply evolves_onRequest, Hwf.
  - apply evolves_resume, Hwf.
  - apply evolves_same; reflexivity.
  - apply evolves_same; reflexivity.
  - apply evolves_handleWebSocketMessage, Hwf.
  - apply evolves_same; reflexivity.
  - apply (evolves_proper (with_sockets (<[ws := CLOSED]> (sockets s)) s) s
             (removeClient ws (with_sockets (<[ws := CLOSED]> (sockets s)) s)));
      try reflexivity.
    apply evolves_removeClient.
    apply (wf_ext s); [reflexivity..|exact Hwf].
  - apply evolves_onTimeout.
  - apply evolves_performMemoryCleanup.
Qed.

Lemma wf_step (cfg : securityConfig) `{NodeHttp} (s : state) (e : event) :
  wf s -> wf (step cfg s e).
Proof. intros Hwf. eapply wf_evolves; [exact Hwf | apply evolves_step, Hwf]. Qed.

Lemma wf_run `{NodeHttp} (cfg : securityConfig) (trace : list event) :
  forall s, wf s -> wf (run cfg s trace).
Proof.
  induction trace as [|e trace IH]; intros s Hwf; simpl; [exact Hwf|].
  apply IH, wf_step, Hwf.
Qed.

Lemma wf_init : wf init.
Proof. constructor; simpl; constructor. Qed.

Lemma wf_reachable `{NodeHttp} (cfg : securityConfig) (s : state) :
  reachable cfg s -> wf s.
Proof. intros [trace ->]. apply wf_run, wf_init. Qed.

(** Once a sink is an orphan in a well-formed state, no run writes it. *)
Lemma orphan_run `{NodeHttp} (cfg : securityConfig) (r : sink)
    (trace : list event) :
  forall s, wf s -> orphan r s ->
  sink_of (run cfg s trace) r = sink_of s r.
Proof.
  induction trace as [|e trace IH]; intros s Hwf Ho; simpl; [reflexivity|].
  destruct (orphan_evolves s (step cfg s e) r (evolves_step cfg s e Hwf) Ho)
    as [Ho' Heq].
  rewrite (IH _ (wf_step cfg s e Hwf) Ho'). exact Heq.
Qed.

End Invariant.

(** ** Dispatch: responses, session loss, drain *)
Module Dispatch.
Import Js Http Node Config Validator RateLimit Broker.
Import BrokerFacts Invariant Examples.

Lemma get_delete_NoDup {V} (m : JsMap.t reqid V) (k : reqid) :
  NoDup (JsMap.keys m) -> JsMap.get k (JsMap.delete k m) = None.
Proof.
  intros Hnd. destruct (JsMap.get k m) as [v|] eqn:Hget.
  - destruct (get_split m k v Hget) as (m1 & m2 & -> & Hk1 & ->).
    rewrite keys_app in Hnd. simpl in Hnd.
    apply NoDup_app in Hnd as (_ & _ & Hnd).
    apply NoDup_cons in Hnd as [Hk2 _].
    apply get_None. rewrite keys_app. intros [?|?]%elem_of_app; contradiction.
  - apply get_None in Hget. rewrite delete_notin by exact Hget.
    apply get_None. exact Hget.
Qed.

Lemma setHeaders_accepted `{NodeHttp} (entries : list (string * string)) :
  forall k : sink_state,
  Forall (fun e => setHeader_ok e.1 e.2 = true) entries ->
  headersSent k = false ->
  setHeaders entries k = (mkSink (sent_headers k ++ entries) (reply k), true).
Proof.
  induction entries as [|[key value] rest IH]; intros k Hok Hunsent; simpl.
  - rewrite app_nil_r. destruct k. reflexivity.
  - apply Forall_cons in Hok as [Hkv Hrest]. simpl in Hkv.
    unfold setHeader. rewrite Hunsent, Hkv.
    rewrite IH by assumption. simpl. rewrite <- app_assoc. reflexivity.
Qed.

Lemma pending_unsent (s : state) (requestId : reqid) (rd : pending) :
  wf s -> JsMap.get requestId (pendingRequests s) = Some rd ->
  headersSent (sink_of s (p_res rd)) = false.
Proof.
  intros [_ _ _ _ Hu] Hget. rewrite Forall_forall in Hu. apply Hu.
  apply elem_of_app. left. apply get_elem_of in Hget.
  change (p_res rd) with ((fun e : reqid * pending => p_res e.2) (requestId, rd)).
  apply list_elem_of_fmap_2. exact Hget.
Qed.

(** The response is written as it came. *)
Lemma handleClientResponse_delivers `{NodeHttp} (now : Z) (slug : string)
    (requestId : reqid) (response : response) (s : state) (rd : pending) :
  JsMap.get requestId (pendingRequests s) = Some rd ->
  headersSent (sink_of s (p_res rd)) = false ->
  Forall (fun e => setHeader_ok e.1 e.2 = true) (default [] (r_headers response)) ->
  writeHead_ok (statusCode_or_200 response) = true ->
  let s' := handleClientResponse now slug requestId response s in
  sink_of s' (p_res rd)
  = mkSink (sent_headers (sink_of s (p_res rd)) ++ default [] (r_headers response))
           (Some (statusCode_or_200 response, Text (body_or_empty response)))
  /\ pendingRequests s' = JsMap.delete requestId (pendingRequests s)
  /\ successfulResponses (stats s') = S (successfulResponses (stats s))
  /\ failedResponses (stats s') = failedResponses (stats s)
  /\ totalRequests (stats s') = totalRequests (stats s).
Proof.
  intros Hget Hunsent Hheaders Hstatus s'. subst s'.
  unfold handleClientResponse. rewrite Hget.
  match goal with |- context [setHeaders _ (sink_of ?s0 _)] =>
    change (sink_of s0 (p_res rd)) with (sink_of s (p_res rd)) end.
  rewrite setHeaders_accepted by assumption.
  assert (Hreply : reply (sink_of s (p_res rd)) = None).
  { unfold headersSent in Hunsent. destruct (reply _); [discriminate|reflexivity]. }
  unfold writeHead_end, headersSent. simpl. rewrite Hreply, Hstatus.
  split; [|repeat split].
  match goal with |- sink_of (with_stats _ (addLog _ _ _ ?s0)) _ = _ =>
    change (sink_of s0 (p_res rd) = mkSink
      (sent_headers (sink_of s (p_res rd)) ++ default [] (r_headers response))
      (Some (statusCode_or_200 response, Text (body_or_empty response)))) end.
  apply sink_of_put_eq.
Qed.

Lemma handleWebSocketMessage_response `{NodeHttp} (now : Z) (ws : session)
    (m : message) (slug : string) (requestId : reqid) (response : response)
    (s : state) :
  m_type m <> Some "status-client" ->
  m_slug m = Some slug -> truthy slug = true ->
  m_requestId m = Some requestId -> m_response m = Some response ->
  handleWebSocketMessage now ws m s
  = handleClientResponse now slug requestId response s.
Proof.
  intros Htype Hslug Ht Hid Hresp. unfold handleWebSocketMessage.
  rewrite bool_decide_eq_false_2 by exact Htype.
  rewrite Hslug, Hid, Hresp, Ht. reflexivity.
Qed.

(** The slug a frame names reaches the log and nothing else. *)
Lemma handleClientResponse_any_slug `{NodeHttp} (now : Z) (slug slug' : string)
    (requestId : reqid) (response : response) (s : state) :
  let s1 := handleClientResponse now slug requestId response s in
  let s2 := handleClientResponse now slug' requestId response s in
  pendingRequests s2 = pendingRequests s1 /\ sinks s2 = sinks s1
  /\ stats s2 = stats s1.
Proof.
  unfold handleClientResponse.
  destruct (JsMap.get requestId (pendingRequests s)) as [rd|]; [|repeat split].
  repeat match goal with
         | |- context [setHeaders ?l (sink_of ?s0 ?r)] =>
             lazymatch s0 with
             | s => fail
             | _ => change (sink_of s0 r) with (sink_of s r)
             end
         end.
  destruct (setHeaders _ (sink_of s (p_res rd))) as [k1 ok].
  destruct ok; [destruct (writeHead_end _ _ k1)|]; repeat split.
Qed.

(** C1, as the code has it. A response frame is taken for the pending
    record that carries its request id, whichever session sent it and
    whatever slug it names: the record leaves the table, its reply sink is
    written and one of the two outcome counters goes up. Only when no
    record carries the id is the frame dropped, with an [error] entry in
    the log and the table, the sinks and the counters as they were. *)
Theorem response_is_matched_by_id_alone `{NodeHttp} (now : Z) (ws : session)
    (m : message) (slug : string) (requestId : reqid) (response : response)
    (s : state) :
  m_type m <> Some "status-client" ->
  m_slug m = Some slug -> truthy slug = true ->
  m_requestId m = Some requestId -> m_response m = Some response ->
  let s' := handleWebSocketMessage now ws m s in
  (forall ws' : session, handleWebSocketMessage now ws' m s = s')
  /\ (forall slug' : string,
        let s2 := handleClientResponse now slug' requestId response s in
        pendingRequests s2 = pendingRequests s' /\ sinks s2 = sinks s'
        /\ stats s2 = stats s')
  /\ match JsMap.get requestId (pendingRequests s) with
     | Some rd =>
         pendingRequests s' = JsMap.delete requestId (pendingRequests s)
         /\ headersSent (sink_of s' (p_res rd)) = true
         /\ (successfulResponses (stats s') + failedResponses (stats s')
             = S (successfulResponses (stats s) + failedResponses (stats s)))%nat
     | None =>
         pendingRequests s' = pendingRequests s /\ sinks s' = sinks s
         /\ stats s' = stats s
         /\ last (logs s') = Some (mkLog now LError (NoPendingRequest requestId))
     end.
Proof.
  intros Htype Hslug Ht Hid Hresp s'. subst s'.
  rewrite (handleWebSocketMessage_response now ws m slug requestId response s)
    by assumption.
  split; [|split].
  - intros ws'. apply handleWebSocketMessage_response; assumption.
  - intros slug'. apply handleClientResponse_any_slug.
  - destruct (JsMap.get requestId (pendingRequests s)) as [rd|] eqn:Hget.
    + destruct (handleClientResponse_found now slug requestId response s rd Hget)
        as (k & st & lg & sc & -> & _ & Hcount & Hk).
      simpl. split; [reflexivity|]. split; [|exact Hcount].
      unfold sink_of. simpl. rewrite lookup_insert_eq. exact Hk.
    + unfold handleClientResponse. rewrite Hget.
      repeat split. apply last_logs_addLog.
Qed.

Lemma response_is_matched_by_id_alone_witness :
  let s := run defaults init
             [Connected 1; Message 10 1 (registration "svc-a");
              Request 20 (plain_get "/svc-a"); Captured 21 0 true] in
  pendingRequests
    (handleWebSocketMessage 30 1 (response_to "svc-a" 0 (ok_response "ok")) s)
  = JsMap.delete 0 (pendingRequests s).
Proof.
  exact (proj1 (proj2 (proj2
    (response_is_matched_by_id_alone 30%Z 1%nat
       (response_to "svc-a" 0 (ok_response "ok")) "svc-a" 0%nat (ok_response "ok")
       (run defaults init
          [Connected 1; Message 10 1 (registration "svc-a");
           Request 20 (plain_get "/svc-a"); Captured 21 0 true])
       ltac:(discriminate) eq_refl eq_refl eq_refl eq_refl)))).
Defined.

(** C1 as stated fails: session 2 holds no slug, names a slug that is not
    the record's, and its response is delivered all the same. *)
Lemma response_from_a_stranger_is_delivered :
  let s := run defaults init
             [Connected 1; Connected 2; Message 10 1 (registration "svc-a");
              Request 20 (plain_get "/svc-a"); Captured 21 0 true] in
  let s' := step defaults s
              (Message 30 2 (response_to "svc-b" 0 (ok_response "spoofed"))) in
  JsMap.get "svc-a" (clients s) = Some 1%nat
  /\ List.find (fun '(_, client) => (client =? 2)%nat) (clients s) = None
  /\ p_slug <$> JsMap.get 0%nat (pendingRequests s) = Some "svc-a"
  /\ JsMap.get 0%nat (pendingRequests s') = None
  /\ reply (sink_of s' 0) = Some (200%Z, Text "spoofed").
Proof. vm_compute. repeat split. Qed.



Lemma NoDup_fmap_elem {A B} (f : A -> B) (l : list A) (x y : A) :
  NoDup (f <$> l) -> x ∈ l -> y ∈ l -> f x = f y -> x = y.
Proof.
  induction l as [|a l IH]; intros Hnd Hx Hy Hf.
  - apply elem_of_nil in Hx. contradiction.
  - rewrite fmap_cons in Hnd. apply NoDup_cons in Hnd as [Ha Hnd].
    apply elem_of_cons in Hx as [->|Hx]; apply elem_of_cons in Hy as [->|Hy]; auto.
    + exfalso. apply Ha. rewrite Hf. apply list_elem_of_fmap_2. exact Hy.
    + exfalso. apply Ha. rewrite <- Hf. apply list_elem_of_fmap_2. exact Hx.
Qed.

Lemma elem_of_filter_bool {A} (f : A -> bool) (l : list A) (x : A) :
  x ∈ List.filter f l <-> x ∈ l /\ f x = true.
Proof. rewrite !list_elem_of_In. apply filter_In. Qed.

Lemma has_slug_true (slug : string) (e : reqid * pending) :
  has_slug slug e = true <-> p_slug e.2 = slug.
Proof. unfold has_slug. apply String.eqb_eq. Qed.

(** What [rejectPendingRequestsForSlug] leaves behind. *)
Lemma rejectPendingRequestsForSlug_effect (slug : string) (s : state) :
  wf s ->
  let s' := rejectPendingRequestsForSlug slug s in
  (clients s' = clients s /\ stats s' = stats s /\ capturing s' = capturing s)
  /\ pendingRequests s'
     = List.filter (fun e => negb (has_slug slug e)) (pendingRequests s)
  /\ (forall e, e ∈ pendingRequests s -> has_slug slug e = true ->
        reply (sink_of s' (p_res e.2))
        = Some (503%Z, ErrorJson "No active WebSocket client for this slug"))
  /\ (forall e, e ∈ pendingRequests s -> has_slug slug e = false ->
        e ∈ pendingRequests s' /\ sink_of s' (p_res e.2) = sink_of s (p_res e.2)).
Proof.
  intros Hwf s'. subst s'.
  rewrite rejectPendingRequestsForSlug_closed by (apply wf_NoDup_pending, Hwf).
  match goal with |- context [fold_left ?f ?l s] =>
    destruct (cancel_all 503 "No active WebSocket client for this slug" l s)
      as [Heq Hsink]; simpl in Heq, Hsink;
    remember (fold_left f l s) as c eqn:Hc_def; clear Hc_def end.
  assert (Hs : forall F r, sink_of (with_pendingRequests F c) r = sink_of c r)
    by reflexivity.
  split; [rewrite Heq; repeat split|]. split; [reflexivity|].
  split.
  - intros e Hin Hsel. rewrite Hs, Hsink.
    rewrite decide_True.
    + rewrite writeError_unless_sent_fresh; [reflexivity|].
      destruct e as [k rd]. eapply pending_unsent; [exact Hwf|].
      apply get_NoDup; [apply wf_NoDup_pending, Hwf | exact Hin].
    + apply (list_elem_of_fmap_2 (fun e : reqid * pending => p_res e.2)).
      apply elem_of_filter_bool. auto.
  - intros e Hin Hsel. split.
    + apply elem_of_filter_bool. rewrite Hsel. auto.
    + rewrite Hs, Hsink. rewrite decide_False; [reflexivity|].
      intros Hgone. apply list_elem_of_fmap in Hgone as (e' & Hres & Hin').
      apply elem_of_filter_bool in Hin' as [Hin' Hsel'].
      assert (He : e = e').
      { destruct Hwf as [_ _ Hr _ _]. unfold refs in Hr.
        apply NoDup_app in Hr as (Hr & _ & _).
        eapply NoDup_fmap_elem; [exact Hr|..]; eauto. }
      subst e'. congruence.
Qed.

(** C4, as the code has it. When a session that holds a slug (and is not a
    dashboard session) is lost, the binding is removed and every pending
    record of that slug, forwarded or still queued, is answered 503 and
    leaves the table; the records of the other slugs stay, untouched. *)
Theorem session_loss_cancels_the_slug `{NodeHttp} (cfg : securityConfig)
    (s : state) (ws : session) (slug : string) (client : session) :
  reachable cfg s ->
  ws ∉ statusClients s ->
  List.find (fun '(_, c) => (c =? ws)%nat) (clients s) = Some (slug, client) ->
  let s' := step cfg s (Closed ws) in
  clients s' = JsMap.delete slug (clients s)
  /\ pendingRequests s'
     = List.filter (fun e => negb (has_slug slug e)) (pendingRequests s)
  /\ (forall requestId rd,
        (requestId, rd) ∈ pendingRequests s -> p_slug rd = slug ->
        reply (sink_of s' (p_res rd))
        = Some (503%Z, ErrorJson "No active WebSocket client for this slug"))
  /\ (forall requestId rd,
        (requestId, rd) ∈ pendingRequests s -> p_slug rd <> slug ->
        (requestId, rd) ∈ pendingRequests s'
        /\ sink_of s' (p_res rd) = sink_of s (p_res rd)).
Proof.
  intros Hreach Hstatus Hfind s'. subst s'. simpl. unfold removeClient. simpl.
  rewrite decide_False by exact Hstatus. rewrite Hfind.
  pose proof (wf_reachable cfg s Hreach) as Hwf.
  set (s0 := with_clients _ _).
  assert (Hwf0 : wf s0) by (apply (wf_ext s); [reflexivity..|exact Hwf]).
  destruct (rejectPendingRequestsForSlug_effect slug s0 Hwf0)
    as ((Hc & _ & _) & Hp & Hgone & Hkept).
  split; [exact Hc|]. split; [exact Hp|]. split.
  - intros requestId rd Hin Hslug.
    apply (Hgone (requestId, rd) Hin). apply has_slug_true. exact Hslug.
  - intros requestId rd Hin Hslug.
    apply (Hkept (requestId, rd) Hin).
    destruct (has_slug slug (requestId, rd)) eqn:Hsel; [|reflexivity].
    apply has_slug_true in Hsel. contradiction.
Qed.

Lemma session_loss_cancels_the_slug_witness :
  let s := run defaults init
             [Connected 7; Message 10 7 (registration "svc-a");
              Request 20 (plain_get "/svc-a"); Captured 21 0 true] in
  pendingRequests (step defaults s (Closed 7)) = [].
Proof.
  refine (proj1 (proj2 (session_loss_cancels_the_slug defaults
            (run defaults init
               [Connected 7; Message 10 7 (registration "svc-a");
                Request 20 (plain_get "/svc-a"); Captured 21 0 true])
            7%nat "svc-a" 7%nat _ _ _))).
  - eexists. reflexivity.
  - apply (bool_decide_unpack _). vm_compute. exact I.
  - reflexivity.
Defined.

(** C4 as stated fails: the handler's socket is closing, a request for its
    slug is queued unforwarded, and the loss of the session answers that
    queued request 503 and removes it. *)
Lemma session_loss_cancels_a_queued_record :
  let s := run defaults init
             [Connected 7; Message 10 7 (registration "svc-a");
              ReadyState 7 CLOSING; Request 20 (plain_get "/svc-a")] in
  let s' := step defaults s (Closed 7) in
  is_forwarded <$> JsMap.get 0%nat (pendingRequests s) = Some false
  /\ capturing s = []
  /\ JsMap.get 0%nat (pendingRequests s') = None
  /\ reply (sink_of s' 0)
     = Some (503%Z, ErrorJson "No active WebSocket client for this slug").
Proof. vm_compute. repeat split. Qed.

Lemma get_set_eq {K V} `{EqDecision K} (m : JsMap.t K V) (k : K) (v : V) :
  JsMap.get k (JsMap.set k v m) = Some v.
Proof.
  induction m as [|[k' v'] m IH]; simpl.
  - destruct (decide (k = k)); congruence.
  - destruct (decide (k = k')) as [->|Hne]; simpl.
    + destruct (decide (k' = k')); congruence.
    + destruct (decide (k = k')); [congruence|exact IH].
Qed.

(** What a registration does to the table and to the suspended calls. *)
Lemma registerClient_effect (now : Z) (ws : session) (slug : string) (s : state) :
  wf s ->
  let s' := registerClient now ws slug s in
  let queue := List.filter (has_slug slug) (pendingRequests s) in
  pendingRequests s'
  = List.filter (fun e => negb (has_slug slug e)) (pendingRequests s)
  /\ capturing s' = capturing s ++ suspended now slug ws (next_requestId s) queue
  /\ JsMap.get slug (clients s') = Some ws
  /\ sinks s' = sinks s
  /\ next_requestId s' = (next_requestId s + length queue)%nat
  /\ totalRequests (stats s') = (totalRequests (stats s) + length queue)%nat
  /\ successfulResponses (stats s') = successfulResponses (stats s)
  /\ failedResponses (stats s') = failedResponses (stats s).
Proof.
  intros Hwf s' queue. subst s'. unfold registerClient. cbv zeta.
  match goal with |- context [with_clients _ ?s1] => set (s0 := s1) end.
  assert (Hsame : pendingRequests s0 = pendingRequests s
                  /\ capturing s0 = capturing s /\ sinks s0 = sinks s
                  /\ next_requestId s0 = next_requestId s
                  /\ next_sink s0 = next_sink s /\ stats s0 = stats s).
  { subst s0. destruct (JsMap.get slug (clients s)) as [existing|];
      [destruct (readyState s existing =? OPEN)%nat|]; repeat split. }
  destruct Hsame as (E1 & E2 & E3 & E4 & E5 & E6).
  set (s1 := with_clients (JsMap.set slug ws (clients s0)) s0).
  assert (F1 : pendingRequests s1 = pendingRequests s) by exact E1.
  assert (F2 : capturing s1 = capturing s) by exact E2.
  assert (F3 : sinks s1 = sinks s) by exact E3.
  assert (F4 : next_requestId s1 = next_requestId s) by exact E4.
  assert (F5 : stats s1 = stats s) by exact E6.
  assert (F6 : JsMap.get slug (clients s1) = Some ws) by apply get_set_eq.
  clearbody s1. clear s0 E1 E2 E3 E4 E5 E6.
  rewrite (processPendingRequestsForSlug_closed now slug ws s1)
    by (rewrite F1; apply wf_NoDup_pending, Hwf).
  pose proof (suspend_all now slug ws
                (List.filter (has_slug slug) (pendingRequests s1)) s1) as Hs.
  cbv zeta in Hs.
  destruct Hs as (Hcl & _ & Hk & _ & _ & _ & Hni & Hcap & Ht & Hsu & Hf).
  simpl. rewrite Hcl, Hk, Hni, Hcap, Ht, Hsu, Hf, F1, F2, F3, F4, F5, F6.
  repeat split.
Qed.




End Dispatch.

(** ** The periodic cleanup *)
Module Cleanup.
Import Js Http Node Config Validator RateLimit Broker.
Import BrokerFacts Invariant Dispatch Examples.

Lemma performMemoryCleanup_fields (now : Z) (s : state) :
  let s' := performMemoryCleanup now s in
  pendingRequests s'
  = List.filter (fun e => negb (p_timestamp e.2 <? now - 300000)%Z)
                (pendingRequests s)
  /\ sinks s' = sinks s /\ capturing s' = capturing s
  /\ next_sink s' = next_sink s
  /\ totalRequests (stats s') = totalRequests (stats s)
  /\ successfulResponses (stats s') = successfulResponses (stats s)
  /\ failedResponses (stats s') = failedResponses (stats s).
Proof.
  unfold performMemoryCleanup. cbv zeta.
  match goal with |- context [if ?c then _ else _] => destruct c end;
    simpl; (split; [apply List.filter_ext; intros [k rd]; reflexivity
                   |repeat split]).
Qed.



End Cleanup.

(** ** The counters *)

Module Accounting.
Import Js Http Node Config Validator RateLimit Broker.
Import BrokerFacts Invariant Dispatch Cleanup Examples.

Lemma forwarded_in_app (l1 l2 : list (reqid * pending)) :
  forwarded_in (l1 ++ l2) = (forwarded_in l1 + forwarded_in l2)%nat.
Proof. unfold forwarded_in. rewrite List.filter_app, length_app. reflexivity. Qed.

Lemma forwarded_in_cons (e : reqid * pending) (l : list (reqid * pending)) :
  forwarded_in (e :: l)
  = ((if is_forwarded e.2 then 1 else 0) + forwarded_in l)%nat.
Proof. unfold forwarded_in. simpl. destruct (is_forwarded e.2); reflexivity. Qed.

Lemma forwarded_in_split (sel : reqid * pending -> bool)
    (l : list (reqid * pending)) :
  forwarded_in l
  = (forwarded_in (List.filter (fun e => negb (sel e)) l)
     + forwarded_in (List.filter sel l))%nat.
Proof.
  induction l as [|e l IH]; [reflexivity|].
  simpl. destruct (sel e); simpl; rewrite !forwarded_in_cons, IH; lia.
Qed.

Lemma forwarded_in_delete (m : JsMap.t reqid pending) (k : reqid) (rd : pending) :
  JsMap.get k m = Some rd ->
  forwarded_in m
  = ((if is_forwarded rd then 1 else 0) + forwarded_in (JsMap.delete k m))%nat.
Proof.
  intros Hget. destruct (get_split m k rd Hget) as (m1 & m2 & -> & _ & ->).
  rewrite !forwarded_in_app, forwarded_in_cons. simpl. lia.
Qed.

Lemma length_delete {V : Type} (m : JsMap.t reqid V) (k : reqid) (v : V) :
  JsMap.get k m = Some v -> length m = S (length (JsMap.delete k m)).
Proof.
  intros Hget. destruct (get_split m k v Hget) as (m1 & m2 & -> & _ & ->).
  rewrite !length_app. simpl. lia.
Qed.

Lemma handleWebSocketMessage_classify `{NodeHttp} (now : Z) (ws : session)
    (m : message) (s : state) :
  handleWebSocketMessage now ws m s =
  match classify m with
  | AttachDashboard => with_statusClients ({[ws]} ∪ statusClients s) s
  | Register slug => registerClient now ws slug s
  | RegisterReserved => send ws (ErrorHint reserved_error) s
  | Respond slug requestId response =>
      handleClientResponse now slug requestId response s
  | Malformed => send ws (ErrorHint "Invalid message format") s
  end.
Proof.
  unfold handleWebSocketMessage, classify.
  destruct (bool_decide _); [reflexivity|].
  destruct (m_slug m) as [slug|]; [|reflexivity].
  destruct (m_requestId m) as [requestId|].
  - destruct (m_response m) as [response|]; [|reflexivity].
    destruct (truthy slug); reflexivity.
  - destruct (truthy slug); [|reflexivity].
    destruct (String.eqb slug "status"); reflexivity.
Qed.

Lemma accounted_same (s s' : state) :
  pendingRequests s' = pendingRequests s -> capturing s' = capturing s ->
  stats s' = stats s ->
  totalRequests (stats s') = totalRequests (stats s)
  /\ accounted s' = accounted s.
Proof.
  unfold accounted, forwardedCount. intros -> -> ->. split; reflexivity.
Qed.

Lemma handleRequestWithClient_accounting (now : Z) (req : option request)
    (res : sink) (slug : string) (client : session) (s : state) :
  let s' := handleRequestWithClient now req res slug client s in
  totalRequests (stats s') = S (totalRequests (stats s))
  /\ accounted s' = S (accounted s).
Proof.
  unfold handleRequestWithClient, accounted, forwardedCount. simpl.
  rewrite length_app. simpl. split; lia.
Qed.

Lemma handleRequestWithoutClient_accounting (now : Z) (req : request)
    (res : sink) (slug : string) (s : state) :
  next_requestId s ∉ JsMap.keys (pendingRequests s) ->
  let s' := handleRequestWithoutClient now req res slug s in
  stats s' = stats s /\ accounted s' = accounted s
  /\ pendingRequests s'
     = pendingRequests s
       ++ [(next_requestId s, mkPending res QueueWait slug (Some req) now None)].
Proof.
  intros Hnew. unfold handleRequestWithoutClient, accounted, forwardedCount. simpl.
  rewrite set_notin by exact Hnew.
  rewrite forwarded_in_app. unfold forwarded_in at 2. simpl.
  repeat split. lia.
Qed.

Lemma next_requestId_fresh (s : state) :
  wf s -> next_requestId s ∉ JsMap.keys (pendingRequests s).
Proof.
  intros Hwf Hin. pose proof (wf_ids_bound s Hwf) as Hb.
  rewrite Forall_forall in Hb. specialize (Hb (next_requestId s)).
  unfold ids in Hb. rewrite elem_of_app in Hb. specialize (Hb (or_introl Hin)). lia.
Qed.

Lemma onRequest_accounting `{NodeHttp} (cfg : securityConfig) (now : Z)
    (req : request) (s : state) :
  wf s ->
  let s' := onRequest cfg now req s in
  (totalRequests (stats s') + accounted s
   = totalRequests (stats s) + accounted s')%nat.
Proof.
  intros Hwf s'. subst s'.
  destruct (after_gate_fields cfg now req s)
    as (_ & Hp & Hst & Hc & _ & _ & Hn & _ & _).
  destruct (accounted_same s _ Hp Hc Hst) as [Ht Ha].
  assert (Hreply : forall status error res s1,
            accounted (replyError status error res s1) = accounted s1
            /\ stats (replyError status error res s1) = stats s1).
  { intros. split; reflexivity. }
  assert (Hlog : forall m l s1,
            accounted (addLog now m l s1) = accounted s1
            /\ stats (addLog now m l s1) = stats s1).
  { intros. split; reflexivity. }
  destruct (gate_admits cfg now req s) eqn:Hgate.
  - rewrite (onRequest_admitted cfg now req s Hgate). cbv zeta.
    assert (Hq : forall slug,
              let s2 := handleRequestWithoutClient now req (next_sink s) slug
                          (after_gate cfg now req s) in
              (totalRequests (stats s2) + accounted s
               = totalRequests (stats s) + accounted s2)%nat).
    { intros slug s2.
      destruct (handleRequestWithoutClient_accounting now req (next_sink s) slug
                  (after_gate cfg now req s)) as (F1 & F2 & _).
      - rewrite Hn, Hp. apply next_requestId_fresh, Hwf.
      - fold s2 in F1, F2. rewrite F1, F2, Hst, Ha. lia. }
    destruct (routeOf cfg (pathname req));
      repeat first [rewrite (proj1 (Hreply _ _ _ _)), (proj2 (Hreply _ _ _ _))
                   |rewrite (proj1 (Hlog _ _ _)), (proj2 (Hlog _ _ _))];
      try (rewrite Hst, Ha; lia).
    destruct (JsMap.get _ _) as [client|]; [|apply Hq].
    destruct (_ =? OPEN)%nat; [|apply Hq].
    match goal with |- context [handleRequestWithClient ?a ?b ?c ?d ?e ?f] =>
      destruct (handleRequestWithClient_accounting a b c d e f) as [F1 F2] end.
    rewrite F1, F2, Ht, Ha. lia.
  - rewrite (onRequest_limited cfg now req s Hgate).
    rewrite (proj1 (Hreply _ _ _ _)), (proj2 (Hreply _ _ _ _)).
    rewrite (proj1 (Hlog _ _ _)), (proj2 (Hlog _ _ _)).
    rewrite Hst, Ha. lia.
Qed.

Lemma resume_accounting (cfg : securityConfig) (now : Z) (requestId : reqid)
    (send_ok : bool) (s : state) :
  wf s ->
  let s' := handleRequestWithClient_resume cfg now requestId send_ok s in
  totalRequests (stats s') = totalRequests (stats s)
  /\ accounted s' = accounted s.
Proof.
  intros Hwf s'. subst s'.
  destruct (JsMap.get requestId (capturing s)) as [t|] eqn:Hget.
  2:{ unfold handleRequestWithClient_resume. rewrite Hget. split; reflexivity. }
  pose proof (length_delete _ _ _ Hget) as Hlen.
  assert (Hfail : (exists e, collectRequestData cfg (t_req t) = inr e)
                  \/ send_ok = false ->
                  let s' := handleRequestWithClient_resume cfg now requestId send_ok s in
                  totalRequests (stats s') = totalRequests (stats s)
                  /\ accounted s' = accounted s).
  { intros Hf. destruct (resume_failed cfg now requestId send_ok s t Hget Hf)
      as (error & lg & sc & ->).
    unfold accounted, forwardedCount. simpl. split; lia. }
  destruct (collectRequestData cfg (t_req t)) as [data|e] eqn:Hdata.
  2:{ apply Hfail. left. eauto. }
  destruct send_ok; [|apply Hfail; right; reflexivity].
  destruct (resume_forwarded cfg now requestId s t data Hget Hdata)
    as (lg & sc & ->).
  unfold accounted, forwardedCount. simpl.
  rewrite set_notin.
  - rewrite forwarded_in_app. unfold forwarded_in at 2. simpl. split; lia.
  - intros Hin. pose proof (wf_ids s Hwf) as Hnd. unfold ids in Hnd.
    apply NoDup_app in Hnd as (_ & Hdisj & _).
    apply (Hdisj requestId Hin).
    apply get_elem_of in Hget.
    apply (list_elem_of_fmap_2 fst) in Hget. exact Hget.
Qed.

Lemma onTimeout_accounting (now : Z) (requestId : reqid) (s : state) :
  let s' := onTimeout now requestId s in
  totalRequests (stats s') = totalRequests (stats s)
  /\ accounted s' = accounted s.
Proof.
  destruct (JsMap.get requestId (pendingRequests s)) as [rd|] eqn:Hget.
  2:{ unfold onTimeout. rewrite Hget. split; reflexivity. }
  destruct (onTimeout_found now requestId s rd Hget) as (error & lg & sc & ->).
  pose proof (forwarded_in_delete _ _ _ Hget) as Hf.
  unfold accounted, forwardedCount. simpl.
  destruct (is_forwarded rd); simpl; split; lia.
Qed.

Lemma handleClientResponse_accounting `{NodeHttp} (now : Z) (slug : string)
    (requestId : reqid) (response : response) (s : state) :
  let s' := handleClientResponse now slug requestId response s in
  totalRequests (stats s') = totalRequests (stats s)
  /\ (accounted s
      + match JsMap.get requestId (pendingRequests s) with
        | Some requestData => if is_forwarded requestData then 0 else 1
        | None => 0
        end
      = accounted s')%nat.
Proof.
  destruct (JsMap.get requestId (pendingRequests s)) as [rd|] eqn:Hget.
  2:{ unfold handleClientResponse. rewrite Hget. simpl.
      split; [reflexivity|]. unfold accounted, forwardedCount. simpl. lia. }
  destruct (handleClientResponse_found now slug requestId response s rd Hget)
    as (k & st & lg & sc & -> & Ht & Hs & _).
  pose proof (forwarded_in_delete _ _ _ Hget) as Hf.
  unfold accounted, forwardedCount. simpl. split; [exact Ht|].
  destruct (is_forwarded rd); lia.
Qed.

Lemma registerClient_accounting (now : Z) (ws : session) (slug : string)
    (s : state) :
  wf s ->
  let s' := registerClient now ws slug s in
  (totalRequests (stats s') + accounted s
   = totalRequests (stats s) + accounted s' + forwarded_among (has_slug slug) s)%nat.
Proof.
  intros Hwf s'.
  destruct (registerClient_effect now ws slug s Hwf)
    as (Hp & Hc & _ & _ & _ & Ht & Hsu & Hf).
  fold s' in Hp, Hc, Ht, Hsu, Hf.
  unfold accounted, forwardedCount, forwarded_among.
  rewrite Hp, Hc, Ht, Hsu, Hf, length_app.
  unfold suspended. rewrite length_imap.
  rewrite (forwarded_in_split (has_slug slug) (pendingRequests s)). lia.
Qed.

Lemma removeClient_accounting (ws : session) (s : state) :
  wf s ->
  let s' := removeClient ws s in
  totalRequests (stats s') = totalRequests (stats s)
  /\ (accounted s = accounted s' + dropped s (Closed ws))%nat.
Proof.
  intros Hwf. unfold removeClient, dropped.
  destruct (decide (ws ∈ statusClients s));
    [split; [reflexivity|unfold accounted, forwardedCount; simpl; lia]|].
  match goal with |- context [List.find ?f ?l] =>
    destruct (List.find f l) as [[slug client]|] end.
  2:{ split; [reflexivity|lia]. }
  match goal with |- context [rejectPendingRequestsForSlug slug ?s1] =>
    set (s0 := s1) end.
  assert (Hwf0 : wf s0) by (apply (wf_ext s); auto).
  destruct (rejectPendingRequestsForSlug_effect slug s0 Hwf0)
    as ((_ & Hst & Hc) & Hp & _).
  cbv zeta. unfold accounted, forwardedCount, forwarded_among.
  rewrite Hp, Hst, Hc.
  change (pendingRequests s0) with (pendingRequests s).
  change (stats s0) with (stats s). change (capturing s0) with (capturing s).
  rewrite (forwarded_in_split (has_slug slug) (pendingRequests s)).
  split; [reflexivity|lia].
Qed.

Lemma performMemoryCleanup_accounting (now : Z) (s : state) :
  let s' := performMemoryCleanup now s in
  totalRequests (stats s') = totalRequests (stats s)
  /\ (accounted s = accounted s' + dropped s (Cleanup now))%nat.
Proof.
  intros s'.
  destruct (performMemoryCleanup_fields now s) as (Hp & _ & Hc & _ & Ht & Hsu & Hf).
  fold s' in Hp, Hc, Ht, Hsu, Hf.
  unfold dropped. unfold accounted, forwardedCount, forwarded_among.
  rewrite Hp, Hc, Hsu, Hf.
  rewrite (forwarded_in_split (fun e => (p_timestamp e.2 <? now - 300000)%Z)
             (pendingRequests s)).
  split; [exact Ht|lia].
Qed.

(** One callback keeps the books: what it adds to [totalRequests] and
    what it takes for a record never forwarded is what it adds to the
    requests accounted for and what it drops. *)
Lemma step_accounting `{NodeHttp} (cfg : securityConfig) (s : state) (e : event) :
  wf s ->
  (totalRequests (stats (step cfg s e)) + accounted s + answered_unforwarded s e
   = totalRequests (stats s) + accounted (step cfg s e) + dropped s e)%nat.
Proof.
  intros Hwf. destruct e as [now req|now requestId send_ok|ws|ws st|now ws m|ws
                            |ws|now requestId|now]; simpl.
  - pose proof (onRequest_accounting cfg now req s Hwf) as Hr. cbv zeta in Hr. lia.
  - destruct (resume_accounting cfg now requestId send_ok s Hwf) as [Ht Ha].
    rewrite Ht, Ha. lia.
  - unfold accounted, forwardedCount. simpl. lia.
  - unfold accounted, forwardedCount. simpl. lia.
  - rewrite handleWebSocketMessage_classify.
    destruct (classify m) as [|slug| |slug requestId response|].
    + unfold accounted, forwardedCount. simpl. lia.
    + pose proof (registerClient_accounting now ws slug s Hwf) as Hr.
      cbv zeta in Hr. lia.
    + unfold accounted, forwardedCount. simpl. lia.
    + destruct (handleClientResponse_accounting now slug requestId response s)
        as [Ht Ha].
      rewrite Ht, <- Ha. lia.
    + unfold accounted, forwardedCount. simpl. lia.
  - unfold accounted, forwardedCount. simpl. lia.
  - match goal with |- context [removeClient ws ?s1] => set (s0 := s1) end.
    assert (Hwf0 : wf s0) by (apply (wf_ext s); auto).
    destruct (removeClient_accounting ws s0 Hwf0) as [Ht Ha].
    change (dropped s0 (Closed ws)) with
      (if decide (ws ∈ statusClients s) then 0%nat
       else match List.find (fun '(_, client) => (client =? ws)%nat) (clients s) with
            | Some (slug, _) => forwarded_among (has_slug slug) s
            | None => 0%nat
            end) in Ha.
    change (accounted s0) with (accounted s) in Ha.
    change (stats s0) with (stats s) in Ht.
    rewrite Ht. lia.
  - destruct (onTimeout_accounting now requestId s) as [Ht Ha].
    rewrite Ht, Ha. lia.
  - destruct (performMemoryCleanup_accounting now s) as [Ht Ha].
    simpl in Ha. rewrite Ht. lia.
Qed.

Lemma run_accounting `{NodeHttp} (cfg : securityConfig) (trace : list event) :
  forall s, wf s ->
  (totalRequests (stats (run cfg s trace)) + accounted s
   + tally cfg answered_unforwarded s trace
   = totalRequests (stats s) + accounted (run cfg s trace)
     + tally cfg dropped s trace)%nat.
Proof.
  induction trace as [|e trace IH]; intros s Hwf; simpl; [lia|].
  pose proof (step_accounting cfg s e Hwf) as Hs.
  pose proof (IH _ (wf_step cfg s e Hwf)) as Hr.
  lia.
Qed.

Lemma reply_after_gate (cfg : securityConfig) (now : Z) (req : request)
    (s : state) :
  reply (sink_of (after_gate cfg now req s) (next_sink s)) = None.
Proof.
  destruct (after_gate_fields cfg now req s) as (_ & _ & _ & _ & _ & _ & _ & _ & Hk).
  unfold sink_of. rewrite Hk, lookup_insert_eq. reflexivity.
Qed.




End Accounting.

(** * Further properties *)

(** ** What the validators let through *)
Module ValidatorExtra.
Import Regex Js Validator Markup RegexFacts ValidatorFacts.

Lemma append_assoc (s1 s2 s3 : string) :
  (s1 +:+ s2) +:+ s3 = s1 +:+ (s2 +:+ s3).
Proof.
  induction s1 as [|c s1 IH]; [reflexivity|].
  rewrite !append_cons, IH. reflexivity.
Qed.

Lemma all_chars_app (p : ascii -> bool) (s1 s2 : string) :
  all_chars p (s1 +:+ s2) = all_chars p s1 && all_chars p s2.
Proof.
  induction s1 as [|c s1 IH]; [reflexivity|].
  rewrite append_cons. simpl. rewrite IH, andb_assoc. reflexivity.
Qed.

Lemma lang_anything (s : string) : lang anything s.
Proof.
  apply lang_star_sym. induction s as [|c s IH]; [reflexivity|exact IH].
Qed.

(** [/R/.test(s)] finds a match of [R] somewhere in [s]. *)
Lemma test_spec (r : regex) (s : string) :
  test r s = true <->
  exists before found after,
    s = before +:+ found +:+ after /\ lang r found.
Proof.
  unfold test. rewrite matches_lang. split.
  - intros Hl. inversion Hl as [| |r1 r2 s1 s23 H1 H23| | | |]; subst.
    inversion H23 as [| |r1 r2 s2 s3 H2 H3| | | |]; subst.
    exists s1, s2, s3. auto.
  - intros (s1 & s2 & s3 & -> & Hl).
    repeat constructor; auto using lang_anything.
Qed.

Lemma avoids_lang (p : ascii -> bool) (r : regex) (s : string) :
  lang r s -> avoids p r -> all_chars p s = true -> False.
Proof.
  induction 1 as [|q c Hq|r1 r2 s1 s2 H1 IH1 H2 IH2|r1 r2 s H1 IH1
                 |r1 r2 s H2 IH2|r|r s1 s2 H1 IH1 H2 IH2]; simpl;
    try tauto.
  - intros Hav Hp. rewrite (Hav c Hq) in Hp. discriminate.
  - rewrite all_chars_app, andb_true_iff. tauto.
Qed.

Lemma sym_i_markup (c : ascii) :
  markup_char c = true ->
  forall x, (code (fold_case x) =? code (fold_case c))%nat = true ->
            negb (markup_char x) = false.
Proof.
  intros Hc x.
  destruct c as [[] [] [] [] [] [] [] []]; try discriminate Hc;
    destruct x as [[] [] [] [] [] [] [] []]; vm_compute; congruence.
Qed.

Ltac avoids_markup :=
  first [ solve [apply sym_i_markup; reflexivity]
        | left; avoids_markup
        | right; avoids_markup ].

Lemma dangerousPatterns_avoid (pattern : regex) :
  pattern ∈ dangerousPatterns ->
  avoids (fun c => negb (markup_char c)) pattern.
Proof.
  unfold dangerousPatterns. rewrite !elem_of_cons, elem_of_nil.
  intros [->|[->|[->|[->|[->|[->|[->|[]]]]]]]]; simpl; avoids_markup.
Qed.

Lemma validateInput_true (s : string) :
  validateInput (JString s) = true <->
  forall pattern, pattern ∈ dangerousPatterns -> test pattern s = false.
Proof.
  unfold validateInput. rewrite negb_true_iff.
  rewrite <- not_true_iff_false, existsb_exists. split.
  - intros Hno pattern Hin. apply not_true_iff_false. intros Ht.
    apply Hno. exists pattern. split; [apply list_elem_of_In, Hin|exact Ht].
  - intros Hall (pattern & Hin & Ht).
    rewrite (Hall pattern) in Ht by (apply list_elem_of_In, Hin). discriminate.
Qed.

(** X1. The headers that [sanitizeHeaders] hands on are entries of the
    input, none under a hop-by-hop name in any letter case, each with a
    string value that passes [validateInput]; and every such entry of the
    input is handed on unchanged. A value that is an array is dropped. *)
Theorem sanitizeHeaders_keeps_the_safe_entries (headers : gmap string jsval) :
  sanitizeHeaders headers ⊆ headers
  /\ (forall key value,
        sanitizeHeaders headers !! key = Some value ->
        includes dangerousHeaders (toLowerCase key) = false
        /\ validateInput value = true
        /\ exists text, value = JString text)
  /\ (forall key value,
        headers !! key = Some value ->
        includes dangerousHeaders (toLowerCase key) = false ->
        validateInput value = true ->
        key <> "__proto__" ->
        sanitizeHeaders headers !! key = Some value)
  /\ (forall key items,
        headers !! key = Some (JArray items) ->
        sanitizeHeaders headers !! key = None).
Proof.
  split; [|split; [|split]].
  - apply map_subseteq_spec. intros key value.
    rewrite lookup_sanitizeHeaders.
    destruct (headers !! key) as [v|]; [|discriminate].
    destruct (kept key v); [auto|discriminate].
  - intros key value. rewrite lookup_sanitizeHeaders.
    destruct (headers !! key) as [v|]; [|discriminate].
    destruct (kept key v) eqn:Hk; [|discriminate].
    intros [= ->]. unfold kept in Hk.
    apply andb_true_iff in Hk as [Hk _].
    apply andb_true_iff in Hk as [Hd Hv].
    apply negb_true_iff in Hd. repeat split; auto.
    destruct value as [text|items]; [eauto|discriminate].
  - intros key value Hin Hd Hv Hproto. rewrite lookup_sanitizeHeaders, Hin.
    unfold kept. rewrite Hd, Hv.
    destruct (String.eqb_spec key "__proto__"); [contradiction|reflexivity].
  - intros key items Hin. rewrite lookup_sanitizeHeaders, Hin.
    unfold kept. simpl. rewrite andb_false_r. reflexivity.
Qed.

Lemma sanitizeHeaders_keeps_the_safe_entries_witness :
  sanitizeHeaders {[ "x-trace" := JString "abc"; "Host" := JString "h" ]}
    !! "x-trace" = Some (JString "abc").
Proof.
  destruct (sanitizeHeaders_keeps_the_safe_entries
              {[ "x-trace" := JString "abc"; "Host" := JString "h" ]})
    as (_ & _ & Hkeep & _).
  apply Hkeep; [reflexivity | reflexivity | reflexivity | discriminate].
Defined.

(** X2. A string without any of the characters [<], [:], [=] and [(]
    passes [validateInput]: each of the seven patterns needs one of
    them. *)
Theorem validateInput_passes_markup_free (s : string) :
  markup_free s = true -> validateInput (JString s) = true.
Proof.
  intros Hfree. apply validateInput_true. intros pattern Hin.
  apply not_true_iff_false. intros Ht.
  apply test_spec in Ht as (s1 & s2 & s3 & -> & Hl).
  unfold markup_free in Hfree.
  rewrite !all_chars_app, !andb_true_iff in Hfree.
  destruct Hfree as [_ [H2 _]].
  exact (avoids_lang _ _ _ Hl (dangerousPatterns_avoid pattern Hin) H2).
Qed.

Lemma validateInput_passes_markup_free_witness :
  validateInput (JString "/svc-a/items?page 2&sort") = true.
Proof. apply validateInput_passes_markup_free. reflexivity. Defined.

(** X3. [validateInput] looks for its patterns anywhere in the string: a
    string that is refused is refused in every context, so a string that
    passes has no refused part. *)
Theorem validateInput_refuses_in_every_context (before s after : string) :
  validateInput (JString s) = false ->
  validateInput (JString (before +:+ s +:+ after)) = false.
Proof.
  intros Hs. apply not_true_iff_false. intros Hall.
  apply not_true_iff_false in Hs. apply Hs.
  apply validateInput_true. intros pattern Hin.
  rewrite validateInput_true in Hall. specialize (Hall pattern Hin).
  apply not_true_iff_false. intros Ht. apply not_true_iff_false in Hall.
  apply Hall. apply test_spec in Ht as (s1 & s2 & s3 & -> & Hl).
  apply test_spec. exists (before +:+ s1), s2, (s3 +:+ after).
  split; [|exact Hl]. rewrite !append_assoc. reflexivity.
Qed.

Lemma validateInput_refuses_in_every_context_witness :
  validateInput (JString ("/svc-a?next=" +:+ "JavaScript:alert" +:+ "&x")) = false.
Proof. apply validateInput_refuses_in_every_context. reflexivity. Defined.

End ValidatorExtra.

(** ** What the listener lets in *)
Module AdmissionExtra.
Import Regex Js Http Node Config Validator RateLimit Broker.
Import RegexFacts ValidatorFacts BrokerFacts Admission Examples.

Lemma append_nil_r (s : string) : s +:+ "" = s.
Proof.
  induction s as [|c s IH]; [reflexivity|]. rewrite append_cons, IH. reflexivity.
Qed.

Lemma foldl_append (chunks : list string) :
  forall body, foldl String.append body chunks = body +:+ String.concat "" chunks.
Proof.
  induction chunks as [|chunk rest IH]; intros body.
  - simpl. rewrite append_nil_r. reflexivity.
  - change (foldl String.append body (chunk :: rest))
      with (foldl String.append (body +:+ chunk) rest).
    rewrite IH. destruct rest as [|chunk' rest].
    + simpl. apply append_nil_r.
    + change (String.concat "" (chunk :: chunk' :: rest))
        with (chunk +:+ "" +:+ String.concat "" (chunk' :: rest)).
      rewrite append_nil_l. apply ValidatorExtra.append_assoc.
Qed.

Lemma collectRequestData_cases (cfg : securityConfig) (req : request) :
  (0 <= maxRequestSize cfg)%Z ->
  collectRequestData cfg (Some req) =
  if (maxRequestSize cfg <? Z.of_nat (body_size (chunks req)))%Z
  then inr BodyTooLarge
  else if negb (ends req) then inr StreamError
  else if negb (validateInput (JString (method req))
                && validateInput (JString (url req)))
  then inr InvalidMethodOrUrl
  else inl (mkCaptured (method req) (url req) (sanitizeHeaders (headers req))
                       (String.concat "" (chunks req))).
Proof.
  intros Hmax.
  pose proof (collectRequestData_oversize cfg req Hmax) as Hover.
  destruct (Z.ltb_spec (maxRequestSize cfg) (Z.of_nat (body_size (chunks req))))
    as [Hlt|Hle].
  - apply Hover, Hlt.
  - unfold collectRequestData in *.
    destruct (accumulate (maxRequestSize cfg) "" (chunks req)) as [body|] eqn:Hacc.
    + apply accumulate_Some in Hacc as [-> _].
      rewrite foldl_append, append_nil_l.
      destruct (ends req); [|reflexivity]. simpl.
      rewrite negb_andb. reflexivity.
    + assert (maxRequestSize cfg < Z.of_nat (body_size (chunks req)))%Z
        by (apply Hover; reflexivity).
      lia.
Qed.

(** X4. The capture of a request in closed form. It fails for size
    exactly when the chunks together are longer than [maxRequestSize],
    whatever else is wrong with the request; else it fails when the stream
    breaks; else when the method or the URL does not pass [validateInput];
    and else it gives the method and URL as they came, the sanitised
    headers, and the chunks joined in order as the body. *)
Theorem collectRequestData_closed_form (cfg : securityConfig) (req : request) :
  (0 <= maxRequestSize cfg)%Z ->
  collectRequestData cfg (Some req) =
  if (maxRequestSize cfg <? Z.of_nat (body_size (chunks req)))%Z
  then inr BodyTooLarge
  else if negb (ends req) then inr StreamError
  else if negb (validateInput (JString (method req))
                && validateInput (JString (url req)))
  then inr InvalidMethodOrUrl
  else inl (mkCaptured (method req) (url req) (sanitizeHeaders (headers req))
                       (String.concat "" (chunks req))).
Proof. apply collectRequestData_cases. Qed.

Lemma collectRequestData_closed_form_witness :
  collectRequestData small (Some (post "/svc-a" ["ab"; "cd"]))
  = inl (mkCaptured "POST" "/svc-a" ∅ "abcd").
Proof.
  rewrite (collectRequestData_closed_form small (post "/svc-a" ["ab"; "cd"]));
    [reflexivity|]. vm_compute. discriminate.
Defined.

(** X5. Which paths are proxied. The path [/slug] is handed on to
    dispatch exactly when [slug] passes [validateSlug], is not the word
    [status], and is on the whitelist if there is one; no other path is
    handed on, so none with a second [/], none longer than 51 characters. *)
Theorem routeOf_proxies_exactly_the_valid_slugs (cfg : securityConfig) :
  (forall slug : string,
      routeOf cfg ("/" +:+ slug) = ToSlug slug <->
      validateSlug slug = true /\ slug <> "status"
      /\ (slugWhitelist cfg = [] \/ includes (slugWhitelist cfg) slug = true))
  /\ (forall pathname slug : string,
        routeOf cfg pathname = ToSlug slug ->
        (String.length pathname <= 51)%nat
        /\ all_chars slug_class (substring1 pathname) = true).
Proof.
  split.
  - intros slug. split.
    + unfold routeOf. rewrite append_cons, append_nil_l.
      destruct (String.eqb _ "/auth/login"); [discriminate|].
      destruct (String.eqb_spec (String "/"%char slug) "/status") as [|Hst];
        [discriminate|].
      destruct (startsWith "/api/" _); [discriminate|].
      cbv [substring1].
      destruct (truthy slug); [|discriminate]. simpl.
      destruct (validateSlug slug); [|discriminate]. simpl.
      destruct (String.eqb slug "status"); [discriminate|].
      destruct (includes (slugWhitelist cfg) slug) eqn:Hinc.
      * intros _. repeat split; auto. congruence.
      * destruct (slugWhitelist cfg) as [|w ws]; [|discriminate].
        intros _. repeat split; auto. congruence.
    + intros (Hv & Hst & Hw).
      pose proof (proj1 (validateSlug_iff slug) Hv) as [[Hlo Hhi] Hall].
      assert (Hlogin : slug <> "auth/login") by (intros ->; discriminate).
      assert (Hapi : startsWith "api/" slug = false).
      { destruct (startsWith "api/" slug) eqn:Hp; [|reflexivity].
        apply prefix_append in Hp as [rest ->].
        rewrite all_chars_append in Hall. discriminate. }
      rewrite (routeOf_slash cfg slug Hlogin Hst Hapi), Hv.
      destruct slug as [|c slug]; [simpl in Hlo; lia|]. simpl.
      destruct Hw as [-> | ->]; [reflexivity|].
      rewrite andb_false_r. reflexivity.
  - intros pathname slug Hroute.
    apply routeOf_ToSlug in Hroute as [-> Hv].
    apply validateSlug_iff in Hv as [[_ Hhi] Hall].
    split; [|exact Hall].
    destruct pathname as [|c rest]; simpl in *; lia.
Qed.

Lemma routeOf_proxies_exactly_the_valid_slugs_witness :
  routeOf defaults "/svc-a" = ToSlug "svc-a".
Proof.
  destruct (routeOf_proxies_exactly_the_valid_slugs defaults) as [Hiff _].
  apply (Hiff "svc-a"). split; [reflexivity|].
  split; [discriminate|left; reflexivity].
Defined.

End AdmissionExtra.

(** ** What every callback keeps *)
Module Frame.
Import Js Http Node Config Validator RateLimit Broker Probes.
Import BrokerFacts Invariant Examples.

Lemma tame_refl (s : state) : tame s s.
Proof. constructor; auto. Qed.

Lemma tame_trans (s1 s2 s3 : state) : tame s1 s2 -> tame s2 s3 -> tame s1 s3.
Proof.
  intros [A1 A2 A3 A4 A5 A6] [B1 B2 B3 B4 B5 B6].
  constructor; try lia; try congruence; auto.
Qed.

Lemma length_slice_last {A} (n : nat) (l : list A) :
  (length (slice_last n l) <= n)%nat.
Proof. unfold slice_last. rewrite length_skipn. lia. Qed.

Lemma tame_addLog (now : Z) (text : log_message) (lv : level) (s : state) :
  tame s (addLog now text lv s).
Proof.
  constructor; simpl; auto. intros _.
  destruct (Nat.ltb_spec maxLogs (length (logs s ++ [mkLog now lv text])));
    [apply length_slice_last | assumption].
Qed.

Lemma tame_pushResponseTime (t : option Z) (s : state) :
  tame s (with_stats (pushResponseTime t (stats s)) s).
Proof.
  constructor; simpl; auto. intros _.
  destruct (Nat.ltb_spec 100 (length (responseTimes (stats s) ++ [t])));
    [apply length_slice_last | assumption].
Qed.

Lemma tame_incTotal (s : state) : tame s (with_stats (incTotal (stats s)) s).
Proof. constructor; simpl; auto. Qed.

Lemma tame_incSucceeded (s : state) :
  tame s (with_stats (incSucceeded (stats s)) s).
Proof. constructor; simpl; auto. Qed.

Lemma tame_incFailed (s : state) : tame s (with_stats (incFailed (stats s)) s).
Proof. constructor; simpl; auto. Qed.

Lemma tame_with_clients v (s : state) : tame s (with_clients v s).
Proof. constructor; simpl; auto. Qed.

Lemma tame_with_pendingRequests v (s : state) : tame s (with_pendingRequests v s).
Proof. constructor; simpl; auto. Qed.

Lemma tame_with_statusClients v (s : state) : tame s (with_statusClients v s).
Proof. constructor; simpl; auto. Qed.

Lemma tame_with_capturing v (s : state) : tame s (with_capturing v s).
Proof. constructor; simpl; auto. Qed.

Lemma tame_with_sockets v (s : state) : tame s (with_sockets v s).
Proof. constructor; simpl; auto. Qed.

Lemma tame_with_next_requestId v (s : state) : tame s (with_next_requestId v s).
Proof. constructor; simpl; auto. Qed.

Lemma tame_put_sink res k (s : state) : tame s (put_sink res k s).
Proof. constructor; simpl; auto. Qed.

Lemma tame_replyError status error res (s : state) :
  tame s (replyError status error res s).
Proof. constructor; simpl; auto. Qed.

Lemma tame_replyError_unless_sent status error res (s : state) :
  tame s (replyError_unless_sent status error res s).
Proof. constructor; simpl; auto. Qed.

Lemma tame_send ws f (s : state) : tame s (send ws f s).
Proof. constructor; simpl; auto. Qed.

Lemma tame_close ws (s : state) : tame s (close ws s).
Proof. constructor; simpl; auto. Qed.

Create HintDb tame.
#[local] Hint Resolve tame_addLog tame_pushResponseTime tame_incTotal
  tame_incSucceeded tame_incFailed tame_with_clients tame_with_pendingRequests
  tame_with_statusClients tame_with_capturing tame_with_sockets
  tame_with_next_requestId tame_put_sink tame_replyError
  tame_replyError_unless_sent tame_send tame_close : tame.

(** Peel the writes of a handler off, last one first. *)
Ltac tame_chain :=
  repeat first [ apply tame_refl
               | eapply tame_trans; [|solve [auto with tame]] ].

Lemma tame_fold_left {A} (f : state -> A -> state) (l : list A) :
  (forall s x, tame s (f s x)) ->
  forall s, tame s (fold_left f l s).
Proof.
  intros Hf. induction l as [|x l IH]; intros s; simpl; [apply tame_refl|].
  eapply tame_trans; [apply Hf | apply IH].
Qed.

Lemma tame_handleRequestWithClient now req res slug client (s : state) :
  tame s (handleRequestWithClient now req res slug client s).
Proof. unfold handleRequestWithClient. cbv zeta. tame_chain. Qed.

Lemma tame_handleRequestWithoutClient now req res slug (s : state) :
  tame s (handleRequestWithoutClient now req res slug s).
Proof. unfold handleRequestWithoutClient. cbv zeta. tame_chain. Qed.

Lemma tame_resume cfg now requestId send_ok (s : state) :
  tame s (handleRequestWithClient_resume cfg now requestId send_ok s).
Proof.
  unfold handleRequestWithClient_resume.
  destruct (JsMap.get _ _) as [t|]; [|apply tame_refl]. cbv zeta.
  destruct (collectRequestData _ _); [destruct send_ok|]; tame_chain.
Qed.

Lemma tame_onTimeout now requestId (s : state) : tame s (onTimeout now requestId s).
Proof.
  unfold onTimeout.
  destruct (JsMap.get _ _) as [rd|]; [|apply tame_refl]. cbv zeta.
  destruct (p_timeout rd); tame_chain.
Qed.

Lemma tame_rejectPendingRequestsForSlug slug (s : state) :
  tame s (rejectPendingRequestsForSlug slug s).
Proof.
  unfold rejectPendingRequestsForSlug. apply tame_fold_left.
  intros s0 [requestId requestData]. cbv zeta.
  destruct (String.eqb _ _); tame_chain.
Qed.

Lemma tame_processPendingRequestsForSlug now slug client (s : state) :
  tame s (processPendingRequestsForSlug now slug client s).
Proof.
  unfold processPendingRequestsForSlug. apply tame_fold_left.
  intros s0 [requestId requestData]. cbv zeta.
  destruct (String.eqb _ _); [|apply tame_refl].
  eapply tame_trans; [apply tame_handleRequestWithClient|].
  apply tame_with_pendingRequests.
Qed.

Lemma tame_registerClient now ws slug (s : state) :
  tame s (registerClient now ws slug s).
Proof.
  unfold registerClient. cbv zeta.
  eapply tame_trans; [|apply tame_send].
  eapply tame_trans; [|apply tame_processPendingRequestsForSlug].
  eapply tame_trans; [|apply tame_with_clients].
  destruct (JsMap.get _ _) as [existing|]; [|apply tame_refl].
  destruct (_ =? _)%nat; tame_chain.
Qed.

Lemma tame_removeClient ws (s : state) : tame s (removeClient ws s).
Proof.
  unfold removeClient.
  destruct (decide _); [tame_chain|].
  match goal with |- context [List.find ?f ?l] =>
    destruct (List.find f l) as [[slug client]|] end; [|apply tame_refl].
  cbv zeta.
  eapply tame_trans; [|apply tame_rejectPendingRequestsForSlug]. tame_chain.
Qed.

Lemma tame_handleClientResponse `{NodeHttp} now slug requestId response (s : state) :
  tame s (handleClientResponse now slug requestId response s).
Proof.
  unfold handleClientResponse.
  destruct (JsMap.get _ _) as [rd|]; [|tame_chain]. cbv beta zeta.
  destruct (setHeaders _ _) as [k1 ok].
  destruct ok; [destruct (writeHead_end _ _ _)|]; tame_chain.
Qed.

Lemma tame_handleWebSocketMessage `{NodeHttp} now ws m (s : state) :
  tame s (handleWebSocketMessage now ws m s).
Proof.
  unfold handleWebSocketMessage.
  destruct (bool_decide _); [tame_chain|].
  destruct (m_slug m) as [slug|]; [|tame_chain].
  destruct (m_requestId m) as [requestId|].
  - destruct (m_response m) as [response|]; [|tame_chain].
    destruct (truthy slug); [apply tame_handleClientResponse|tame_chain].
  - destruct (truthy slug); [|tame_chain].
    destruct (String.eqb slug "status"); [tame_chain|apply tame_registerClient].
Qed.

Lemma tame_performMemoryCleanup now (s : state) :
  tame s (performMemoryCleanup now s).
Proof.
  unfold performMemoryCleanup. cbv zeta.
  match goal with |- context [if ?c then _ else _] => destruct c end;
    [eapply tame_trans; [|apply tame_addLog]|];
    (constructor; simpl; auto; intros Hb;
     etransitivity; [apply List.filter_length_le|exact Hb]).
Qed.

(** The listener after the gate. *)
Lemma tame_onRequest `{NodeHttp} cfg now req (s : state) :
  tame (after_gate cfg now req s) (onRequest cfg now req s).
Proof.
  destruct (gate_admits cfg now req s) eqn:Hgate.
  - rewrite (onRequest_admitted cfg now req s Hgate). cbv zeta.
    destruct (routeOf cfg (pathname req)); try tame_chain.
    destruct (JsMap.get _ _) as [client|];
      [destruct (_ =? _)%nat|];
      first [apply tame_handleRequestWithClient
            |apply tame_handleRequestWithoutClient].
  - rewrite (onRequest_limited cfg now req s Hgate). tame_chain.
Qed.

(** Every callback but an HTTP request is tame. *)
Lemma tame_step `{NodeHttp} cfg (s : state) (e : event) :
  match e with
  | Request now req => tame (after_gate cfg now req s) (step cfg s e)
  | _ => tame s (step cfg s e)
  end.
Proof.
  destruct e; simpl.
  - apply tame_onRequest.
  - apply tame_resume.
  - tame_chain.
  - tame_chain.
  - apply tame_handleWebSocketMessage.
  - tame_chain.
  - eapply tame_trans; [|apply tame_removeClient]. tame_chain.
  - apply tame_onTimeout.
  - apply tame_performMemoryCleanup.
Qed.

End Frame.

(** ** Over whole runs *)
Module RunExtra.
Import Js Http Node Config Validator RateLimit Broker Probes.
Import BrokerFacts Invariant Frame Examples.

Lemma run_app `{NodeHttp} cfg (s : state) (t1 t2 : list event) :
  run cfg s (t1 ++ t2) = run cfg (run cfg s t1) t2.
Proof. apply fold_left_app. Qed.

(** X6. The log never holds more than [maxLogs] entries and the
    response-time samples never more than 100, after any run of the
    server from its start. *)
Theorem log_and_samples_stay_within_their_caps :
  forall (N : NodeHttp) (cfg : securityConfig) (trace : list event),
    let s := run cfg init trace in
    (length (logs s) <= maxLogs)%nat
    /\ (length (responseTimes (stats s)) <= 100)%nat.
Proof.
  intros N cfg trace.
  assert (Hrun : forall s,
             (length (logs s) <= maxLogs)%nat
             /\ (length (responseTimes (stats s)) <= 100)%nat ->
             (length (logs (run cfg s trace)) <= maxLogs)%nat
             /\ (length (responseTimes (stats (run cfg s trace))) <= 100)%nat).
  { induction trace as [|e trace IH]; intros s Hs; [exact Hs|].
    simpl. apply IH. destruct Hs as [Hl Ht].
    pose proof (tame_step cfg s e) as Hstep.
    destruct e as [now req| | | | | | | |];
      try (split; [apply (tame_logs _ _ Hstep Hl)|apply (tame_times _ _ Hstep Ht)]).
    destruct (after_gate_fields cfg now req s)
      as (_ & _ & Hst & _ & _ & Hlg & _).
    split; [apply (tame_logs _ _ Hstep)|apply (tame_times _ _ Hstep)];
      rewrite ?Hlg, ?Hst; assumption. }
  apply Hrun. unfold maxLogs. simpl. split; lia.
Qed.

(** X7. No counter ever goes down: over any run from any state,
    [totalRequests], [successfulResponses] and [failedResponses] end at
    least where they began. *)
Theorem counters_never_go_down :
  forall (N : NodeHttp) (cfg : securityConfig) (trace : list event) (s : state),
    let s' := run cfg s trace in
    (totalRequests (stats s) <= totalRequests (stats s'))%nat
    /\ (successfulResponses (stats s) <= successfulResponses (stats s'))%nat
    /\ (failedResponses (stats s) <= failedResponses (stats s'))%nat.
Proof.
  intros N cfg trace. induction trace as [|e trace IH]; intros s; [simpl; lia|].
  specialize (IH (step cfg s e)). cbv zeta in IH |- *.
  change (run cfg s (e :: trace)) with (run cfg (step cfg s e) trace).
  pose proof (tame_step cfg s e) as Hstep.
  assert (Hs : (totalRequests (stats s) <= totalRequests (stats (step cfg s e)))%nat
               /\ (successfulResponses (stats s)
                   <= successfulResponses (stats (step cfg s e)))%nat
               /\ (failedResponses (stats s)
                   <= failedResponses (stats (step cfg s e)))%nat).
  { destruct e as [now req| | | | | | | |];
      try (destruct Hstep; auto).
    destruct (after_gate_fields cfg now req s) as (_ & _ & Hst & _).
    rewrite Hst in *. auto. }
  lia.
Qed.

(** The tracker after one callback. *)
Lemma rateLimitTracker_step `{NodeHttp} cfg (s : state) (e : event) :
  rateLimitTracker (step cfg s e) =
  match e with
  | Request now req =>
      if enableRateLimit cfg
      then snd (checkRateLimit cfg now (getClientIP req) req (rateLimitTracker s))
      else rateLimitTracker s
  | _ => rateLimitTracker s
  end.
Proof.
  pose proof (tame_step cfg s e) as Hstep.
  destruct e as [now req| | | | | | | |]; try apply (tame_tracker _ _ Hstep).
  rewrite (tame_tracker _ _ Hstep). unfold after_gate.
  destruct (enableRateLimit cfg); reflexivity.
Qed.

Lemma checkRateLimit_other cfg now ip req rl ip' :
  ip' <> ip -> snd (checkRateLimit cfg now ip req rl) !! ip' = rl !! ip'.
Proof.
  intros Hne. unfold checkRateLimit. cbv zeta.
  repeat match goal with |- context [if ?c then _ else _] => destruct c end;
    simpl; apply lookup_insert_ne; congruence.
Qed.

(** X8. The gate keeps one budget per address, and the address is what
    the request says it is: a non-empty [x-forwarded-for] header is taken
    over the socket's address. A call of the gate for one address leaves
    the budgets of the others untouched, so the plain requests of a run
    that come each under an address not seen before are all admitted,
    however many they are. *)
Theorem gate_budgets_are_per_address :
  (forall (req : request) (forwarded : string),
      headers req !! "x-forwarded-for" = Some (JString forwarded) ->
      forwarded <> "" ->
      getClientIP req = forwarded)
  /\ (forall cfg now ip req rl ip',
        ip' <> ip -> snd (checkRateLimit cfg now ip req rl) !! ip' = rl !! ip')
  /\ (forall (N : NodeHttp) (cfg : securityConfig) (trace : list event)
             (s : state),
        (0 < maxRequestsPerMinute cfg)%nat ->
        NoDup (addresses trace) ->
        (forall ip, ip ∈ addresses trace -> rateLimitTracker s !! ip = None) ->
        (forall now req, Request now req ∈ trace -> is_upgrade req = false) ->
        verdicts cfg s trace = repeat true (length (addresses trace))).
Proof.
  split; [|split; [exact checkRateLimit_other|]].
  - intros req forwarded Hh Hne. unfold getClientIP, header_string. rewrite Hh.
    destruct forwarded; [congruence|reflexivity].
  - intros N cfg trace. induction trace as [|e trace IH];
      intros s Hmax Hnd Hfresh Hplain; [reflexivity|].
    assert (Hrest : forall now req, Request now req ∈ trace -> is_upgrade req = false).
    { intros now req Hin. apply (Hplain now req). apply elem_of_cons. auto. }
    pose proof (rateLimitTracker_step cfg s e) as Htr.
    destruct e as [now req| | | | | | | |];
      try (simpl; apply IH; auto; intros ip Hip; simpl in Htr; rewrite Htr;
           apply Hfresh, Hip).
    simpl in Hnd. apply NoDup_cons in Hnd as [Hnew Hnd].
    change (verdicts cfg s (Request now req :: trace))
      with (gate_admits cfg now req s
            :: verdicts cfg (step cfg s (Request now req)) trace).
    simpl. f_equal.
    + unfold gate_admits. destruct (enableRateLimit cfg); [|reflexivity].
      unfold checkRateLimit.
      rewrite (Hfresh (getClientIP req)) by (simpl; apply elem_of_cons; auto).
      cbv zeta. simpl.
      destruct (Nat.leb_spec (maxRequestsPerMinute cfg) 0); [lia|].
      rewrite (Hplain now req) by (apply elem_of_cons; auto). reflexivity.
    + apply IH; auto. intros ip Hip.
      change (onRequest cfg now req s) with (step cfg s (Request now req)).
      rewrite Htr.
      assert (Hne : ip <> getClientIP req) by (intros ->; contradiction).
      assert (Hold : rateLimitTracker s !! ip = None)
        by (apply Hfresh; simpl; apply elem_of_cons; auto).
      destruct (enableRateLimit cfg); [|exact Hold].
      rewrite checkRateLimit_other by exact Hne. exact Hold.
Qed.

Lemma gate_budgets_are_per_address_witness :
  verdicts small init
    [Request 1 (mkRequest "GET" "/svc-a" "/svc-a"
                          {[ "x-forwarded-for" := JString "a" ]} "10.0.0.1" [] true);
     Request 2 (mkRequest "GET" "/svc-a" "/svc-a"
                          {[ "x-forwarded-for" := JString "b" ]} "10.0.0.1" [] true);
     Request 3 (mkRequest "GET" "/svc-a" "/svc-a"
                          {[ "x-forwarded-for" := JString "c" ]} "10.0.0.1" [] true)]
  = [true; true; true].
Proof.
  destruct gate_budgets_are_per_address as (_ & _ & Hrun).
  apply (Hrun Node.checks small).
  - vm_compute. lia.
  - apply (bool_decide_unpack _). vm_compute. exact I.
  - intros ip Hip. apply lookup_empty.
  - intros now req Hin.
    repeat (apply elem_of_cons in Hin as [Hin|Hin]; [injection Hin as -> ->; reflexivity|]).
    apply elem_of_nil in Hin. contradiction.
Defined.

(** X9. The tracker keeps, for every address, at most
    [maxRequestsPerMinute] request stamps and at most
    [maxConnectionsPerIP] connection stamps, after any run of the server
    from its start. *)
Theorem tracker_lists_stay_within_the_limits :
  forall (N : NodeHttp) (cfg : securityConfig) (trace : list event)
         (ip : string) (tr : tracker),
    rateLimitTracker (run cfg init trace) !! ip = Some tr ->
    (length (requests tr) <= maxRequestsPerMinute cfg)%nat
    /\ (length (connections tr) <= maxConnectionsPerIP cfg)%nat.
Proof.
  intros N cfg trace.
  set (ok := fun rl : gmap string tracker =>
               forall ip tr, rl !! ip = Some tr ->
                 (length (requests tr) <= maxRequestsPerMinute cfg)%nat
                 /\ (length (connections tr) <= maxConnectionsPerIP cfg)%nat).
  assert (Hcheck : forall now ip req rl,
             ok rl -> ok (snd (checkRateLimit cfg now ip req rl))).
  { intros now ip req rl Hok ip' tr'.
    destruct (decide (ip' = ip)) as [->|Hne];
      [|rewrite checkRateLimit_other by exact Hne; apply Hok].
    assert (Hold : (length (requests (default (mkTracker [] []) (rl !! ip)))
                    <= maxRequestsPerMinute cfg)%nat
                   /\ (length (connections (default (mkTracker [] []) (rl !! ip)))
                       <= maxConnectionsPerIP cfg)%nat).
    { destruct (rl !! ip) as [tr|] eqn:Hip; simpl; [apply (Hok ip tr Hip)|lia]. }
    unfold checkRateLimit. cbv zeta.
    change (match rl !! ip with Some tr => tr | None => mkTracker [] [] end)
      with (default (mkTracker [] []) (rl !! ip)).
    set (old := default (mkTracker [] []) (rl !! ip)) in *.
    destruct Hold as [Hr Hc].
    pose proof (List.filter_length_le
                  (fun timestamp => (now - 60000 <? timestamp)%Z) (requests old)) as Fr.
    pose proof (List.filter_length_le
                  (fun timestamp => (now - 60000 <? timestamp)%Z) (connections old)) as Fc.
    fold (recent (now - 60000) (requests old)) in Fr.
    fold (recent (now - 60000) (connections old)) in Fc.
    destruct (Nat.leb_spec (maxRequestsPerMinute cfg)
                           (length (recent (now - 60000) (requests old)))).
    - simpl. rewrite lookup_insert_eq. intros [= <-]. simpl. lia.
    - destruct (is_upgrade req).
      + destruct (Nat.leb_spec (maxConnectionsPerIP cfg)
                               (length (recent (now - 60000) (connections old))));
          simpl; rewrite lookup_insert_eq; intros [= <-]; simpl;
          rewrite ?length_app; simpl; lia.
      + simpl. rewrite lookup_insert_eq. intros [= <-]. simpl.
        rewrite length_app. simpl. lia. }
  assert (Hrun : forall s, ok (rateLimitTracker s) ->
                           ok (rateLimitTracker (run cfg s trace))).
  { induction trace as [|e trace IH]; intros s Hs; [exact Hs|].
    simpl. apply IH. rewrite rateLimitTracker_step.
    destruct e; try exact Hs.
    destruct (enableRateLimit cfg); [apply Hcheck|]; exact Hs. }
  intros ip tr. apply (Hrun init). intros ip' tr'. simpl.
  rewrite lookup_empty. discriminate.
Qed.

Lemma tracker_lists_stay_within_the_limits_witness :
  let s := run small init
             [Request 1 (plain_get "/svc-a"); Request 2 (plain_get "/svc-a");
              Request 3 (plain_get "/svc-a")] in
  (length (requests_of "10.0.0.1" (rateLimitTracker s)) <= 2)%nat.
Proof.
  intros s.
  destruct (rateLimitTracker s !! "10.0.0.1") as [tr|] eqn:Hip.
  - pose proof (tracker_lists_stay_within_the_limits Node.checks small _ _ _ Hip)
      as [Hr _].
    unfold requests_of. rewrite Hip. exact Hr.
  - unfold requests_of. rewrite Hip. simpl. lia.
Defined.

Lemma recent_recent (c1 c2 : Z) (l : list Z) :
  (c1 <= c2)%Z -> recent c2 (recent c1 l) = recent c2 l.
Proof.
  intros Hc. unfold recent. induction l as [|t l IH]; simpl; [reflexivity|].
  destruct (Z.ltb_spec c1 t); simpl; rewrite IH; [reflexivity|].
  destruct (Z.ltb_spec c2 t); [lia|reflexivity].
Qed.

Lemma in_span_app (a : Z) (l1 l2 : list Z) :
  in_span a (l1 ++ l2) = (in_span a l1 + in_span a l2)%nat.
Proof. unfold in_span. rewrite List.filter_app, length_app. reflexivity. Qed.

(** The instants of a span that ends at or after [now] are among the
    recent ones at [now]. *)
Lemma in_span_recent (a now : Z) (l : list Z) :
  (now <= a + 60000)%Z ->
  (in_span a l <= length (recent (now - 60000) l))%nat.
Proof.
  intros Hnow. unfold in_span, recent.
  induction l as [|t l IH]; simpl; [lia|].
  destruct (Z.ltb_spec a t); simpl.
  - destruct (Z.leb_spec t (a + 60000)); simpl;
      (destruct (Z.ltb_spec (now - 60000) t); simpl; lia).
  - destruct (Z.ltb_spec (now - 60000) t); simpl; lia.
Qed.

(** The gate over the requests that follow the instants [A] already
    admitted, the latest call having been made at [last]. *)
Lemma admitted_at_spans (cfg : securityConfig) (clientIP : string)
    (arrivals : list (Z * request)) :
  forall (rl : gmap string tracker) (A : list Z) (last : Z),
    requests_of clientIP rl = recent (last - 60000) A ->
    ascending last (fst <$> arrivals) ->
    Forall (fun x => is_upgrade x.2 = false) arrivals ->
    (forall a, (in_span a A <= maxRequestsPerMinute cfg)%nat) ->
    forall a,
      (in_span a (A ++ admitted_at cfg clientIP arrivals rl)
       <= maxRequestsPerMinute cfg)%nat.
Proof.
  induction arrivals as [|[now req] rest IH]; intros rl A last Hrl Hasc Hplain HA a.
  - simpl. rewrite app_nil_r. apply HA.
  - simpl in Hasc. destruct Hasc as [Hlast Hasc].
    apply Forall_cons in Hplain as [Hup Hplain]. simpl in Hup.
    simpl. unfold checkRateLimit. rewrite Hup. cbv zeta.
    assert (Hreq : (match rl !! clientIP with
                    | Some tr => tr | None => mkTracker [] [] end).(requests)
                   = requests_of clientIP rl).
    { unfold requests_of. destruct (rl !! clientIP); reflexivity. }
    rewrite Hreq, Hrl, recent_recent by lia.
    destruct (Nat.leb_spec (maxRequestsPerMinute cfg)
                           (length (recent (now - 60000) A))) as [Hfull|Hroom].
    + simpl. apply (IH _ A now); auto.
      unfold requests_of. rewrite lookup_insert_eq. reflexivity.
    + rewrite (app_assoc A [now]). apply (IH _ (A ++ [now]) now); auto.
      * unfold requests_of. rewrite lookup_insert_eq. simpl.
        unfold recent. rewrite List.filter_app. simpl.
        destruct (Z.ltb_spec (now - 60000) now); [reflexivity|lia].
      * intros a'. rewrite in_span_app. unfold in_span at 2. simpl.
        destruct (Z.ltb_spec a' now); simpl; [|specialize (HA a'); lia].
        destruct (Z.leb_spec now (a' + 60000)); simpl; [|specialize (HA a'); lia].
        pose proof (in_span_recent a' now A). lia.
Qed.

(** X22. The limit holds over every span. For the plain requests of one
    address that arrive in the order of the clock, from an address the
    tracker has no stamp for: whatever the requests and however long the
    run, no 60 seconds, wherever they start, see more than
    [maxRequestsPerMinute] requests admitted. *)
Theorem no_span_admits_more_than_the_limit (cfg : securityConfig)
    (clientIP : string) (arrivals : list (Z * request))
    (rl : gmap string tracker) (first a : Z) :
  requests_of clientIP rl = [] ->
  ascending first (fst <$> arrivals) ->
  Forall (fun x => is_upgrade x.2 = false) arrivals ->
  (in_span a (admitted_at cfg clientIP arrivals rl)
   <= maxRequestsPerMinute cfg)%nat.
Proof.
  intros Hrl Hasc Hplain.
  apply (admitted_at_spans cfg clientIP arrivals rl [] first); auto.
  intros a'. unfold in_span. simpl. lia.
Qed.

Lemma no_span_admits_more_than_the_limit_witness :
  (in_span 30000
     (admitted_at small "10.0.0.1"
        [(1%Z, plain_get "/svc-a"); (40000%Z, plain_get "/svc-a");
         (50000%Z, plain_get "/svc-a"); (70000%Z, plain_get "/svc-a")] ∅)
   <= 2)%nat.
Proof.
  apply (no_span_admits_more_than_the_limit small "10.0.0.1"
           [(1%Z, plain_get "/svc-a"); (40000%Z, plain_get "/svc-a");
            (50000%Z, plain_get "/svc-a"); (70000%Z, plain_get "/svc-a")]
           ∅ 0%Z 30000%Z).
  - reflexivity.
  - simpl. lia.
  - repeat constructor.
Defined.

End RunExtra.

(** ** How one exchange ends *)
Module HandlerExtra.
Import Js Http Node Config Validator RateLimit Broker Probes.
Import BrokerFacts Admission Invariant Dispatch AdmissionExtra Examples.

(** X10. A reply is final. Once a reply sink that the server handed out
    has been written, no later callback of any run changes its status,
    its body or its headers. *)
Theorem a_reply_is_final `{NodeHttp} (cfg : securityConfig) (s : state)
    (r : sink) (trace : list event) :
  reachable cfg s ->
  (r < next_sink s)%nat ->
  headersSent (sink_of s r) = true ->
  sink_of (run cfg s trace) r = sink_of s r.
Proof.
  intros Hreach Hr Hsent.
  pose proof (wf_reachable cfg s Hreach) as Hwf.
  apply orphan_run; [exact Hwf|]. split; [exact Hr|].
  intros Hin. pose proof (wf_unsent s Hwf) as Hu.
  rewrite Forall_forall in Hu. rewrite (Hu r Hin) in Hsent. discriminate.
Qed.

Lemma a_reply_is_final_witness :
  let s := run defaults init [Request 1 (plain_get "/")] in
  let trace := [Request 2 (plain_get "/svc-a"); Timeout 30002 0; Cleanup 400000] in
  sink_of (run defaults s trace) 0 = sink_of s 0.
Proof.
  intros s trace. apply (a_reply_is_final defaults s 0%nat trace).
  - eexists. reflexivity.
  - vm_compute. lia.
  - reflexivity.
Defined.

Lemma setHeaders_spec `{NodeHttp} (entries : list (string * string)) :
  forall k : sink_state,
  headersSent k = false ->
  headersSent (setHeaders entries k).1 = false
  /\ ((setHeaders entries k).2 = true ->
      Forall (fun e => setHeader_ok e.1 e.2 = true) entries).
Proof.
  induction entries as [|[key value] rest IH]; intros k Hk; simpl.
  - split; [exact Hk|constructor].
  - unfold setHeader. rewrite Hk.
    destruct (setHeader_ok key value) eqn:Hok; simpl.
    + destruct (IH (mkSink (sent_headers k ++ [(key, value)]) (reply k)))
        as [IH1 IH2].
      { unfold headersSent in *. exact Hk. }
      split; [exact IH1|]. intros Hall. constructor; auto.
    + split; [exact Hk|discriminate].
Qed.

(** X11. A response that Node refuses. When a header of the response is
    refused by [setHeader], or its status by [writeHead], the requester is
    answered 500 [Failed to send response], the record leaves the table and
    the exchange is counted as failed, not as succeeded. *)
Theorem refused_response_is_answered_500 `{NodeHttp} (cfg : securityConfig)
    (s : state) (now : Z) (slug : string) (requestId : reqid)
    (response : response) (rd : pending) :
  reachable cfg s ->
  JsMap.get requestId (pendingRequests s) = Some rd ->
  Exists (fun e => setHeader_ok e.1 e.2 = false) (default [] (r_headers response))
  \/ writeHead_ok (statusCode_or_200 response) = false ->
  let s' := handleClientResponse now slug requestId response s in
  reply (sink_of s' (p_res rd)) = Some (500%Z, ErrorJson "Failed to send response")
  /\ JsMap.get requestId (pendingRequests s') = None
  /\ failedResponses (stats s') = S (failedResponses (stats s))
  /\ successfulResponses (stats s') = successfulResponses (stats s)
  /\ totalRequests (stats s') = totalRequests (stats s).
Proof.
  intros Hreach Hget Hbad s'. subst s'.
  pose proof (wf_reachable cfg s Hreach) as Hwf.
  pose proof (pending_unsent s requestId rd Hwf Hget) as Hunsent.
  pose proof (get_delete_NoDup (pendingRequests s) requestId
                (wf_NoDup_pending s Hwf)) as Hgone.
  unfold handleClientResponse. rewrite Hget. cbv beta zeta.
  match goal with |- context [setHeaders _ (sink_of ?s0 _)] =>
    change (sink_of s0 (p_res rd)) with (sink_of s (p_res rd)) end.
  destruct (setHeaders_spec (default [] (r_headers response))
              (sink_of s (p_res rd)) Hunsent) as [Hk1 Hall].
  destruct (setHeaders _ _) as [k1 ok]. simpl in Hk1, Hall.
  assert (Hfailed : forall s0 : state,
            pendingRequests s0 = JsMap.delete requestId (pendingRequests s) ->
            failedResponses (stats s0) = failedResponses (stats s) ->
            successfulResponses (stats s0) = successfulResponses (stats s) ->
            totalRequests (stats s0) = totalRequests (stats s) ->
            let s' := replyError_unless_sent 500 "Failed to send response" (p_res rd)
                        (with_stats
                           (incFailed
                              (stats (addLog now (ResponseError requestId) LError
                                             (put_sink (p_res rd) k1 s0))))
                           (addLog now (ResponseError requestId) LError
                                   (put_sink (p_res rd) k1 s0))) in
            reply (sink_of s' (p_res rd))
            = Some (500%Z, ErrorJson "Failed to send response")
            /\ JsMap.get requestId (pendingRequests s') = None
            /\ failedResponses (stats s') = S (failedResponses (stats s))
            /\ successfulResponses (stats s') = successfulResponses (stats s)
            /\ totalRequests (stats s') = totalRequests (stats s)).
  { intros s0 Hp Hf Hs Ht. cbv zeta. unfold replyError_unless_sent.
    rewrite sink_of_put_eq.
    match goal with |- context [writeError_unless_sent _ _ (sink_of ?s1 _)] =>
      change (sink_of s1 (p_res rd)) with (sink_of (put_sink (p_res rd) k1 s0) (p_res rd))
    end.
    rewrite sink_of_put_eq, writeError_unless_sent_fresh by exact Hk1.
    simpl. rewrite Hp, Hgone, Hf, Hs, Ht. repeat split. }
  destruct ok.
  - destruct Hbad as [Hex|Hstatus].
    + exfalso. apply Exists_exists in Hex as (e & Hin & He).
      specialize (Hall eq_refl). rewrite Forall_forall in Hall.
      rewrite (Hall e Hin) in He. discriminate.
    + unfold writeHead_end. rewrite Hk1, Hstatus. apply Hfailed; reflexivity.
  - apply Hfailed; reflexivity.
Qed.

Lemma refused_response_is_answered_500_witness :
  let s := run defaults init
             [Connected 1; Message 10 1 (registration "svc-a");
              Request 20 (plain_get "/svc-a"); Captured 21 0 true] in
  let r := mkResponse (Some 99%Z) None (Some "ok") in
  reply (sink_of (handleClientResponse 30 "svc-a" 0 r s) 0)
  = Some (500%Z, ErrorJson "Failed to send response").
Proof.
  refine (proj1 (refused_response_is_answered_500 defaults
            (run defaults init
               [Connected 1; Message 10 1 (registration "svc-a");
                Request 20 (plain_get "/svc-a"); Captured 21 0 true])
            30%Z "svc-a" 0%nat
            (mkResponse (Some 99%Z) None (Some "ok"))
            (mkPending 0 ForwardDeadline "svc-a" None 21 (Some 20%Z))
            _ _ _)).
  - eexists. reflexivity.
  - reflexivity.
  - right. reflexivity.
Defined.

(** X12. When the timer of a pending record fires, the requester is
    answered 504 and the record leaves the table. For a record that had
    been forwarded the message is [Request timeout] and the exchange is
    counted as failed; for one still queued it is [No WebSocket client
    connected within timeout] and no counter moves. *)
Theorem timeout_is_answered_504 `{NodeHttp} (cfg : securityConfig) (s : state)
    (now : Z) (requestId : reqid) (rd : pending) :
  reachable cfg s ->
  JsMap.get requestId (pendingRequests s) = Some rd ->
  let s' := onTimeout now requestId s in
  reply (sink_of s' (p_res rd))
  = Some (504%Z,
          ErrorJson (if is_forwarded rd then "Request timeout"
                     else "No WebSocket client connected within timeout"))
  /\ JsMap.get requestId (pendingRequests s') = None
  /\ failedResponses (stats s')
     = (failedResponses (stats s) + if is_forwarded rd then 1 else 0)%nat
  /\ successfulResponses (stats s') = successfulResponses (stats s)
  /\ totalRequests (stats s') = totalRequests (stats s).
Proof.
  intros Hreach Hget s'. subst s'.
  pose proof (wf_reachable cfg s Hreach) as Hwf.
  pose proof (pending_unsent s requestId rd Hwf Hget) as Hunsent.
  pose proof (get_delete_NoDup (pendingRequests s) requestId
                (wf_NoDup_pending s Hwf)) as Hgone.
  unfold onTimeout, is_forwarded. rewrite Hget.
  destruct (p_timeout rd); cbv zeta;
    match goal with
    | |- context [sink_of (with_pendingRequests ?v (replyError_unless_sent ?c ?m ?r ?s0)) _] =>
        change (sink_of (with_pendingRequests v (replyError_unless_sent c m r s0)) r)
          with (sink_of (put_sink r (writeError_unless_sent c m (sink_of s r)) s0) r)
    end;
    rewrite sink_of_put_eq, writeError_unless_sent_fresh by exact Hunsent;
    simpl; rewrite Hgone; repeat split; lia.
Qed.

Lemma timeout_is_answered_504_witness :
  let s := run defaults init [Request 20 (plain_get "/svc-a")] in
  reply (sink_of (onTimeout 30020 0 s) 0)
  = Some (504%Z, ErrorJson "No WebSocket client connected within timeout").
Proof.
  refine (proj1 (timeout_is_answered_504 defaults
            (run defaults init [Request 20 (plain_get "/svc-a")])
            30020%Z 0%nat
            (mkPending 0 QueueWait "svc-a" (Some (plain_get "/svc-a")) 20 None)
            _ _)).
  - eexists. reflexivity.
  - reflexivity.
Defined.

(** X13. How a suspended forwarding call settles. If the body fits, the
    stream ends, the method and the URL pass [validateInput] and the send
    to the handler returns, then one frame goes to the session the call
    was started for, carrying the method and URL as they came, the
    sanitised headers and the chunks joined, and the request waits in the
    table under the 150 s deadline with its reply unwritten. In every
    other case the requester is answered 500, the exchange is counted as
    failed, and nothing is sent or stored. *)
Theorem capture_settles `{NodeHttp} (cfg : securityConfig) (s : state)
    (now : Z) (requestId : reqid) (send_ok : bool) (t : task) (req : request) :
  reachable cfg s ->
  JsMap.get requestId (capturing s) = Some t ->
  t_req t = Some req ->
  (0 <= maxRequestSize cfg)%Z ->
  let s' := handleRequestWithClient_resume cfg now requestId send_ok s in
  let captured_ok :=
    negb (maxRequestSize cfg <? Z.of_nat (body_size (chunks req)))%Z
    && ends req
    && (validateInput (JString (method req)) && validateInput (JString (url req))) in
  JsMap.get requestId (capturing s') = None
  /\ if captured_ok && send_ok then
       outbox s'
       = outbox s
         ++ [(t_client t,
              Forwarded (t_slug t) requestId
                (mkCaptured (method req) (url req) (sanitizeHeaders (headers req))
                            (String.concat "" (chunks req))))]
       /\ JsMap.get requestId (pendingRequests s')
          = Some (mkPending (t_res t) ForwardDeadline (t_slug t) None now
                            (Some (t_startTime t)))
       /\ reply (sink_of s' (t_res t)) = None
       /\ failedResponses (stats s') = failedResponses (stats s)
     else
       reply (sink_of s' (t_res t))
       = Some (500%Z,
               ErrorJson (if captured_ok
                          then "Failed to send request to WebSocket client"
                          else "Internal server error"))
       /\ pendingRequests s' = pendingRequests s
       /\ outbox s' = outbox s
       /\ failedResponses (stats s') = S (failedResponses (stats s)).
Proof.
  intros Hreach Hget Hreq Hmax s' captured_ok.
  pose proof (wf_reachable cfg s Hreach) as Hwf.
  assert (Hunsent : headersSent (sink_of s (t_res t)) = false).
  { pose proof (wf_unsent s Hwf) as Hu. rewrite Forall_forall in Hu. apply Hu.
    apply elem_of_app. right. apply get_elem_of in Hget.
    change (t_res t) with ((fun e : reqid * task => t_res e.2) (requestId, t)).
    apply list_elem_of_fmap_2. exact Hget. }
  assert (Hgone : JsMap.get requestId (JsMap.delete requestId (capturing s)) = None).
  { apply get_delete_NoDup. pose proof (wf_ids s Hwf) as Hnd.
    unfold ids in Hnd. apply NoDup_app in Hnd. tauto. }
  assert (Hfail : forall (e : capture_error) (error : string) m,
            let s1 := with_capturing (JsMap.delete requestId (capturing s)) s in
            let s2 := addLog now m LError s1 in
            let s3 := with_stats (incFailed (stats s2)) s2 in
            let s4 := replyError_unless_sent 500 error (t_res t) s3 in
            JsMap.get requestId (capturing s4) = None
            /\ reply (sink_of s4 (t_res t)) = Some (500%Z, ErrorJson error)
            /\ pendingRequests s4 = pendingRequests s
            /\ outbox s4 = outbox s
            /\ failedResponses (stats s4) = S (failedResponses (stats s))).
  { intros e error m. cbv zeta. unfold replyError_unless_sent.
    rewrite sink_of_put_eq.
    match goal with |- context [writeError_unless_sent _ _ (sink_of ?s1 _)] =>
      change (sink_of s1 (t_res t)) with (sink_of s (t_res t)) end.
    rewrite writeError_unless_sent_fresh by exact Hunsent.
    split; [exact Hgone|]. repeat split. }
  subst s'. unfold handleRequestWithClient_resume.
  rewrite Hget, Hreq, (collectRequestData_cases cfg req Hmax).
  subst captured_ok.
  set (over := (maxRequestSize cfg <? Z.of_nat (body_size (chunks req)))%Z).
  set (clean := validateInput (JString (method req))
                && validateInput (JString (url req))).
  destruct over; cbn [negb andb].
  { exact (Hfail BodyTooLarge "Internal server error"
                 (HandlingError requestId (t_slug t) BodyTooLarge)). }
  destruct (ends req); cbn [negb andb].
  2:{ exact (Hfail StreamError "Internal server error"
                   (HandlingError requestId (t_slug t) StreamError)). }
  destruct clean; cbn [negb andb].
  2:{ exact (Hfail InvalidMethodOrUrl "Internal server error"
                   (HandlingError requestId (t_slug t) InvalidMethodOrUrl)). }
  destruct send_ok.
  - cbv zeta. split; [exact Hgone|]. split; [reflexivity|].
    split; [apply get_set_eq|].
    split; [|reflexivity].
    change (reply (sink_of s (t_res t)) = None).
    unfold headersSent in Hunsent. destruct (reply _); [discriminate|reflexivity].
  - exact (Hfail StreamError "Failed to send request to WebSocket client"
                 (SendError requestId)).
Qed.

Lemma capture_settles_witness :
  let s := run small init
             [Connected 1; Message 10 1 (registration "svc-a");
              Request 20 (post "/svc-a" ["ab"; "cd"])] in
  outbox (handleRequestWithClient_resume small 21 0 true s)
  = outbox s
    ++ [(1%nat, Forwarded "svc-a" 0 (mkCaptured "POST" "/svc-a" ∅ "abcd"))].
Proof.
  intros s.
  assert (Hmax : (0 <= maxRequestSize small)%Z) by (vm_compute; discriminate).
  pose proof (capture_settles small s 21%Z 0%nat true
                (mkTask 20 (Some (post "/svc-a" ["ab"; "cd"])) 0 "svc-a" 1)
                (post "/svc-a" ["ab"; "cd"])
                (ex_intro _ _ eq_refl) eq_refl eq_refl Hmax) as Hsettle.
  apply proj2 in Hsettle. vm_compute in Hsettle. vm_compute.
  exact (proj1 Hsettle).
Defined.

End HandlerExtra.

(** ** Where records come from *)
Module Records.
Import Js Http Node Config Validator RateLimit Broker Probes.
Import BrokerFacts Admission Invariant Dispatch Cleanup Accounting Examples.

Section JsMapForall.
Context {K V : Type} `{EqDecision K}.
Implicit Types m : JsMap.t K V.

Lemma Forall_set (R : K * V -> Prop) m k v :
  Forall R m -> R (k, v) -> Forall R (JsMap.set k v m).
Proof.
  intros Hm Hkv. induction m as [|[k' v'] m IH]; simpl.
  - constructor; [exact Hkv|constructor].
  - apply Forall_cons in Hm as [H1 H2].
    destruct (decide (k = k')); constructor; auto.
Qed.

Lemma Forall_delete (R : K * V -> Prop) m k :
  Forall R m -> Forall R (JsMap.delete k m).
Proof.
  intros Hm. induction m as [|[k' v'] m IH]; simpl; [constructor|].
  apply Forall_cons in Hm as [H1 H2].
  destruct (decide (k = k')); [exact H2|constructor; auto].
Qed.

End JsMapForall.

Lemma Forall_filter_bool {A} (R : A -> Prop) (f : A -> bool) (l : list A) :
  Forall R l -> Forall R (List.filter f l).
Proof.
  rewrite !Forall_forall. intros Hl x Hx.
  apply elem_of_filter_bool in Hx as [Hx _]. auto.
Qed.

(** Rule induction on the records. A property [P] of pending records
    and a property [Q] of suspended calls hold after a callback if they
    held before it and the four ways of making a record or a call
    respect them: queueing a request, suspending a call for a request,
    storing a call that was forwarded, and suspending a call for a record
    that is drained. *)
Lemma records_step `{NodeHttp} (cfg : securityConfig) (P : pending -> Prop)
    (Q : task -> Prop) :
  (forall now req slug res,
      routeOf cfg (pathname req) = ToSlug slug ->
      P (mkPending res QueueWait slug (Some req) now None)) ->
  (forall now req slug res client,
      routeOf cfg (pathname req) = ToSlug slug ->
      Q (mkTask now (Some req) res slug client)) ->
  (forall t now,
      Q t ->
      P (mkPending (t_res t) ForwardDeadline (t_slug t) None now
                   (Some (t_startTime t)))) ->
  (forall rd now client,
      P rd -> Q (mkTask now (p_req rd) (p_res rd) (p_slug rd) client)) ->
  forall (s : state) (e : event),
  wf s ->
  Forall (fun x => P x.2) (pendingRequests s) ->
  Forall (fun x => Q x.2) (capturing s) ->
  Forall (fun x => P x.2) (pendingRequests (step cfg s e))
  /\ Forall (fun x => Q x.2) (capturing (step cfg s e)).
Proof.
  intros Hqueue Hsuspend Hstore Hdrain s e Hwf HP HQ.
  destruct e as [now req|now requestId send_ok|ws|ws st|now ws m|ws
                |ws|now requestId|now]; simpl.
  - destruct (after_gate_fields cfg now req s)
      as (_ & Hp & _ & Hc & _ & _ & _ & _ & _).
    destruct (gate_admits cfg now req s) eqn:Hgate.
    + rewrite (onRequest_admitted cfg now req s Hgate). cbv zeta.
      destruct (routeOf cfg (pathname req)) as [| | | | | | |slug] eqn:Hroute;
        try (simpl; rewrite ?Hp, ?Hc; split; assumption).
      assert (Hw : forall res,
                let s2 := handleRequestWithoutClient now req res slug
                            (after_gate cfg now req s) in
                Forall (fun x => P x.2) (pendingRequests s2)
                /\ Forall (fun x => Q x.2) (capturing s2)).
      { intros res. unfold handleRequestWithoutClient. simpl. rewrite Hp, Hc.
        split; [|assumption]. apply Forall_set; [assumption|]. simpl. auto. }
      destruct (JsMap.get slug _) as [client|]; [|apply Hw].
      destruct (_ =? OPEN)%nat; [|apply Hw].
      unfold handleRequestWithClient. simpl. rewrite Hp, Hc.
      split; [assumption|]. apply Forall_app. split; [assumption|].
      constructor; [|constructor]. simpl. eauto.
    + rewrite (onRequest_limited cfg now req s Hgate). simpl.
      rewrite Hp, Hc. split; assumption.
  - unfold handleRequestWithClient_resume.
    destruct (JsMap.get requestId (capturing s)) as [t|] eqn:Hget;
      [|split; assumption].
    assert (Ht : Q t).
    { apply get_elem_of in Hget. rewrite Forall_forall in HQ.
      apply (HQ _ Hget). }
    cbv zeta.
    destruct (collectRequestData cfg (t_req t)); [destruct send_ok|]; simpl;
      (split; [|apply Forall_delete; assumption]); try assumption.
    apply Forall_set; [assumption|]. simpl. auto.
  - split; assumption.
  - split; assumption.
  - rewrite handleWebSocketMessage_classify.
    destruct (classify m) as [|slug| |slug requestId response|];
      try (split; assumption).
    + destruct (registerClient_effect now ws slug s Hwf) as (Hp & Hc & _).
      rewrite Hp, Hc. split; [apply Forall_filter_bool; assumption|].
      apply Forall_app. split; [assumption|].
      apply Forall_forall. intros x Hx. unfold suspended in Hx.
      apply elem_of_lookup_imap in Hx as (i & e & -> & Hi).
      apply list_elem_of_lookup_2 in Hi.
      apply elem_of_filter_bool in Hi as [Hin Hsel].
      apply has_slug_true in Hsel. simpl. rewrite <- Hsel.
      apply Hdrain. rewrite Forall_forall in HP. apply (HP _ Hin).
    + destruct (JsMap.get requestId (pendingRequests s)) as [rd|] eqn:Hget.
      * destruct (handleClientResponse_found now slug requestId response s rd Hget)
          as (k & st & lg & sc & -> & _). simpl.
        split; [apply Forall_delete|]; assumption.
      * unfold handleClientResponse. rewrite Hget. split; assumption.
  - split; assumption.
  - unfold removeClient. simpl.
    destruct (decide _); [split; assumption|].
    match goal with |- context [List.find ?f ?l] =>
      destruct (List.find f l) as [[slug client]|] end; [|split; assumption].
    match goal with |- context [rejectPendingRequestsForSlug slug ?s1] =>
      set (s0 := s1) end.
    assert (Hwf0 : wf s0) by (apply (wf_ext s); auto).
    destruct (rejectPendingRequestsForSlug_effect slug s0 Hwf0)
      as ((_ & _ & Hc) & Hp & _).
    rewrite Hp, Hc. split; [apply Forall_filter_bool|]; assumption.
  - destruct (JsMap.get requestId (pendingRequests s)) as [rd|] eqn:Hget.
    + destruct (onTimeout_found now requestId s rd Hget) as (error & lg & sc & ->).
      simpl. split; [apply Forall_delete|]; assumption.
    + unfold onTimeout. rewrite Hget. split; assumption.
  - destruct (performMemoryCleanup_fields now s) as (Hp & _ & Hc & _).
    rewrite Hp, Hc. split; [apply Forall_filter_bool|]; assumption.
Qed.

Lemma routeOf_admissible (cfg : securityConfig) (pathname slug : string) :
  routeOf cfg pathname = ToSlug slug -> admissible cfg slug.
Proof.
  unfold routeOf, admissible.
  destruct (String.eqb pathname "/auth/login"); [discriminate|].
  destruct (String.eqb pathname "/status"); [discriminate|].
  destruct (startsWith "/api/" pathname); [discriminate|].
  destruct (truthy (substring1 pathname)); [|discriminate]. simpl.
  destruct (validateSlug (substring1 pathname)) eqn:Hv; [|discriminate]. simpl.
  destruct (String.eqb_spec (substring1 pathname) "status") as [|Hst];
    [discriminate|].
  destruct (includes (slugWhitelist cfg) (substring1 pathname)) eqn:Hinc.
  - simpl. rewrite andb_false_r. intros [= <-]. auto.
  - destruct (slugWhitelist cfg); [|discriminate]. intros [= <-]. auto.
Qed.

Lemma sound_step `{NodeHttp} (cfg : securityConfig) (s : state) (e : event) :
  wf s -> sound cfg s -> sound cfg (step cfg s e).
Proof.
  intros Hwf [HP HQ].
  destruct (records_step cfg
              (fun rd => admissible cfg (p_slug rd) /\ well_kept rd)
              (fun t => admissible cfg (t_slug t))) with (s := s) (e := e)
    as [HP' HQ']; try assumption.
  - intros now req slug res Hroute. split.
    + apply (routeOf_admissible cfg (pathname req)), Hroute.
    + split; [eexists; reflexivity|reflexivity].
  - intros now req slug res client Hroute.
    apply (routeOf_admissible cfg (pathname req)), Hroute.
  - intros t now Ht. split; [exact Ht|].
    split; [reflexivity|eexists; reflexivity].
  - intros rd now client [Hrd _]. exact Hrd.
  - constructor; assumption.
Qed.

Lemma sound_reachable `{NodeHttp} (cfg : securityConfig) (s : state) :
  reachable cfg s -> sound cfg s.
Proof.
  intros [trace ->].
  assert (Hrun : forall s, wf s -> sound cfg s -> sound cfg (run cfg s trace)).
  { induction trace as [|e trace IH]; intros s Hwf Hs; [exact Hs|].
    simpl. apply IH; [apply wf_step, Hwf|apply sound_step; assumption]. }
  apply Hrun; [apply wf_init|]. constructor; constructor.
Qed.

(** X14. After any run of the server from its start, every pending
    record and every suspended forwarding call is for a slug that the
    listener dispatches: one that passes [validateSlug], is not [status],
    and is on the whitelist if there is one, whatever slugs the handler
    sessions have registered. And every record is of one of two kinds:
    queued, holding the request and no start time, or forwarded, holding a
    start time and no request. *)
Theorem records_are_for_dispatched_slugs :
  forall (N : NodeHttp) (cfg : securityConfig) (trace : list event),
    let s := run cfg init trace in
    (forall requestId rd,
        JsMap.get requestId (pendingRequests s) = Some rd ->
        (validateSlug (p_slug rd) = true /\ p_slug rd <> "status"
         /\ (slugWhitelist cfg = []
             \/ includes (slugWhitelist cfg) (p_slug rd) = true))
        /\ match p_timeout rd with
           | QueueWait => is_Some (p_req rd) /\ p_startTime rd = None
           | ForwardDeadline => p_req rd = None /\ is_Some (p_startTime rd)
           end)
    /\ (forall requestId t,
          JsMap.get requestId (capturing s) = Some t ->
          validateSlug (t_slug t) = true /\ t_slug t <> "status"
          /\ (slugWhitelist cfg = []
              \/ includes (slugWhitelist cfg) (t_slug t) = true)).
Proof.
  intros N cfg trace s.
  destruct (sound_reachable cfg s (ex_intro _ trace eq_refl)) as [HP HQ].
  rewrite Forall_forall in HP. rewrite Forall_forall in HQ.
  split.
  - intros requestId rd Hget. apply (HP _ (get_elem_of _ _ _ Hget)).
  - intros requestId t Hget. apply (HQ _ (get_elem_of _ _ _ Hget)).
Qed.

Lemma records_are_for_dispatched_slugs_witness :
  match JsMap.get 0%nat
          (pendingRequests (run defaults init [Request 20 (plain_get "/svc-a")]))
  with
  | Some rd => validateSlug (p_slug rd) = true /\ is_Some (p_req rd)
  | None => False
  end.
Proof.
  destruct (records_are_for_dispatched_slugs Node.checks defaults
              [Request 20 (plain_get "/svc-a")]) as [Hp _].
  destruct (Hp 0%nat
              (mkPending 0 QueueWait "svc-a" (Some (plain_get "/svc-a")) 20 None)
              eq_refl) as [[Hv _] [Hreq _]].
  split; [exact Hv|exact Hreq].
Defined.

(** X15. A registration fails the exchanges in flight. When a session
    registers for a slug, a record of that slug that had already been
    forwarded and was waiting for its response is taken out of the table
    with the queued ones, and a forwarding call is started for it in which
    there is no request to capture: once that call settles the requester
    is answered 500 [Internal server error] and the exchange is counted as
    failed, whether or not a send would have gone through. *)
Theorem registration_fails_the_exchanges_in_flight `{NodeHttp}
    (cfg : securityConfig) (s : state) (now : Z) (ws : session) (slug : string)
    (requestId : reqid) (rd : pending) :
  reachable cfg s ->
  JsMap.get requestId (pendingRequests s) = Some rd ->
  p_slug rd = slug ->
  is_forwarded rd = true ->
  let s1 := registerClient now ws slug s in
  JsMap.get requestId (pendingRequests s1) = None
  /\ exists requestId',
      JsMap.get requestId' (capturing s1)
      = Some (mkTask now None (p_res rd) slug ws)
      /\ forall (now' : Z) (send_ok : bool),
           let s2 := handleRequestWithClient_resume cfg now' requestId' send_ok s1 in
           reply (sink_of s2 (p_res rd))
           = Some (500%Z, ErrorJson "Internal server error")
           /\ failedResponses (stats s2) = S (failedResponses (stats s1))
           /\ pendingRequests s2 = pendingRequests s1.
Proof.
  intros Hreach Hget Hslug Hfwd s1.
  pose proof (wf_reachable cfg s Hreach) as Hwf.
  destruct (sound_reachable cfg s Hreach) as [HP _].
  rewrite Forall_forall in HP.
  pose proof (get_elem_of _ _ _ Hget) as Hin.
  destruct (HP _ Hin) as [_ Hkept]. simpl in Hkept.
  assert (Hreq : p_req rd = None).
  { unfold well_kept in Hkept. unfold is_forwarded in Hfwd.
    destruct (p_timeout rd); [discriminate|tauto]. }
  destruct (registerClient_effect now ws slug s Hwf)
    as (Hp & Hc & _ & Hk & _).
  fold s1 in Hp, Hc, Hk.
  assert (Hwf1 : wf s1).
  { apply (wf_evolves s); [exact Hwf|apply evolves_registerClient, Hwf]. }
  assert (Hsel : has_slug slug (requestId, rd) = true).
  { unfold has_slug. simpl. rewrite Hslug. apply String.eqb_refl. }
  split.
  - destruct (JsMap.get requestId (pendingRequests s1)) as [rd'|] eqn:Hget1;
      [|reflexivity].
    apply get_elem_of in Hget1. rewrite Hp in Hget1.
    apply elem_of_filter_bool in Hget1 as [Hin' Hneg].
    assert (rd' = rd).
    { pose proof (wf_NoDup_pending s Hwf) as Hnd.
      apply (get_NoDup _ _ _ Hnd) in Hin'. congruence. }
    subst rd'. rewrite Hsel in Hneg. discriminate.
  - assert (Hq : (requestId, rd) ∈ List.filter (has_slug slug) (pendingRequests s))
      by (apply elem_of_filter_bool; auto).
    apply list_elem_of_lookup_1 in Hq as [i Hi].
    exists (next_requestId s + i)%nat.
    assert (Htask : JsMap.get (K:=reqid) (next_requestId s + i)%nat (capturing s1)
                    = Some (mkTask now None (p_res rd) slug ws)).
    { apply get_NoDup.
      - pose proof (wf_ids s1 Hwf1) as Hnd. unfold ids in Hnd.
        apply NoDup_app in Hnd. tauto.
      - rewrite Hc. apply elem_of_app. right. unfold suspended.
        apply elem_of_lookup_imap. exists i, (requestId, rd).
        simpl. rewrite Hreq. auto. }
    split; [exact Htask|].
    intros now' send_ok. cbv zeta.
    unfold handleRequestWithClient_resume. rewrite Htask. simpl.
    unfold replyError_unless_sent. rewrite sink_of_put_eq.
    match goal with |- context [writeError_unless_sent _ _ (sink_of ?s0 _)] =>
      change (sink_of s0 (p_res rd)) with (sink_of s1 (p_res rd)) end.
    assert (Hunsent : headersSent (sink_of s1 (p_res rd)) = false).
    { unfold sink_of. rewrite Hk. apply (pending_unsent s requestId rd Hwf Hget). }
    rewrite writeError_unless_sent_fresh by exact Hunsent.
    repeat split.
Qed.

Lemma registration_fails_the_exchanges_in_flight_witness :
  let s := run defaults init
             [Connected 1; Message 10 1 (registration "svc-a");
              Request 20 (plain_get "/svc-a"); Captured 21 0 true; Connected 2] in
  let s1 := registerClient 30 2 "svc-a" s in
  JsMap.get 0%nat (pendingRequests s1) = None.
Proof.
  intros s s1.
  refine (proj1 (registration_fails_the_exchanges_in_flight defaults s 30%Z 2%nat
                   "svc-a" 0%nat
                   (mkPending 0 ForwardDeadline "svc-a" None 21 (Some 20%Z))
                   _ _ _ _)).
  - eexists. reflexivity.
  - reflexivity.
  - reflexivity.
  - reflexivity.
Defined.

End Records.

(** ** The registry of handler sessions *)
Module Registry.
Import Js Http Node Config Validator RateLimit Broker Probes.
Import BrokerFacts Admission Invariant Dispatch Cleanup Accounting Examples.

Section JsMapMore.
Context {K V : Type} `{EqDecision K}.
Implicit Types m : JsMap.t K V.

Lemma get_delete_ne m k k' :
  k <> k' -> JsMap.get k (JsMap.delete k' m) = JsMap.get k m.
Proof.
  intros Hne. induction m as [|[k0 v0] m IH]; simpl; [reflexivity|].
  destruct (decide (k' = k0)) as [->|Hk'].
  - destruct (decide (k = k0)); [congruence|reflexivity].
  - simpl. destruct (decide (k = k0)); [reflexivity|exact IH].
Qed.

Lemma get_set_ne m k k' v :
  k <> k' -> JsMap.get k (JsMap.set k' v m) = JsMap.get k m.
Proof.
  intros Hne. induction m as [|[k0 v0] m IH]; simpl.
  - destruct (decide (k = k')); [congruence|reflexivity].
  - destruct (decide (k' = k0)) as [->|Hk']; simpl.
    + destruct (decide (k = k0)); [congruence|reflexivity].
    + destruct (decide (k = k0)); [reflexivity|exact IH].
Qed.

Lemma keys_set m k v :
  JsMap.keys (JsMap.set k v m)
  = if decide (k ∈ JsMap.keys m) then JsMap.keys m else JsMap.keys m ++ [k].
Proof.
  unfold JsMap.keys. induction m as [|[k0 v0] m IH].
  - destruct (decide (k ∈ fst <$> ([] : JsMap.t K V))) as [Hin|_]; [|reflexivity].
    apply elem_of_nil in Hin. contradiction.
  - change (JsMap.set k v ((k0, v0) :: m))
      with (if decide (k = k0) then (k, v) :: m else (k0, v0) :: JsMap.set k v m).
    rewrite (fmap_cons fst (k0, v0) m).
    destruct (decide (k = k0)) as [->|Hne].
    + rewrite fmap_cons.
      destruct (decide (k0 ∈ (k0, v0).1 :: (fst <$> m))) as [|Hnot];
        [reflexivity|].
      exfalso. apply Hnot. apply elem_of_cons. auto.
    + rewrite fmap_cons, IH.
      destruct (decide (k ∈ fst <$> m)) as [Hin|Hnot];
        destruct (decide (k ∈ (k0, v0).1 :: (fst <$> m))) as [Hin'|Hnot'];
        try reflexivity.
      * exfalso. apply Hnot'. apply elem_of_cons. auto.
      * exfalso. apply elem_of_cons in Hin' as [?|?]; contradiction.
Qed.

Lemma NoDup_keys_set m k v :
  NoDup (JsMap.keys m) -> NoDup (JsMap.keys (JsMap.set k v m)).
Proof.
  intros Hnd. rewrite keys_set. destruct (decide _) as [|Hnot]; [exact Hnd|].
  apply NoDup_app. repeat split; [exact Hnd| |apply NoDup_singleton].
  intros x Hx Hx'. apply list_elem_of_singleton in Hx'. subst x. contradiction.
Qed.

Lemma NoDup_keys_delete m k :
  NoDup (JsMap.keys m) -> NoDup (JsMap.keys (JsMap.delete k m)).
Proof.
  intros Hnd. induction m as [|[k0 v0] m IH]; simpl; [exact Hnd|].
  unfold JsMap.keys in *. rewrite fmap_cons in Hnd.
  apply NoDup_cons in Hnd as [Hk0 Hnd].
  destruct (decide (k = k0)); [exact Hnd|].
  rewrite fmap_cons. apply NoDup_cons. split; [|apply IH, Hnd].
  simpl. intros Hin. apply Hk0.
  clear -Hin. induction m as [|[k1 v1] m IH]; simpl in *; [exact Hin|].
  destruct (decide (k = k1)).
  - apply elem_of_cons. right. exact Hin.
  - rewrite fmap_cons in Hin. apply elem_of_cons in Hin as [->|Hin];
      apply elem_of_cons; auto.
Qed.

End JsMapMore.

Lemma fold_left_field {A B} (field : state -> B) (f : state -> A -> state)
    (l : list A) :
  (forall s x, field (f s x) = field s) ->
  forall s, field (fold_left f l s) = field s.
Proof.
  intros Hf. induction l as [|x l IH]; intros s; simpl; [reflexivity|].
  rewrite IH. apply Hf.
Qed.

Lemma processPendingRequestsForSlug_registry now slug client (s : state) :
  let s' := processPendingRequestsForSlug now slug client s in
  clients s' = clients s /\ sockets s' = sockets s
  /\ outbox s' = outbox s.
Proof.
  unfold processPendingRequestsForSlug. cbv zeta.
  repeat split;
    (apply fold_left_field; intros s0 [requestId requestData];
     destruct (String.eqb _ _); reflexivity).
Qed.

Lemma rejectPendingRequestsForSlug_registry slug (s : state) :
  let s' := rejectPendingRequestsForSlug slug s in
  clients s' = clients s /\ sockets s' = sockets s
  /\ statusClients s' = statusClients s.
Proof.
  unfold rejectPendingRequestsForSlug. cbv zeta.
  repeat split;
    (apply fold_left_field; intros s0 [requestId requestData];
     destruct (String.eqb _ _); reflexivity).
Qed.

(** What [registerClient] does to the registry, the sockets and the
    frames sent. *)
Lemma registerClient_registry now ws slug (s : state) :
  let s' := registerClient now ws slug s in
  clients s' = JsMap.set slug ws (clients s)
  /\ sockets s'
     = match JsMap.get slug (clients s) with
       | Some existingClient =>
           if (readyState s existingClient =? OPEN)%nat
           then <[existingClient := CLOSING]> (sockets s) else sockets s
       | None => sockets s
       end
  /\ outbox s' = outbox s ++ [(ws, Registered slug)].
Proof.
  unfold registerClient. cbv zeta.
  match goal with |- context [processPendingRequestsForSlug now slug ws ?s1] =>
    destruct (processPendingRequestsForSlug_registry now slug ws s1)
      as (Hc & Hs & Ho) end.
  simpl. rewrite Hc, Hs, Ho. simpl.
  destruct (JsMap.get slug (clients s)) as [existing|];
    [destruct (readyState s existing =? OPEN)%nat|]; repeat split.
Qed.

(** The registry after one callback: only a registration and the loss
    of a session change it. *)
Lemma clients_step `{NodeHttp} cfg (s : state) (e : event) :
  clients (step cfg s e) =
  match e with
  | Message now ws m =>
      match classify m with
      | Register slug => JsMap.set slug ws (clients s)
      | _ => clients s
      end
  | Closed ws =>
      if decide (ws ∈ statusClients s) then clients s
      else
        match List.find (fun '(_, client) => (client =? ws)%nat) (clients s) with
        | Some (slug, _) => JsMap.delete slug (clients s)
        | None => clients s
        end
  | _ => clients s
  end.
Proof.
  destruct e as [now req|now requestId send_ok|ws|ws st|now ws m|ws
                |ws|now requestId|now]; simpl; try reflexivity.
  - destruct (after_gate_fields cfg now req s) as (Hc & _).
    destruct (gate_admits cfg now req s) eqn:Hgate.
    + rewrite (onRequest_admitted cfg now req s Hgate). cbv zeta.
      destruct (routeOf cfg (pathname req)); try exact Hc.
      destruct (JsMap.get _ _) as [client|];
        [destruct (_ =? OPEN)%nat|]; exact Hc.
    + rewrite (onRequest_limited cfg now req s Hgate). exact Hc.
  - unfold handleRequestWithClient_resume.
    destruct (JsMap.get _ _) as [t|]; [|reflexivity]. cbv zeta.
    destruct (collectRequestData _ _); [destruct send_ok|]; reflexivity.
  - rewrite handleWebSocketMessage_classify.
    destruct (classify m) as [|slug| |slug requestId response|];
      try reflexivity.
    + apply registerClient_registry.
    + destruct (JsMap.get requestId (pendingRequests s)) as [rd|] eqn:Hget.
      * destruct (handleClientResponse_found now slug requestId response s rd Hget)
          as (k & st & lg & sc & -> & _). reflexivity.
      * unfold handleClientResponse. rewrite Hget. reflexivity.
  - unfold removeClient. simpl.
    destruct (decide _); [reflexivity|].
    match goal with |- context [List.find ?f ?l] =>
      destruct (List.find f l) as [[slug client]|] end; [|reflexivity].
    match goal with |- context [rejectPendingRequestsForSlug slug ?s1] =>
      destruct (rejectPendingRequestsForSlug_registry slug s1) as (Hc & _) end.
    rewrite Hc. reflexivity.
  - destruct (JsMap.get requestId (pendingRequests s)) as [rd|] eqn:Hget.
    + destruct (onTimeout_found now requestId s rd Hget) as (error & lg & sc & ->).
      reflexivity.
    + unfold onTimeout. rewrite Hget. reflexivity.
  - unfold performMemoryCleanup. cbv zeta.
    match goal with |- context [if ?c then _ else _] => destruct c end;
      reflexivity.
Qed.

Lemma clients_NoDup `{NodeHttp} cfg (s : state) :
  reachable cfg s -> NoDup (JsMap.keys (clients s)).
Proof.
  intros [trace ->].
  assert (Hrun : forall s, NoDup (JsMap.keys (clients s)) ->
                           NoDup (JsMap.keys (clients (run cfg s trace)))).
  { induction trace as [|e trace IH]; intros s Hs; [exact Hs|].
    simpl. apply IH. rewrite clients_step.
    destruct e; try exact Hs.
    - destruct (classify m); try exact Hs. apply NoDup_keys_set, Hs.
    - destruct (decide _); [exact Hs|].
      match goal with |- context [List.find ?f ?l] =>
        destruct (List.find f l) as [[slug client]|] end; [|exact Hs].
      apply NoDup_keys_delete, Hs. }
  apply Hrun. constructor.
Qed.

Lemma find_client (ws : session) (m : JsMap.t string session)
    (slug : string) (client : session) :
  List.find (fun '(_, client) => (client =? ws)%nat) m = Some (slug, client) ->
  (slug, ws) ∈ m /\ client = ws.
Proof.
  intros Hfind. apply List.find_some in Hfind as [Hin Heq].
  apply Nat.eqb_eq in Heq. subst client.
  split; [apply list_elem_of_In, Hin|reflexivity].
Qed.

Lemma find_client_None (ws : session) (m : JsMap.t string session) (slug : string) :
  List.find (fun '(_, client) => (client =? ws)%nat) m = None ->
  JsMap.get slug m <> Some ws.
Proof.
  intros Hfind Hget. apply get_elem_of, list_elem_of_In in Hget.
  pose proof (List.find_none _ _ Hfind _ Hget) as Hne. simpl in Hne.
  rewrite Nat.eqb_refl in Hne. discriminate.
Qed.

(** X16. The loss of a session unbinds at most one slug. When a socket
    closes, every slug that is bound to another session stays bound to
    it, so a session that was replaced does not take the slug of its
    successor with it. Of two slugs bound to the lost session itself, one
    is still bound to it afterwards, although the socket is closed. And
    when the lost session had attached as a dashboard, nothing is unbound
    and no pending request is touched, even if it also held a slug. *)
Theorem session_loss_unbinds_at_most_one_slug `{NodeHttp} (cfg : securityConfig)
    (s : state) (ws : session) :
  reachable cfg s ->
  let s' := step cfg s (Closed ws) in
  (forall slug other,
      JsMap.get slug (clients s) = Some other -> other <> ws ->
      JsMap.get slug (clients s') = Some other)
  /\ (forall a b,
        a <> b ->
        JsMap.get a (clients s) = Some ws -> JsMap.get b (clients s) = Some ws ->
        JsMap.get a (clients s') = Some ws \/ JsMap.get b (clients s') = Some ws)
  /\ (ws ∈ statusClients s ->
      clients s' = clients s /\ pendingRequests s' = pendingRequests s
      /\ sinks s' = sinks s)
  /\ readyState s' ws = CLOSED.
Proof.
  intros Hreach s'.
  pose proof (clients_NoDup cfg s Hreach) as Hnd.
  pose proof (clients_step cfg s (Closed ws)) as Hc. fold s' in Hc.
  split; [|split; [|split]].
  - intros slug other Hget Hne. rewrite Hc.
    destruct (decide _); [exact Hget|].
    destruct (List.find _ _) as [[slug' client]|] eqn:Hfind; [|exact Hget].
    apply find_client in Hfind as [Hin _].
    rewrite get_delete_ne; [exact Hget|].
    intros ->. apply (get_NoDup _ _ _ Hnd) in Hin. congruence.
  - intros a b Hab Ha Hb. rewrite Hc.
    destruct (decide _); [auto|].
    destruct (List.find _ _) as [[slug' client]|] eqn:Hfind; [|auto].
    destruct (decide (a = slug')) as [->|Hne].
    + right. rewrite get_delete_ne by congruence. exact Hb.
    + left. rewrite get_delete_ne by exact Hne. exact Ha.
  - intros Hstatus. subst s'. simpl. unfold removeClient. simpl.
    rewrite decide_True by exact Hstatus. repeat split.
  - subst s'. simpl. unfold removeClient. simpl.
    assert (Hlook : forall s1 : state,
              sockets s1 = <[ws := CLOSED]> (sockets s) -> readyState s1 ws = CLOSED).
    { intros s1 Hs1. unfold readyState. rewrite Hs1, lookup_insert_eq. reflexivity. }
    destruct (decide _); [apply Hlook; reflexivity|].
    match goal with |- context [List.find ?f ?l] =>
      destruct (List.find f l) as [[slug client]|] end;
      [|apply Hlook; reflexivity].
    apply Hlook.
    match goal with |- context [rejectPendingRequestsForSlug slug ?s1] =>
      destruct (rejectPendingRequestsForSlug_registry slug s1) as (_ & Hs & _) end.
    rewrite Hs. reflexivity.
Qed.

Lemma session_loss_unbinds_at_most_one_slug_witness :
  let s := run defaults init
             [Connected 1; Message 10 1 (registration "svc-a"); Connected 2;
              Message 11 2 (registration "svc-a")] in
  JsMap.get "svc-a" (clients (step defaults s (Closed 1))) = Some 2%nat.
Proof.
  intros s.
  destruct (session_loss_unbinds_at_most_one_slug defaults s 1%nat) as [Hkeep _].
  - eexists. reflexivity.
  - apply Hkeep; [reflexivity|discriminate].
Defined.



End Registry.

(** ** Shutting down *)
Module Shutdown.
Import Js Http Node Config Validator RateLimit Broker Lifecycle Probes.
Import BrokerFacts Admission Invariant Dispatch Registry Examples.

Lemma closed_from_refl (s : state) : closed_from s s.
Proof. constructor; auto. Qed.

Lemma closed_from_trans (s1 s2 s3 : state) :
  closed_from s1 s2 -> closed_from s2 s3 -> closed_from s1 s3.
Proof.
  intros [A1 A2 A3 A4 A5 A6 A7 A8 A9] [B1 B2 B3 B4 B5 B6 B7 B8 B9].
  constructor; try congruence. auto.
Qed.

Lemma readyState_close_session (ws x : session) (s : state) :
  readyState (close_session ws s) x
  = if decide (x = ws)
    then (if (readyState s ws =? CLOSED)%nat then CLOSED else CLOSING)
    else readyState s x.
Proof.
  unfold close_session.
  destruct (Nat.eqb_spec (readyState s ws) CLOSED) as [Hc|Hc].
  - destruct (decide (x = ws)) as [->|]; [exact Hc|reflexivity].
  - unfold readyState, close. simpl.
    destruct (decide (x = ws)) as [->|Hne].
    + rewrite lookup_insert_eq. reflexivity.
    + rewrite lookup_insert_ne by congruence. reflexivity.
Qed.

Lemma closed_from_close_session (ws : session) (s : state) :
  closed_from s (close_session ws s) /\ readyState (close_session ws s) ws <> OPEN.
Proof.
  split.
  - constructor; try (unfold close_session; destruct (_ =? _)%nat; reflexivity).
    intros x Hx. rewrite readyState_close_session.
    destruct (decide (x = ws)); [|exact Hx].
    destruct (_ =? _)%nat; discriminate.
  - rewrite readyState_close_session, decide_True by reflexivity.
    destruct (_ =? _)%nat; discriminate.
Qed.

Lemma close_all (l : list (string * session)) :
  forall s,
  let s' := fold_left (fun s '(_, client) => close_session client s) l s in
  closed_from s s'
  /\ forall slug ws, (slug, ws) ∈ l -> readyState s' ws <> OPEN.
Proof.
  induction l as [|[slug0 ws0] l IH]; intros s; simpl.
  - split; [apply closed_from_refl|]. intros slug ws Hin.
    apply elem_of_nil in Hin. contradiction.
  - destruct (closed_from_close_session ws0 s) as [H1 H2].
    destruct (IH (close_session ws0 s)) as [H3 H4].
    split; [eapply closed_from_trans; eassumption|].
    intros slug ws Hin. apply elem_of_cons in Hin as [[= -> ->]|Hin].
    + apply (cf_sockets _ _ H3). exact H2.
    + apply (H4 slug), Hin.
Qed.

Lemma close_set (X : gset session) (s : state) :
  let s' := set_fold close_session s X in
  closed_from s s' /\ forall ws, ws ∈ X -> readyState s' ws <> OPEN.
Proof.
  cbv zeta.
  apply (set_fold_ind_L
           (fun (acc : state) (Y : gset session) =>
              closed_from s acc /\ forall ws, ws ∈ Y -> readyState acc ws <> OPEN)).
  - split; [apply closed_from_refl|]. intros ws Hin. set_solver.
  - intros x Y acc Hx [H1 H2].
    destruct (closed_from_close_session x acc) as [H3 H4].
    split; [eapply closed_from_trans; eassumption|].
    intros ws Hin. apply elem_of_union in Hin as [Hin|Hin].
    + apply elem_of_singleton in Hin. subst ws. exact H4.
    + apply (cf_sockets _ _ H3), H2, Hin.
Qed.

(** X18. What [shutdown] does for the requests. In a state the server
    can reach, every request that is pending is answered 503 [Server
    shutting down]; the requests whose forwarding call is still capturing
    the body get no reply from it; no record is removed and no counter
    moves; and afterwards no handler session and no dashboard session is
    open. *)
Theorem shutdown_answers_the_pending_requests `{NodeHttp} (cfg : securityConfig)
    (s : state) :
  reachable cfg s ->
  let s' := shutdown s in
  (forall requestId rd,
      JsMap.get requestId (pendingRequests s) = Some rd ->
      reply (sink_of s' (p_res rd))
      = Some (503%Z, ErrorJson "Server shutting down"))
  /\ (forall requestId t,
        JsMap.get requestId (capturing s) = Some t ->
        sink_of s' (t_res t) = sink_of s (t_res t)
        /\ reply (sink_of s' (t_res t)) = None)
  /\ pendingRequests s' = pendingRequests s
  /\ capturing s' = capturing s
  /\ stats s' = stats s
  /\ (forall slug ws,
        JsMap.get slug (clients s) = Some ws -> readyState s' ws <> OPEN)
  /\ (forall ws, ws ∈ statusClients s -> readyState s' ws <> OPEN).
Proof.
  intros Hreach s'. pose proof (wf_reachable cfg s Hreach) as Hwf.
  subst s'. unfold shutdown. cbv zeta.
  destruct (close_all (clients s) s) as [C1 C2].
  set (s1 := fold_left _ (clients s) s) in *.
  destruct (close_set (statusClients s1) s1) as [D1 D2].
  set (s2 := set_fold _ s1 _) in *.
  pose proof (closed_from_trans _ _ _ C1 D1) as [E1 E2 E3 E4 E5 E6 E7 E8 E9].
  erewrite (fold_left_pointwise _
              (fun s e => replyError_unless_sent 503 "Server shutting down"
                                                 (p_res e.2) s))
    by (intros a [k rd]; reflexivity).
  destruct (cancel_all 503 "Server shutting down" (pendingRequests s2) s2)
    as [Hshape Hsink].
  set (s3 := fold_left _ (pendingRequests s2) s2) in *.
  assert (Hsame : forall r, sink_of s2 r = sink_of s r).
  { intros r. unfold sink_of. rewrite E5. reflexivity. }
  assert (F : pendingRequests s3 = pendingRequests s /\ capturing s3 = capturing s
              /\ stats s3 = stats s /\ sockets s3 = sockets s2).
  { rewrite Hshape. simpl. auto. }
  destruct F as (F1 & F2 & F3 & F4).
  assert (Hready : forall ws, readyState s3 ws = readyState s2 ws).
  { intros ws. unfold readyState. rewrite F4. reflexivity. }
  split; [|split; [|split; [|split; [|split; [|split]]]]]; auto.
  - intros requestId rd Hget.
    rewrite Hsink, decide_True.
    + rewrite Hsame, writeError_unless_sent_fresh
        by (apply (pending_unsent s requestId rd Hwf Hget)).
      reflexivity.
    + rewrite E2. apply get_elem_of in Hget.
      change (p_res rd) with ((fun e : reqid * pending => p_res e.2) (requestId, rd)).
      apply list_elem_of_fmap_2. exact Hget.
  - intros requestId t Hget.
    assert (Hin : t_res t ∈ (fun e : reqid * task => t_res e.2) <$> capturing s).
    { apply get_elem_of in Hget.
      change (t_res t) with ((fun e : reqid * task => t_res e.2) (requestId, t)).
      apply list_elem_of_fmap_2. exact Hget. }
    assert (Hkeep : sink_of s3 (t_res t) = sink_of s (t_res t)).
    { rewrite Hsink, decide_False; [apply Hsame|].
      rewrite E2. intros Hp.
      pose proof (wf_refs s Hwf) as Hnd. unfold refs in Hnd.
      apply NoDup_app in Hnd as (_ & Hdisj & _). apply (Hdisj _ Hp Hin). }
    split; [exact Hkeep|]. rewrite Hkeep.
    pose proof (wf_unsent s Hwf) as Hu. rewrite Forall_forall in Hu.
    assert (Hun : headersSent (sink_of s (t_res t)) = false).
    { apply Hu. apply elem_of_app. right. exact Hin. }
    unfold headersSent in Hun. destruct (reply _); [discriminate|reflexivity].
  - intros slug ws Hget. rewrite Hready.
    apply (cf_sockets _ _ D1), (C2 slug), get_elem_of, Hget.
  - intros ws Hin. rewrite Hready. apply D2.
    rewrite (cf_statusClients _ _ C1). exact Hin.
Qed.

Lemma shutdown_answers_the_pending_requests_witness :
  let s := run defaults init [Request 20 (plain_get "/svc-a")] in
  reply (sink_of (shutdown s) 0) = Some (503%Z, ErrorJson "Server shutting down").
Proof.
  intros s.
  destruct (shutdown_answers_the_pending_requests defaults s) as [Hp _].
  - eexists. reflexivity.
  - apply (Hp 0%nat
             (mkPending 0 QueueWait "svc-a" (Some (plain_get "/svc-a")) 20 None)).
    reflexivity.
Defined.

End Shutdown.

(** ** The headers of the replies *)
Module Headers.
Import Js Http Node Config Validator RateLimit Broker Probes.
Import BrokerFacts Admission Invariant Dispatch Cleanup Accounting Examples.

Lemma grows_refl (s : state) : grows s s.
Proof. split; [reflexivity|]. intros r. reflexivity. Qed.

Lemma grows_trans (s1 s2 s3 : state) : grows s1 s2 -> grows s2 s3 -> grows s1 s3.
Proof.
  intros [A1 A2] [B1 B2]. split; [congruence|].
  intros r. etransitivity; [apply A2|apply B2].
Qed.

(** A step that leaves the sinks and the counter of sinks alone. *)
Lemma grows_same (s s' : state) :
  sinks s' = sinks s -> next_sink s' = next_sink s -> grows s s'.
Proof.
  intros Hk Hn. split; [exact Hn|]. intros r. unfold sink_of. rewrite Hk.
  reflexivity.
Qed.

Lemma grows_put_sink res k (s : state) :
  sent_headers (sink_of s res) `prefix_of` sent_headers k ->
  grows s (put_sink res k s).
Proof.
  intros Hk. split; [reflexivity|]. intros r.
  destruct (decide (r = res)) as [->|Hne].
  - rewrite sink_of_put_eq. exact Hk.
  - rewrite sink_of_put_ne by congruence. reflexivity.
Qed.

Lemma grows_replyError status error res (s : state) :
  grows s (replyError status error res s).
Proof. apply grows_put_sink. simpl. apply prefix_app_r. reflexivity. Qed.

Lemma grows_replyError_unless_sent status error res (s : state) :
  grows s (replyError_unless_sent status error res s).
Proof.
  apply grows_put_sink. unfold writeError_unless_sent.
  destruct (headersSent _); [reflexivity|]. simpl. apply prefix_app_r. reflexivity.
Qed.

Lemma grows_addLog now text lv (s : state) : grows s (addLog now text lv s).
Proof. apply grows_same; reflexivity. Qed.

Lemma grows_with_stats v (s : state) : grows s (with_stats v s).
Proof. apply grows_same; reflexivity. Qed.

Lemma grows_with_clients v (s : state) : grows s (with_clients v s).
Proof. apply grows_same; reflexivity. Qed.

Lemma grows_with_pendingRequests v (s : state) : grows s (with_pendingRequests v s).
Proof. apply grows_same; reflexivity. Qed.

Lemma grows_with_statusClients v (s : state) : grows s (with_statusClients v s).
Proof. apply grows_same; reflexivity. Qed.

Lemma grows_with_capturing v (s : state) : grows s (with_capturing v s).
Proof. apply grows_same; reflexivity. Qed.

Lemma grows_with_sockets v (s : state) : grows s (with_sockets v s).
Proof. apply grows_same; reflexivity. Qed.

Lemma grows_with_next_requestId v (s : state) : grows s (with_next_requestId v s).
Proof. apply grows_same; reflexivity. Qed.

Lemma grows_send ws f (s : state) : grows s (send ws f s).
Proof. apply grows_same; reflexivity. Qed.

Lemma grows_close ws (s : state) : grows s (close ws s).
Proof. apply grows_same; reflexivity. Qed.

Create HintDb grows.
#[local] Hint Resolve grows_replyError grows_replyError_unless_sent grows_addLog
  grows_with_stats grows_with_clients grows_with_pendingRequests
  grows_with_statusClients grows_with_capturing grows_with_sockets
  grows_with_next_requestId grows_send grows_close : grows.

Ltac grows_chain :=
  repeat first [ apply grows_refl
               | eapply grows_trans; [|solve [auto with grows]] ].

Lemma grows_fold_left {A} (f : state -> A -> state) (l : list A) :
  (forall s x, grows s (f s x)) ->
  forall s, grows s (fold_left f l s).
Proof.
  intros Hf. induction l as [|x l IH]; intros s; simpl; [apply grows_refl|].
  eapply grows_trans; [apply Hf | apply IH].
Qed.

Lemma grows_handleRequestWithClient now req res slug client (s : state) :
  grows s (handleRequestWithClient now req res slug client s).
Proof. unfold handleRequestWithClient. cbv zeta. grows_chain. Qed.

Lemma grows_handleRequestWithoutClient now req res slug (s : state) :
  grows s (handleRequestWithoutClient now req res slug s).
Proof. unfold handleRequestWithoutClient. cbv zeta. grows_chain. Qed.

Lemma grows_resume cfg now requestId send_ok (s : state) :
  grows s (handleRequestWithClient_resume cfg now requestId send_ok s).
Proof.
  unfold handleRequestWithClient_resume.
  destruct (JsMap.get _ _) as [t|]; [|apply grows_refl]. cbv zeta.
  destruct (collectRequestData _ _); [destruct send_ok|]; grows_chain.
Qed.

Lemma grows_onTimeout now requestId (s : state) : grows s (onTimeout now requestId s).
Proof.
  unfold onTimeout.
  destruct (JsMap.get _ _) as [rd|]; [|apply grows_refl]. cbv zeta.
  destruct (p_timeout rd); grows_chain.
Qed.

Lemma grows_rejectPendingRequestsForSlug slug (s : state) :
  grows s (rejectPendingRequestsForSlug slug s).
Proof.
  unfold rejectPendingRequestsForSlug. apply grows_fold_left.
  intros s0 [requestId requestData]. cbv zeta.
  destruct (String.eqb _ _); grows_chain.
Qed.

Lemma grows_processPendingRequestsForSlug now slug client (s : state) :
  grows s (processPendingRequestsForSlug now slug client s).
Proof.
  unfold processPendingRequestsForSlug. apply grows_fold_left.
  intros s0 [requestId requestData]. cbv zeta.
  destruct (String.eqb _ _); [|apply grows_refl].
  eapply grows_trans; [apply grows_handleRequestWithClient|].
  apply grows_with_pendingRequests.
Qed.

Lemma grows_registerClient now ws slug (s : state) :
  grows s (registerClient now ws slug s).
Proof.
  unfold registerClient. cbv zeta.
  eapply grows_trans; [|apply grows_send].
  eapply grows_trans; [|apply grows_processPendingRequestsForSlug].
  eapply grows_trans; [|apply grows_with_clients].
  destruct (JsMap.get _ _) as [existing|]; [|apply grows_refl].
  destruct (_ =? _)%nat; grows_chain.
Qed.

Lemma grows_removeClient ws (s : state) : grows s (removeClient ws s).
Proof.
  unfold removeClient.
  destruct (decide _); [grows_chain|].
  match goal with |- context [List.find ?f ?l] =>
    destruct (List.find f l) as [[slug client]|] end; [|apply grows_refl].
  cbv zeta.
  eapply grows_trans; [|apply grows_rejectPendingRequestsForSlug]. grows_chain.
Qed.

Lemma setHeaders_grows `{NodeHttp} (entries : list (string * string)) :
  forall k, sent_headers k `prefix_of` sent_headers (setHeaders entries k).1.
Proof.
  induction entries as [|[key value] rest IH]; intros k; simpl; [reflexivity|].
  unfold setHeader. destruct (headersSent k); [reflexivity|].
  destruct (setHeader_ok key value); [|reflexivity].
  etransitivity; [|apply IH]. simpl. apply prefix_app_r. reflexivity.
Qed.

Lemma grows_handleClientResponse `{NodeHttp} now slug requestId response (s : state) :
  grows s (handleClientResponse now slug requestId response s).
Proof.
  unfold handleClientResponse.
  destruct (JsMap.get _ _) as [rd|]; [|grows_chain]. cbv beta zeta.
  match goal with |- context [setHeaders ?l (sink_of ?s0 ?r)] =>
    pose proof (setHeaders_grows l (sink_of s0 r)) as Hk;
    set (s1 := s0) in *;
    destruct (setHeaders l (sink_of s1 r)) as [k1 ok] end.
  simpl in Hk.
  assert (H1 : grows s s1) by (subst s1; grows_chain).
  assert (Hput : grows s1 (put_sink (p_res rd) k1 s1))
    by (apply grows_put_sink, Hk).
  destruct ok; [destruct (writeHead_end _ _ k1) as [k2|] eqn:Hw|].
  - apply headersSent_writeHead_end in Hw as (-> & _ & _).
    eapply grows_trans; [exact H1|].
    eapply grows_trans; [|apply grows_with_stats].
    eapply grows_trans; [|apply grows_addLog].
    apply grows_put_sink. exact Hk.
  - eapply grows_trans; [exact H1|].
    eapply grows_trans; [exact Hput|]. grows_chain.
  - eapply grows_trans; [exact H1|].
    eapply grows_trans; [exact Hput|]. grows_chain.
Qed.

Lemma grows_handleWebSocketMessage `{NodeHttp} now ws m (s : state) :
  grows s (handleWebSocketMessage now ws m s).
Proof.
  rewrite handleWebSocketMessage_classify.
  destruct (classify m); try grows_chain.
  - apply grows_registerClient.
  - apply grows_handleClientResponse.
Qed.

Lemma grows_performMemoryCleanup now (s : state) :
  grows s (performMemoryCleanup now s).
Proof.
  unfold performMemoryCleanup. cbv zeta.
  match goal with |- context [if ?c then _ else _] => destruct c end;
    apply grows_same; reflexivity.
Qed.

Lemma grows_onRequest `{NodeHttp} cfg now req (s : state) :
  grows (after_gate cfg now req s) (onRequest cfg now req s).
Proof.
  destruct (after_gate_fields cfg now req s)
    as (_ & _ & _ & _ & _ & _ & _ & Hn & _).
  assert (Hreply : forall status error s1,
            grows s1 (replyError status error (next_sink s) s1))
    by (intros; apply grows_replyError).
  destruct (gate_admits cfg now req s) eqn:Hgate.
  - rewrite (onRequest_admitted cfg now req s Hgate). cbv zeta.
    destruct (routeOf cfg (pathname req));
      try (apply grows_refl);
      try (apply Hreply);
      try (eapply grows_trans; [apply grows_addLog|apply Hreply]).
    destruct (JsMap.get _ _) as [client|];
      [destruct (_ =? _)%nat|];
      first [apply grows_handleRequestWithClient
            |apply grows_handleRequestWithoutClient].
  - rewrite (onRequest_limited cfg now req s Hgate).
    eapply grows_trans; [apply grows_addLog|apply Hreply].
Qed.

Lemma grows_step `{NodeHttp} cfg (s : state) (e : event) :
  match e with
  | Request now req => grows (after_gate cfg now req s) (step cfg s e)
  | _ => grows s (step cfg s e)
  end.
Proof.
  destruct e; simpl.
  - apply grows_onRequest.
  - apply grows_resume.
  - grows_chain.
  - grows_chain.
  - apply grows_handleWebSocketMessage.
  - grows_chain.
  - eapply grows_trans; [|apply grows_removeClient]. grows_chain.
  - apply grows_onTimeout.
  - apply grows_performMemoryCleanup.
Qed.

(** X19. Every reply starts out with the security headers. After any
    run of the server from its start, the calls of [setHeader] on every
    reply handed out begin with the five fixed security headers, followed
    by the three CORS headers when CORS is enabled; what a handler's
    response or an error reply sets comes after them. *)
Theorem every_reply_carries_the_security_headers :
  forall (N : NodeHttp) (cfg : securityConfig) (trace : list event) (r : sink),
    let s := run cfg init trace in
    (r < next_sink s)%nat ->
    exists rest,
      sent_headers (sink_of s r)
      = [ ("X-Content-Type-Options", "nosniff");
          ("X-Frame-Options", "DENY");
          ("X-XSS-Protection", "1; mode=block");
          ("Referrer-Policy", "strict-origin-when-cross-origin");
          ("Permissions-Policy", "geolocation=(), microphone=(), camera=()") ]
        ++ (if enableCORS cfg then
              [ ("Access-Control-Allow-Origin",
                 if includes (allowedOrigins cfg) "*" then "*"
                 else String.concat ", " (allowedOrigins cfg));
                ("Access-Control-Allow-Methods", "GET, POST, PUT, DELETE, OPTIONS");
                ("Access-Control-Allow-Headers", "Content-Type, Authorization") ]
            else [])
        ++ rest.
Proof.
  intros N cfg trace r s Hr.
  set (secure := sent_headers (applySecurityHeaders cfg fresh_sink)).
  assert (Hrun : forall s,
             (forall r, (r < next_sink s)%nat ->
                        secure `prefix_of` sent_headers (sink_of s r)) ->
             forall r, (r < next_sink (run cfg s trace))%nat ->
                       secure `prefix_of` sent_headers (sink_of (run cfg s trace) r)).
  { clear r s Hr. induction trace as [|e trace IH]; intros s Hs; [exact Hs|].
    simpl. apply IH. intros r Hr.
    pose proof (grows_step cfg s e) as Hstep.
    destruct e as [now req| | | | | | | |];
      try (destruct Hstep as [Hn Hg]; etransitivity; [apply Hs|apply Hg];
           rewrite <- Hn; exact Hr).
    destruct Hstep as [Hn Hg].
    destruct (after_gate_fields cfg now req s)
      as (_ & _ & _ & _ & _ & _ & _ & Hn' & Hk).
    etransitivity; [|apply Hg].
    unfold sink_of at 1. rewrite Hk.
    destruct (decide (r = next_sink s)) as [->|Hne].
    - rewrite lookup_insert_eq. reflexivity.
    - rewrite lookup_insert_ne by congruence. apply Hs.
      simpl in Hr, Hn. rewrite Hn, Hn' in Hr. lia. }
  destruct (Hrun init) with (r := r) as [rest Hrest].
  - intros r0 Hr0. simpl in Hr0. lia.
  - exact Hr.
  - exists rest. fold s in Hrest. rewrite Hrest. subst secure.
    unfold applySecurityHeaders. simpl.
    destruct (enableCORS cfg); reflexivity.
Qed.

Lemma every_reply_carries_the_security_headers_witness :
  let s := run defaults init [Request 1 (plain_get "/")] in
  exists rest,
    sent_headers (sink_of s 0)
    = [ ("X-Content-Type-Options", "nosniff");
        ("X-Frame-Options", "DENY");
        ("X-XSS-Protection", "1; mode=block");
        ("Referrer-Policy", "strict-origin-when-cross-origin");
        ("Permissions-Policy", "geolocation=(), microphone=(), camera=()") ]
      ++ [ ("Access-Control-Allow-Origin", "*");
           ("Access-Control-Allow-Methods", "GET, POST, PUT, DELETE, OPTIONS");
           ("Access-Control-Allow-Headers", "Content-Type, Authorization") ]
      ++ rest.
Proof.
  intros s.
  apply (every_reply_carries_the_security_headers Node.checks defaults
           [Request 1 (plain_get "/")] 0%nat).
  vm_compute. lia.
Defined.

End Headers.

(** ** The login endpoint *)
Module LoginFacts.
Import Js Http Node Config Validator Broker Login.
Import BrokerFacts Examples.

Lemma body_size_app (l1 l2 : list string) :
  body_size (l1 ++ l2) = (body_size l1 + body_size l2)%nat.
Proof.
  unfold body_size. induction l1 as [|c l1 IH]; simpl; [reflexivity|].
  rewrite IH. lia.
Qed.

Lemma coherent_on_data (max : Z) (p : progress) (chunk : string) :
  coherent max p -> coherent max (on_data max p chunk).
Proof.
  destruct p as [body k|]; simpl; [|auto]. intros Hk.
  destruct (Z.ltb_spec max (Z.of_nat (String.length (body +:+ chunk)))) as [Hover|Hok].
  - destruct (headersSent k); simpl; [exact I|].
    symmetry. apply Z.ltb_lt. exact Hover.
  - simpl. rewrite Hk. rewrite length_append in Hok.
    destruct (Z.ltb_spec max (Z.of_nat (String.length body))); [lia|].
    symmetry. apply Z.ltb_ge. rewrite length_append. lia.
Qed.

(** Once the body is over the limit, the next chunk throws. *)
Lemma on_data_over (max : Z) (body chunk : string) (k : sink_state) :
  coherent max (Reading body k) ->
  (max < Z.of_nat (String.length body))%Z ->
  on_data max (Reading body k) chunk = Thrown.
Proof.
  simpl. intros Hk Hover.
  destruct (Z.ltb_spec max (Z.of_nat (String.length (body +:+ chunk)))) as [_|Hok].
  - rewrite Hk. destruct (Z.ltb_spec max (Z.of_nat (String.length body)));
      [reflexivity|lia].
  - rewrite length_append in Hok. lia.
Qed.

Lemma fold_Thrown (max : Z) (l : list string) :
  fold_left (on_data max) l Thrown = Thrown.
Proof. induction l as [|c l IH]; simpl; auto. Qed.

(** Where the reading stands after the chunks [l]. *)
Lemma fold_on_data (max : Z) (l : list string) :
  forall body k,
  coherent max (Reading body k) ->
  match fold_left (on_data max) l (Reading body k) with
  | Reading body' k' =>
      String.length body' = (String.length body + body_size l)%nat
      /\ coherent max (Reading body' k')
  | Thrown =>
      exists before chunk after,
        l = before ++ chunk :: after
        /\ (max < Z.of_nat (String.length body + body_size before))%Z
  end.
Proof.
  induction l as [|c l IH]; intros body k Hk.
  - simpl. split; [unfold body_size; simpl; lia|exact Hk].
  - change (fold_left (on_data max) (c :: l) (Reading body k))
      with (fold_left (on_data max) l (on_data max (Reading body k) c)).
    pose proof (coherent_on_data max (Reading body k) c Hk) as Hk1.
    destruct (on_data max (Reading body k) c) as [body1 k1|] eqn:Hstep.
    + assert (Hb1 : body1 = body +:+ c).
      { simpl in Hstep.
        destruct (_ <? _)%Z; [destruct (headersSent k)|]; congruence. }
      specialize (IH body1 k1 Hk1).
      destruct (fold_left (on_data max) l (Reading body1 k1)) as [body' k'|].
      * destruct IH as [Hlen Hk']. split; [|exact Hk'].
        rewrite Hlen, Hb1, length_append.
        change (body_size (c :: l)) with (String.length c + body_size l)%nat. lia.
      * destruct IH as (before & chunk & after & -> & Hover).
        exists (c :: before), chunk, after. split; [reflexivity|].
        rewrite Hb1, length_append in Hover.
        change (body_size (c :: before))
          with (String.length c + body_size before)%nat. lia.
    + rewrite fold_Thrown. exists [], c, l. split; [reflexivity|].
      simpl in Hstep, Hk.
      destruct (max <? Z.of_nat (String.length (body +:+ c)))%Z; [|discriminate].
      destruct (headersSent k) eqn:Hsent; [|discriminate].
      symmetry in Hk. apply Z.ltb_lt in Hk.
      unfold body_size. simpl. lia.
Qed.

(** Chunks that follow a body over the limit end in the exception. *)
Lemma fold_over (max : Z) (l : list string) :
  forall body k,
  coherent max (Reading body k) ->
  (max < Z.of_nat (String.length body))%Z ->
  l <> [] ->
  fold_left (on_data max) l (Reading body k) = Thrown.
Proof.
  intros body k Hk Hover Hne. destruct l as [|c l]; [congruence|].
  change (fold_left (on_data max) (c :: l) (Reading body k))
    with (fold_left (on_data max) l (on_data max (Reading body k) c)).
  rewrite on_data_over by assumption. apply fold_Thrown.
Qed.

Section login.
Variable parse_password : string -> option (option string).
Variable token_reply : Z -> string.
Variable adminPassword : string.

(** X20. A login body over the limit ends the process. The handling of
    a request to [/auth/login] ends in an exception that no handler
    catches exactly when the request is a POST, its body goes over
    [maxRequestSize] at some chunk, and another chunk or the end of the
    stream follows that chunk: the reply 413 has been written, and the
    next handler writes a head again. The uncaught exception is answered
    with [process.exit(1)]. *)
Theorem oversize_login_ends_the_process (cfg : securityConfig) (now : Z)
    (req : request) :
  (0 <= maxRequestSize cfg)%Z ->
  handleLogin parse_password token_reply adminPassword cfg now req = Uncaught
  <->
  method req = "POST"
  /\ exists before chunk after,
      chunks req = before ++ chunk :: after
      /\ (maxRequestSize cfg < Z.of_nat (body_size (before ++ [chunk])))%Z
      /\ (after <> [] \/ ends req = true).
Proof.
  intros Hmax. unfold handleLogin. cbv zeta.
  set (k0 := applySecurityHeaders cfg fresh_sink).
  set (max := maxRequestSize cfg) in *.
  assert (Hk0 : coherent max (Reading "" k0)).
  { simpl. symmetry. apply Z.ltb_ge. lia. }
  destruct (String.eqb_spec (method req) "POST") as [Hpost|Hpost]; simpl.
  2:{ split; [discriminate|]. intros [Hp _]. contradiction. }
  split.
  - intros Hout. split; [exact Hpost|].
    pose proof (fold_on_data max (chunks req) "" k0 Hk0) as Hfold.
    destruct (fold_left (on_data max) (chunks req) (Reading "" k0))
      as [body k|] eqn:Hp.
    + destruct Hfold as [Hlen Hk].
      destruct (ends req) eqn:Hends; [|discriminate].
      simpl in Hout. destruct (headersSent k) eqn:Hsent.
      2:{ destruct (parse_password body) as [password|]; [|discriminate].
          destruct (bool_decide _); discriminate. }
      simpl in Hk. rewrite Hsent in Hk. symmetry in Hk. apply Z.ltb_lt in Hk.
      rewrite Hlen in Hk. simpl in Hk.
      destruct (exists_last (l := chunks req)) as (before & chunk & Hsplit).
      { intros Hnil. rewrite Hnil in Hk. unfold body_size in Hk. simpl in Hk. lia. }
      exists before, chunk, []. rewrite <- Hsplit. auto.
    + destruct Hfold as (pre & c & post & Hsplit & Hover). simpl in Hover.
      destruct (exists_last (l := pre)) as (before & chunk & Hpre).
      { intros Hnil. rewrite Hnil in Hover. unfold body_size in Hover.
        simpl in Hover. lia. }
      exists before, chunk, (c :: post).
      split; [rewrite Hsplit, Hpre, <- app_assoc; reflexivity|].
      split; [rewrite <- Hpre; exact Hover|]. left. discriminate.
  - intros (_ & before & chunk & after & Hsplit & Hover & Hnext).
    replace (chunks req) with ((before ++ [chunk]) ++ after)
      by (rewrite Hsplit, <- app_assoc; reflexivity).
    rewrite fold_left_app.
    pose proof (fold_on_data max (before ++ [chunk]) "" k0 Hk0) as Hfold.
    destruct (fold_left (on_data max) (before ++ [chunk]) (Reading "" k0))
      as [body k|].
    + destruct Hfold as [Hlen Hk]. simpl in Hlen.
      assert (Hbody : (max < Z.of_nat (String.length body))%Z) by (rewrite Hlen; lia).
      destruct after as [|c after].
      * destruct Hnext as [?|Hends]; [congruence|]. rewrite Hends. simpl.
        simpl in Hk. rewrite Hk.
        destruct (Z.ltb_spec max (Z.of_nat (String.length body)));
          [reflexivity|lia].
      * rewrite fold_over by (assumption || discriminate).
        destruct (ends req); reflexivity.
    + rewrite fold_Thrown. destruct (ends req); reflexivity.
Qed.

End login.

Lemma oversize_login_ends_the_process_witness :
  handleLogin (fun _ => None) (fun _ => "") "admin123" small 0
              (post "/auth/login" ["abc"; "de"]) = Uncaught.
Proof.
  apply (oversize_login_ends_the_process (fun _ => None) (fun _ => "") "admin123"
           small 0%Z (post "/auth/login" ["abc"; "de"])).
  - vm_compute. discriminate.
  - split; [reflexivity|]. exists ["abc"], "de", [].
    split; [reflexivity|]. split; [vm_compute; reflexivity|right; reflexivity].
Defined.

End LoginFacts.

(** ** The statuses of the replies *)
Module Statuses.
Import Js Http Node Config Validator RateLimit Broker Probes.
Import BrokerFacts Admission Invariant Dispatch Cleanup Accounting Examples.

Lemma reports_refl (s : state) : reports s s.
Proof. intros r. left. reflexivity. Qed.

Lemma reports_trans (s1 s2 s3 : state) :
  reports s1 s2 -> reports s2 s3 -> reports s1 s3.
Proof.
  intros A B r. destruct (B r) as [Heq|Hp]; [|right; exact Hp].
  destruct (A r) as [Heq'|Hp].
  - left. congruence.
  - right. unfold plain_reply in *. rewrite Heq. exact Hp.
Qed.

Lemma reports_same (s s' : state) : sinks s' = sinks s -> reports s s'.
Proof. intros Hk r. left. unfold sink_of. rewrite Hk. reflexivity. Qed.

Lemma reports_put_sink res k (s : state) :
  reply k = reply (sink_of s res) \/ plain_reply k ->
  reports s (put_sink res k s).
Proof.
  intros Hk r. destruct (decide (r = res)) as [->|Hne].
  - rewrite sink_of_put_eq. exact Hk.
  - rewrite sink_of_put_ne by congruence. left. reflexivity.
Qed.

Lemma plain_writeError status error (k : sink_state) :
  (status, error) ∈ broker_errors -> plain_reply (writeError status error k).
Proof. intros Hin. exact Hin. Qed.

Lemma reports_replyError status error res (s : state) :
  (status, error) ∈ broker_errors ->
  reports s (replyError status error res s).
Proof. intros Hin. apply reports_put_sink. right. exact Hin. Qed.

Lemma reports_replyError_unless_sent status error res (s : state) :
  (status, error) ∈ broker_errors ->
  reports s (replyError_unless_sent status error res s).
Proof.
  intros Hin. apply reports_put_sink. unfold writeError_unless_sent.
  destruct (headersSent _); [left; reflexivity|right; exact Hin].
Qed.

Ltac listed := unfold broker_errors; set_solver.

Lemma reports_addLog now text lv (s : state) : reports s (addLog now text lv s).
Proof. apply reports_same; reflexivity. Qed.

Lemma reports_with_stats v (s : state) : reports s (with_stats v s).
Proof. apply reports_same; reflexivity. Qed.

Lemma reports_with_clients v (s : state) : reports s (with_clients v s).
Proof. apply reports_same; reflexivity. Qed.

Lemma reports_with_pendingRequests v (s : state) :
  reports s (with_pendingRequests v s).
Proof. apply reports_same; reflexivity. Qed.

Lemma reports_with_statusClients v (s : state) :
  reports s (with_statusClients v s).
Proof. apply reports_same; reflexivity. Qed.

Lemma reports_with_capturing v (s : state) : reports s (with_capturing v s).
Proof. apply reports_same; reflexivity. Qed.

Lemma reports_with_sockets v (s : state) : reports s (with_sockets v s).
Proof. apply reports_same; reflexivity. Qed.

Lemma reports_with_next_requestId v (s : state) :
  reports s (with_next_requestId v s).
Proof. apply reports_same; reflexivity. Qed.

Lemma reports_send ws f (s : state) : reports s (send ws f s).
Proof. apply reports_same; reflexivity. Qed.

Lemma reports_close ws (s : state) : reports s (close ws s).
Proof. apply reports_same; reflexivity. Qed.

Create HintDb reports.
#[local] Hint Resolve reports_addLog reports_with_stats reports_with_clients
  reports_with_pendingRequests reports_with_statusClients reports_with_capturing
  reports_with_sockets reports_with_next_requestId reports_send reports_close
  : reports.
#[local] Hint Extern 1 (reports _ (replyError _ _ _ _)) =>
  apply reports_replyError; listed : reports.
#[local] Hint Extern 1 (reports _ (replyError_unless_sent _ _ _ _)) =>
  apply reports_replyError_unless_sent; listed : reports.

Ltac reports_chain :=
  repeat first [ apply reports_refl
               | eapply reports_trans; [|solve [auto with reports]] ].

Lemma reports_fold_left {A} (f : state -> A -> state) (l : list A) :
  (forall s x, reports s (f s x)) ->
  forall s, reports s (fold_left f l s).
Proof.
  intros Hf. induction l as [|x l IH]; intros s; simpl; [apply reports_refl|].
  eapply reports_trans; [apply Hf | apply IH].
Qed.

Lemma reports_handleRequestWithClient now req res slug client (s : state) :
  reports s (handleRequestWithClient now req res slug client s).
Proof. unfold handleRequestWithClient. cbv zeta. reports_chain. Qed.

Lemma reports_handleRequestWithoutClient now req res slug (s : state) :
  reports s (handleRequestWithoutClient now req res slug s).
Proof. unfold handleRequestWithoutClient. cbv zeta. reports_chain. Qed.

Lemma reports_resume cfg now requestId send_ok (s : state) :
  reports s (handleRequestWithClient_resume cfg now requestId send_ok s).
Proof.
  unfold handleRequestWithClient_resume.
  destruct (JsMap.get _ _) as [t|]; [|apply reports_refl]. cbv zeta.
  destruct (collectRequestData _ _); [destruct send_ok|]; reports_chain.
Qed.

Lemma reports_onTimeout now requestId (s : state) :
  reports s (onTimeout now requestId s).
Proof.
  unfold onTimeout.
  destruct (JsMap.get _ _) as [rd|]; [|apply reports_refl]. cbv zeta.
  destruct (p_timeout rd); reports_chain.
Qed.

Lemma reports_rejectPendingRequestsForSlug slug (s : state) :
  reports s (rejectPendingRequestsForSlug slug s).
Proof.
  unfold rejectPendingRequestsForSlug. apply reports_fold_left.
  intros s0 [requestId requestData]. cbv zeta.
  destruct (String.eqb _ _); reports_chain.
Qed.

Lemma reports_processPendingRequestsForSlug now slug client (s : state) :
  reports s (processPendingRequestsForSlug now slug client s).
Proof.
  unfold processPendingRequestsForSlug. apply reports_fold_left.
  intros s0 [requestId requestData]. cbv zeta.
  destruct (String.eqb _ _); [|apply reports_refl].
  eapply reports_trans; [apply reports_handleRequestWithClient|].
  apply reports_with_pendingRequests.
Qed.

Lemma reports_registerClient now ws slug (s : state) :
  reports s (registerClient now ws slug s).
Proof.
  unfold registerClient. cbv zeta.
  eapply reports_trans; [|apply reports_send].
  eapply reports_trans; [|apply reports_processPendingRequestsForSlug].
  eapply reports_trans; [|apply reports_with_clients].
  destruct (JsMap.get _ _) as [existing|]; [|apply reports_refl].
  destruct (_ =? _)%nat; reports_chain.
Qed.

Lemma reports_removeClient ws (s : state) : reports s (removeClient ws s).
Proof.
  unfold removeClient.
  destruct (decide _); [reports_chain|].
  match goal with |- context [List.find ?f ?l] =>
    destruct (List.find f l) as [[slug client]|] end; [|apply reports_refl].
  cbv zeta.
  eapply reports_trans; [|apply reports_rejectPendingRequestsForSlug].
  reports_chain.
Qed.

Lemma setHeaders_reply `{NodeHttp} (entries : list (string * string)) :
  forall k, reply (setHeaders entries k).1 = reply k.
Proof.
  induction entries as [|[key value] rest IH]; intros k; simpl; [reflexivity|].
  unfold setHeader. destruct (headersSent k); [reflexivity|].
  destruct (setHeader_ok key value); [|reflexivity].
  rewrite IH. reflexivity.
Qed.

Lemma reports_handleClientResponse `{NodeHttp} now slug requestId response
    (s : state) :
  reports s (handleClientResponse now slug requestId response s).
Proof.
  unfold handleClientResponse.
  destruct (JsMap.get _ _) as [rd|]; [|reports_chain]. cbv beta zeta.
  match goal with |- context [setHeaders ?l (sink_of ?s0 ?r)] =>
    pose proof (setHeaders_reply l (sink_of s0 r)) as Hk;
    set (s1 := s0) in *;
    destruct (setHeaders l (sink_of s1 r)) as [k1 ok] end.
  simpl in Hk.
  assert (H1 : reports s s1) by (subst s1; reports_chain).
  assert (Hput : reports s1 (put_sink (p_res rd) k1 s1))
    by (apply reports_put_sink; left; exact Hk).
  destruct ok; [destruct (writeHead_end _ _ k1) as [k2|] eqn:Hw|].
  - apply headersSent_writeHead_end in Hw as (-> & _ & _).
    eapply reports_trans; [exact H1|].
    eapply reports_trans; [|apply reports_with_stats].
    eapply reports_trans; [|apply reports_addLog].
    apply reports_put_sink. right. exact I.
  - eapply reports_trans; [exact H1|].
    eapply reports_trans; [exact Hput|]. reports_chain.
  - eapply reports_trans; [exact H1|].
    eapply reports_trans; [exact Hput|]. reports_chain.
Qed.

Lemma reports_handleWebSocketMessage `{NodeHttp} now ws m (s : state) :
  reports s (handleWebSocketMessage now ws m s).
Proof.
  rewrite handleWebSocketMessage_classify.
  destruct (classify m); try reports_chain.
  - apply reports_registerClient.
  - apply reports_handleClientResponse.
Qed.

Lemma reports_performMemoryCleanup now (s : state) :
  reports s (performMemoryCleanup now s).
Proof.
  unfold performMemoryCleanup. cbv zeta.
  match goal with |- context [if ?c then _ else _] => destruct c end;
    apply reports_same; reflexivity.
Qed.

Lemma reports_onRequest `{NodeHttp} cfg now req (s : state) :
  reports (after_gate cfg now req s) (onRequest cfg now req s).
Proof.
  destruct (gate_admits cfg now req s) eqn:Hgate.
  - rewrite (onRequest_admitted cfg now req s Hgate). cbv zeta.
    destruct (routeOf cfg (pathname req)); try reports_chain.
    destruct (JsMap.get _ _) as [client|];
      [destruct (_ =? _)%nat|];
      first [apply reports_handleRequestWithClient
            |apply reports_handleRequestWithoutClient].
  - rewrite (onRequest_limited cfg now req s Hgate). reports_chain.
Qed.

Lemma reports_step `{NodeHttp} cfg (s : state) (e : event) :
  match e with
  | Request now req => reports (after_gate cfg now req s) (step cfg s e)
  | _ => reports s (step cfg s e)
  end.
Proof.
  destruct e; simpl.
  - apply reports_onRequest.
  - apply reports_resume.
  - reports_chain.
  - reports_chain.
  - apply reports_handleWebSocketMessage.
  - reports_chain.
  - eapply reports_trans; [|apply reports_removeClient]. reports_chain.
  - apply reports_onTimeout.
  - apply reports_performMemoryCleanup.
Qed.



End Statuses.
